(** * icarogw: bounded priors, window functions and the hierarchical likelihood

    A shallow embedding of [icarogw/priors.py] and [icarogw/likelihood.py].

    Numbers.  The Python code computes with IEEE binary64 values through
    numpy.  The embedding keeps the four kinds of value the code
    distinguishes (finite, [+inf], [-inf], [nan]) and the numpy rules for the
    special ones (comparisons with [nan] are false, [log 0 = -inf],
    [x/0 = +-inf], [inf - inf = nan], ...), and idealises the finite ones as
    real numbers: no rounding, no overflow, one zero.

    Arrays.  A one-dimensional numpy array is a [list float]; a boolean mask
    is a [list bool].  Indexing and assigning through a mask of the wrong
    length raises in numpy and is [None] here. *)

From Stdlib Require Import Reals Lra Lia List Bool ZArith Psatz.
Import ListNotations.
Local Open Scope R_scope.

(** ** Floating-point values *)

Inductive float : Type :=
| Fin (r : R)
| PInf
| NInf
| NaN.

Definition R_ltb (x y : R) : bool := if Rlt_dec x y then true else false.
Definition R_eqb (x y : R) : bool := if Req_dec_T x y then true else false.

Arguments R_ltb : simpl never.
Arguments R_eqb : simpl never.

(** The largest finite binary64 value, [(2 - 2^-52) * 2^1023]. *)
Definition DBL_MAX : R := (2 - / 2 ^ 52) * 2 ^ 1023.

Definition isnan (a : float) : bool :=
  match a with NaN => true | _ => false end.

(** Comparisons: every comparison with [nan] is false. *)
Definition flt (a b : float) : bool :=
  match a, b with
  | Fin x, Fin y => R_ltb x y
  | Fin _, PInf => true
  | NInf, Fin _ => true
  | NInf, PInf => true
  | _, _ => false
  end.

Definition feqb (a b : float) : bool :=
  match a, b with
  | Fin x, Fin y => R_eqb x y
  | PInf, PInf => true
  | NInf, NInf => true
  | _, _ => false
  end.

Definition fgt (a b : float) : bool := flt b a.
Definition fle (a b : float) : bool := flt a b || feqb a b.
Definition fge (a b : float) : bool := fle b a.

Definition fneg (a : float) : float :=
  match a with
  | Fin x => Fin (- x)
  | PInf => NInf
  | NInf => PInf
  | NaN => NaN
  end.

Definition fadd (a b : float) : float :=
  match a, b with
  | NaN, _ | _, NaN => NaN
  | PInf, NInf | NInf, PInf => NaN
  | PInf, _ | _, PInf => PInf
  | NInf, _ | _, NInf => NInf
  | Fin x, Fin y => Fin (x + y)
  end.

Definition fsub (a b : float) : float := fadd a (fneg b).

(** An infinity of the sign of [r] times the sign given by [pos];
    [0 * inf] is [nan]. *)
Definition signed_inf (r : R) (pos : bool) : float :=
  if R_eqb r 0 then NaN
  else if eqb (R_ltb 0 r) pos then PInf else NInf.

Definition fmul (a b : float) : float :=
  match a, b with
  | NaN, _ | _, NaN => NaN
  | Fin x, Fin y => Fin (x * y)
  | Fin x, PInf | PInf, Fin x => signed_inf x true
  | Fin x, NInf | NInf, Fin x => signed_inf x false
  | PInf, PInf | NInf, NInf => PInf
  | PInf, NInf | NInf, PInf => NInf
  end.

(** numpy division: a finite nonzero value over zero is an infinity (with a
    warning, not an exception), [0/0] and [inf/inf] are [nan]. *)
Definition fdiv (a b : float) : float :=
  match a, b with
  | NaN, _ | _, NaN => NaN
  | Fin x, Fin y =>
      if R_eqb y 0 then signed_inf x true else Fin (x / y)
  | Fin _, PInf | Fin _, NInf => Fin 0
  | PInf, Fin y => if R_ltb y 0 then NInf else PInf
  | NInf, Fin y => if R_ltb y 0 then PInf else NInf
  | _, _ => NaN
  end.

Definition flog (a : float) : float :=
  match a with
  | Fin x => if R_ltb 0 x then Fin (ln x)
             else if R_eqb x 0 then NInf else NaN
  | PInf => PInf
  | NInf | NaN => NaN
  end.

Definition fexp (a : float) : float :=
  match a with
  | Fin x => Fin (exp x)
  | PInf => PInf
  | NInf => Fin 0
  | NaN => NaN
  end.

(** [numpy.sqrt]. *)
Definition fsqrt (a : float) : float :=
  match a with
  | Fin x => if R_ltb x 0 then NaN else Fin (sqrt x)
  | PInf => PInf
  | NInf | NaN => NaN
  end.

(** [numpy.log1p a = log (1 + a)]. *)
Definition flog1p (a : float) : float := flog (fadd (Fin 1) a).

(** [isint y]: the real [y] is an integer; [Int_part] is its floor. *)
Definition isint (y : R) : bool := R_eqb (IZR (Int_part y)) y.

(** A finite base raised to a finite exponent. *)
Definition Rpow (x y : R) : float :=
  if R_eqb y 0 then Fin 1
  else if R_ltb 0 x then Fin (Rpower x y)
  else if R_eqb x 0 then (if R_ltb 0 y then Fin 0 else PInf)
  else if isint y then
         (if Z.even (Int_part y) then Fin (Rpower (- x) y)
          else Fin (- Rpower (- x) y))
  else NaN.

(** [numpy.power] on floats (C [pow]). *)
Definition fpow (a b : float) : float :=
  match a, b with
  | _, Fin y =>
      if R_eqb y 0 then Fin 1
      else match a with
           | Fin x => Rpow x y
           | PInf => if R_ltb 0 y then PInf else Fin 0
           | NInf => if R_ltb 0 y
                     then (if isint y && negb (Z.even (Int_part y))
                           then NInf else PInf)
                     else Fin 0
           | NaN => NaN
           end
  | Fin x, PInf =>
      if R_eqb (Rabs x) 1 then Fin 1
      else if R_ltb (Rabs x) 1 then Fin 0 else PInf
  | Fin x, NInf =>
      if R_eqb (Rabs x) 1 then Fin 1
      else if R_ltb (Rabs x) 1 then PInf else Fin 0
  | PInf, PInf | NInf, PInf => PInf
  | PInf, NInf | NInf, NInf => Fin 0
  | _, _ => NaN
  end.

(** [numpy.nan_to_num] with its default replacements: [nan] becomes [0.0],
    the infinities become the finite values of largest magnitude. *)
Definition nan_to_num (a : float) : float :=
  match a with
  | NaN => Fin 0
  | PInf => Fin DBL_MAX
  | NInf => Fin (- DBL_MAX)
  | Fin x => Fin x
  end.

(** [numpy.logaddexp a b = log (exp a + exp b)], with
    [logaddexp (-inf) (-inf) = -inf]. *)
Definition logaddexp (a b : float) : float := flog (fadd (fexp a) (fexp b)).

Definition of_nat (n : nat) : float := Fin (INR n).

Declare Scope float_scope.
Delimit Scope float_scope with fl.
Bind Scope float_scope with float.
Infix "+" := fadd : float_scope.
Infix "-" := fsub : float_scope.
Infix "*" := fmul : float_scope.
Infix "/" := fdiv : float_scope.
Notation "- x" := (fneg x) : float_scope.
Infix "<?" := flt (at level 70) : float_scope.
Infix ">?" := fgt (at level 70) : float_scope.
Infix "<=?" := fle (at level 70) : float_scope.
Infix ">=?" := fge (at level 70) : float_scope.
Infix "==?" := feqb (at level 70) : float_scope.

(** ** Arrays *)

Definition array := list float.

Definition ones_like (a : array) : array := map (fun _ => Fin 1) a.

(** Elementwise operation on two arrays of one shape. *)
Fixpoint map2 {A B C} (f : A -> B -> C) (a : list A) (b : list B) : list C :=
  match a, b with
  | x :: a', y :: b' => f x y :: map2 f a' b'
  | _, _ => []
  end.

(** [numpy.sum]. *)
Definition fsum (a : array) : float := fold_left fadd a (Fin 0).

(** [numpy.cumsum]. *)
Fixpoint cumsum_from (acc : float) (a : array) : array :=
  match a with
  | [] => []
  | x :: a' => fadd acc x :: cumsum_from (fadd acc x) a'
  end.

Definition cumsum (a : array) : array := cumsum_from (Fin 0) a.

(** [a[mask]]: the entries of [a] where [mask] holds. *)
Fixpoint select (a : array) (mask : list bool) : array :=
  match a, mask with
  | x :: a', m :: mask' => if m then x :: select a' mask' else select a' mask'
  | _, _ => []
  end.

Definition getitem_mask (a : array) (mask : list bool) : option array :=
  if Nat.eqb (length mask) (length a) then Some (select a mask) else None.

(** [y[mask] = v] for a scalar [v]. *)
Definition setitem_mask (y : array) (mask : list bool) (v : float)
  : option array :=
  if Nat.eqb (length mask) (length y)
  then Some (map2 (fun (m : bool) yi => if m then v else yi) mask y)
  else None.

(** [y[mask] = vs] for an array [vs]: its entries fill, in order, the
    positions where [mask] holds. *)
Fixpoint scatter (y : array) (mask : list bool) (vs : array) : array :=
  match y, mask with
  | yi :: y', m :: mask' =>
      if m then match vs with
                | v :: vs' => v :: scatter y' mask' vs'
                | [] => yi :: scatter y' mask' []
                end
      else yi :: scatter y' mask' vs
  | _, _ => y
  end.

Definition count_true (mask : list bool) : nat :=
  length (filter (fun m : bool => m) mask).

Definition setitem_mask_array (y : array) (mask : list bool) (vs : array)
  : option array :=
  if Nat.eqb (length mask) (length y) && Nat.eqb (length vs) (count_true mask)
  then Some (scatter y mask vs)
  else None.

(** Errors of array code are propagated as in an exception monad. *)
Definition bind {A B} (m : option A) (k : A -> option B) : option B :=
  match m with Some a => k a | None => None end.

Notation "x <- m ;; k" := (bind m (fun x => k))
  (at level 61, m at next level, right associativity).

(** ** The hierarchical likelihood ([likelihood.py]) *)

Module likelihood.

(** The collaborators of the evaluator are objects of other modules; the
    evaluator only uses the methods and attributes below.  Updating a
    collaborator mutates it: here it returns the new object. *)

Class RateModelI (RateModel Params : Type) := {
  rate_update : RateModel -> Params -> RateModel;
  scale_free : RateModel -> bool
}.

Class InjectionSetI (InjectionSet RateModel : Type) := {
  inj_update_weights : InjectionSet -> RateModel -> InjectionSet;
  effective_injections_number : InjectionSet -> float;
  expected_number_detections : InjectionSet -> float;
  pseudo_rate : InjectionSet -> float;
  Tobs : InjectionSet -> float;
  ntotal : InjectionSet -> float
}.

(** Every per-event array ([get_effective_number_of_PE], [Ns_array],
    [sum_weights]) has one entry per event. *)
Class PosteriorSampleSetI (PosteriorSampleSet RateModel : Type) := {
  build_parallel_posterior : PosteriorSampleSet -> option nat -> PosteriorSampleSet;
  ps_update_weights : PosteriorSampleSet -> RateModel -> PosteriorSampleSet;
  get_effective_number_of_PE : PosteriorSampleSet -> array;
  n_ev : PosteriorSampleSet -> nat;
  Ns_array : PosteriorSampleSet -> array;
  sum_weights : PosteriorSampleSet -> array
}.

Inductive exn : Type := ValueError.

(** What a call of [log_likelihood] does: return a float or raise. *)
Inductive outcome : Type :=
| Returned (v : float)
| Raised (e : exn).

Section hierarchical_likelihood.

Context {RateModel Params InjectionSet PosteriorSampleSet : Type}.
Context `{RM : RateModelI RateModel Params}.
Context `{INJ : InjectionSetI InjectionSet RateModel}.
Context `{PS : PosteriorSampleSetI PosteriorSampleSet RateModel}.

(** The attributes of a [hierarchical_likelihood] object.  [parameters] is
    the dictionary the sampler fills before each evaluation;
    [likelihood_variance] is absent until an evaluation stores it. *)
Record hierarchical_likelihood : Type := mk_hl {
  injections : InjectionSet;
  neffPE : float;
  rate_model : RateModel;
  posterior_samples_dict : PosteriorSampleSet;
  likelihood_variance_thr : option float;
  neffINJ : float;
  parameters : Params;
  likelihood_variance : option float
}.

(** [hierarchical_likelihood.__init__]; the defaults of the keyword
    arguments are [neffPE=20], [neffINJ=None],
    [likelihood_variance_thr=None]. *)
Definition init (posterior_samples_dict0 : PosteriorSampleSet)
    (injections0 : InjectionSet) (rate_model0 : RateModel)
    (nparallel : option nat) (neffPE0 : float) (neffINJ0 : option float)
    (likelihood_variance_thr0 : option float) (parameters0 : Params)
  : hierarchical_likelihood :=
  let psd := build_parallel_posterior posterior_samples_dict0 nparallel in
  match likelihood_variance_thr0 with
  | Some _ =>
      mk_hl injections0 (Fin (-1)) rate_model0 psd likelihood_variance_thr0
            (Fin (-1)) parameters0 None
  | None =>
      match neffINJ0 with
      | None =>
          mk_hl injections0 neffPE0 rate_model0 psd None
                (Fin 4 * of_nat (n_ev psd))%fl parameters0 None
      | Some n =>
          mk_hl injections0 neffPE0 rate_model0 psd None n parameters0 None
      end
  end.

(** [float(xp.nan_to_num(-xp.inf))], the value returned on rejection. *)
Definition rejected : float := nan_to_num (- PInf)%fl.

(** The state after the rate model and the injection weights are updated
    (the first two statements of [log_likelihood]). *)
Definition injections_weighted (hl : hierarchical_likelihood)
  : hierarchical_likelihood :=
  let rm := rate_update (rate_model hl) (parameters hl) in
  let inj := inj_update_weights (injections hl) rm in
  mk_hl inj (neffPE hl) rm (posterior_samples_dict hl)
        (likelihood_variance_thr hl) (neffINJ hl) (parameters hl)
        (likelihood_variance hl).

(** The state after the posterior-sample weights are updated. *)
Definition posterior_weighted (hl : hierarchical_likelihood)
  : hierarchical_likelihood :=
  let ps := ps_update_weights (posterior_samples_dict hl) (rate_model hl) in
  mk_hl (injections hl) (neffPE hl) (rate_model hl) ps
        (likelihood_variance_thr hl) (neffINJ hl) (parameters hl)
        (likelihood_variance hl).

Definition set_likelihood_variance (hl : hierarchical_likelihood) (v : float)
  : hierarchical_likelihood :=
  mk_hl (injections hl) (neffPE hl) (rate_model hl)
        (posterior_samples_dict hl) (likelihood_variance_thr hl)
        (neffINJ hl) (parameters hl) (Some v).

(** The variance diagnostic, from the effective numbers of injections and
    of posterior samples. *)
Definition variance_of (hl : hierarchical_likelihood) (Neff : float)
    (neff_PE_ev : array) : float :=
  let psd := posterior_samples_dict hl in
  ((fpow (of_nat (n_ev psd)) (Fin 2) / Neff)
     * (Fin 1 - Neff / ntotal (injections hl))
   + fsum (map2 fmul
             (map (fun v => fpow v (Fin (-1))) neff_PE_ev)
             (map2 (fun v n => Fin 1 - v / n) neff_PE_ev (Ns_array psd))))%fl.

(** "Combine all the terms". *)
Definition combine (hl : hierarchical_likelihood) : float :=
  let psd := posterior_samples_dict hl in
  let inj := injections hl in
  if scale_free (rate_model hl)
  then (fsum (map flog (sum_weights psd))
        - of_nat (n_ev psd) * flog (pseudo_rate inj))%fl
  else
    let Nexp := expected_number_detections inj in
    (- Nexp + of_nat (n_ev psd) * flog (Tobs inj)
     + fsum (map flog (sum_weights psd)))%fl.

(** "Controls on the value of the log-likelihood". *)
Definition sanitize (log_likeli : float) : outcome :=
  if (log_likeli ==? PInf)%fl then Raised ValueError
  else if isnan log_likeli then Returned rejected
  else Returned (nan_to_num log_likeli).

(** [hierarchical_likelihood.log_likelihood]: the outcome and the evaluator
    as the call leaves it. *)
Definition log_likelihood (hl : hierarchical_likelihood)
  : outcome * hierarchical_likelihood :=
  let hl := injections_weighted hl in
  let Neff := effective_injections_number (injections hl) in
  if (Neff <? neffINJ hl)%fl || (Neff ==? Fin 0)%fl
  then (Returned rejected, hl)
  else
    let hl := posterior_weighted hl in
    let neff_PE_ev := get_effective_number_of_PE (posterior_samples_dict hl) in
    if existsb (fun v => (v <? neffPE hl)%fl) neff_PE_ev
    then (Returned rejected, hl)
    else
      let variance := variance_of hl Neff neff_PE_ev in
      let hl := set_likelihood_variance hl variance in
      let over :=
        match likelihood_variance_thr hl with
        | Some thr => (variance >? thr)%fl
        | None => false
        end in
      if over then (Returned rejected, hl)
      else (sanitize (combine hl), hl).

(** *** [hierarchical_likelihood_v1]

    The class has the attributes and the constructor of
    [hierarchical_likelihood]; its [log_likelihood] makes the same tests and
    returns [-xp.inf] and the combined value themselves. *)

Definition sanitize_v1 (log_likeli : float) : outcome :=
  if (log_likeli ==? PInf)%fl then Raised ValueError
  else if isnan log_likeli then Returned (- PInf)%fl
  else Returned log_likeli.

Definition log_likelihood_v1 (hl : hierarchical_likelihood)
  : outcome * hierarchical_likelihood :=
  let hl := injections_weighted hl in
  let Neff := effective_injections_number (injections hl) in
  if (Neff <? neffINJ hl)%fl || (Neff ==? Fin 0)%fl
  then (Returned (- PInf)%fl, hl)
  else
    let hl := posterior_weighted hl in
    let neff_PE_ev := get_effective_number_of_PE (posterior_samples_dict hl) in
    if existsb (fun v => (v <? neffPE hl)%fl) neff_PE_ev
    then (Returned (- PInf)%fl, hl)
    else
      let variance := variance_of hl Neff neff_PE_ev in
      let hl := set_likelihood_variance hl variance in
      let over :=
        match likelihood_variance_thr hl with
        | Some thr => (variance >? thr)%fl
        | None => false
        end in
      if over then (Returned (- PInf)%fl, hl)
      else (sanitize_v1 (combine hl), hl).

(** *** [hierarchical_likelihood_noevents] *)

Record hierarchical_likelihood_noevents : Type := mk_noevents {
  noevents_injections : InjectionSet;
  noevents_rate_model : RateModel;
  noevents_parameters : Params
}.

(** [hierarchical_likelihood_noevents.log_likelihood]: the log-likelihood is
    [-Nexp], controlled as in [hierarchical_likelihood]. *)
Definition log_likelihood_noevents (hl : hierarchical_likelihood_noevents)
  : outcome * hierarchical_likelihood_noevents :=
  let rm := rate_update (noevents_rate_model hl) (noevents_parameters hl) in
  let inj := inj_update_weights (noevents_injections hl) rm in
  let Nexp := expected_number_detections inj in
  let log_likeli := (- Nexp)%fl in
  (sanitize log_likeli, mk_noevents inj rm (noevents_parameters hl)).

End hierarchical_likelihood.

End likelihood.

(** ** Priors ([priors.py]) *)

Module priors.

(** *** numpy helpers used by the priors *)

(** [a[:-1]] is [removelast a] and [a[1:]] is [tl a]. *)

(** Modelled from the spec: [check_bounds_1D] of [cupy_pal] (imported by
    [priors.py], its source is not part of the sources at hand) flags the
    entries of [x] outside [[minval, maxval]]. *)
Definition check_bounds_1D (x : array) (minval maxval : float) : list bool :=
  map (fun xi => (xi <? minval) || (xi >? maxval))%fl x.

(** Elementwise operation with numpy broadcasting of a one-entry array. *)
Definition broadcast2 (f : float -> float -> float) (a b : array)
  : option array :=
  match a, b with
  | _, [y] => Some (map (fun x => f x y) a)
  | [x], _ => Some (map (fun y => f x y) b)
  | _, _ => if Nat.eqb (length a) (length b) then Some (map2 f a b) else None
  end.

(** [numpy.linspace start stop num]. *)
Definition linspace (start stop : float) (num : nat) : array :=
  match num with
  | O => []
  | S O => [start]
  | S div =>
      let delta := (stop - start)%fl in
      let step := (delta / of_nat div)%fl in
      map (fun i => if (step ==? Fin 0)%fl
                    then (of_nat i / of_nat div * delta + start)%fl
                    else (of_nat i * step + start)%fl) (seq 0 div)
      ++ [stop]
  end.

(** [numpy.diff]. *)
Definition diff (x : array) : array := map2 fsub (tl x) (removelast x).

(** [numpy.trapz y x]. *)
Definition trapz (y x : array) : float :=
  fsum (map (fun v => v / Fin 2)%fl
          (map2 fmul (diff x) (map2 fadd (tl y) (removelast y)))).

(** [numpy.interp] at one point [x] that is not below the first sample
    point: the segment of the increasing sample points [xp] that holds [x]
    is searched from the left. *)
Fixpoint interp_search (x : float) (xp fp : array) : float :=
  match xp, fp with
  | x0 :: ((x1 :: _) as xp'), f0 :: ((f1 :: _) as fp') =>
      if (x <? x1)%fl
      then (if (x ==? x0)%fl then f0
            else ((f1 - f0) / (x1 - x0) * (x - x0) + f0)%fl)
      else interp_search x xp' fp'
  | _ :: _, f0 :: _ => f0
  | _, _ => NaN
  end.

Definition interp1 (xp fp : array) (x : float) : float :=
  if isnan x then x
  else if (x <? hd NaN xp)%fl then hd NaN fp
  else if (x >? last xp NaN)%fl then last fp NaN
  else interp_search x xp fp.

(** [numpy.interp x xp fp]; it raises when there is no sample point or when
    [xp] and [fp] differ in length. *)
Definition interp (x xp fp : array) : option array :=
  match xp with
  | [] => None
  | _ => if Nat.eqb (length xp) (length fp)
         then Some (map (interp1 xp fp) x) else None
  end.

(** *** Window function *)

(** [_highpass_filter]. *)
Definition _highpass_filter (mass : array) (mmin delta_m : float)
  : option array :=
  let to_ret := ones_like mass in
  if (delta_m ==? Fin 0)%fl then Some to_ret
  else
    let mprime := map (fun m => m - mmin)%fl mass in
    let select_window :=
      map (fun m => (m >? mmin) && (m <? delta_m + mmin))%fl mass in
    let select_one := map (fun m => m >=? delta_m + mmin)%fl mass in
    let select_zero := map (fun m => m <=? mmin)%fl mass in
    let effe_prime := ones_like mass in
    mw1 <- getitem_mask mprime select_window ;;
    mw2 <- getitem_mask mprime select_window ;;
    effe_prime <- setitem_mask_array effe_prime select_window
      (map fexp
         (map nan_to_num
            (map2 fadd (map (fun v => delta_m / v)%fl mw1)
                       (map (fun v => delta_m / (v - delta_m))%fl mw2)))) ;;
    let to_ret := map (fun e => Fin 1 / (e + Fin 1))%fl effe_prime in
    to_ret <- setitem_mask to_ret select_zero (Fin 0) ;;
    to_ret <- setitem_mask to_ret select_one (Fin 1) ;;
    Some to_ret.

(** *** Beta-distribution parameters *)

(** [betadistro_muvar2ab], on one entry of the arrays. *)
Definition betadistro_muvar2ab (mu var : float) : float * float :=
  let a := ((((Fin 1 - mu) / var) - Fin 1 / mu) * fpow mu (Fin 2))%fl in
  (a, (a * (Fin 1 / mu - Fin 1))%fl).

(** [betadistro_ab2muvar], on one entry of the arrays. *)
Definition betadistro_ab2muvar (a b : float) : float * float :=
  ((a / (a + b))%fl,
   (a * b / (fpow (a + b) (Fin 2) * (a + b + Fin 1)))%fl).

(** *** The base class of one-dimensional distributions *)

(** An object of a subclass of [basic_1dimpdf]: its bounds and the two
    methods [_log_pdf] and [_log_cdf] the subclass provides. *)
Record basic_1dimpdf : Type := mk_pdf {
  minval : float;
  maxval : float;
  _log_pdf : array -> option array;
  _log_cdf : array -> option array
}.

Definition _check_bound_pdf (self : basic_1dimpdf) (x y : array)
  : option array :=
  let indx := check_bounds_1D x (minval self) (maxval self) in
  setitem_mask y indx (- PInf)%fl.

(** The two assignments of [y[x<minval],y[x>maxval]=-inf,0.] happen from
    left to right. *)
Definition _check_bound_cdf (self : basic_1dimpdf) (x y : array)
  : option array :=
  y <- setitem_mask y (map (fun xi => xi <? minval self)%fl x) (- PInf)%fl ;;
  setitem_mask y (map (fun xi => xi >? maxval self)%fl x) (Fin 0).

Definition log_pdf (self : basic_1dimpdf) (x : array) : option array :=
  y <- _log_pdf self x ;;
  _check_bound_pdf self x y.

Definition log_cdf (self : basic_1dimpdf) (x : array) : option array :=
  y <- _log_cdf self x ;;
  _check_bound_cdf self x y.

Definition pdf (self : basic_1dimpdf) (x : array) : option array :=
  y <- log_pdf self x ;; Some (map fexp y).

Definition cdf (self : basic_1dimpdf) (x : array) : option array :=
  y <- log_cdf self x ;; Some (map fexp y).

(** *** Power law *)

Definition PL_normfact (minpl maxpl alpha : float) : float :=
  if (alpha ==? Fin (-1))%fl then flog (maxpl / minpl)
  else ((fpow maxpl (alpha + Fin 1) - fpow minpl (alpha + Fin 1))
        / (alpha + Fin 1))%fl.

(** The attribute [norm_fact] of [PowerLaw(minpl,maxpl,alpha)]. *)
Definition PowerLaw_norm_fact (minpl maxpl alpha : float) : float :=
  PL_normfact minpl maxpl alpha.

Definition PowerLaw__log_pdf (minpl maxpl alpha : float) (x : array)
  : option array :=
  let norm_fact := PowerLaw_norm_fact minpl maxpl alpha in
  Some (map (fun xi => alpha * flog xi - flog norm_fact)%fl x).

Definition PowerLaw__log_cdf (minpl maxpl alpha : float) (x : array)
  : option array :=
  let norm_fact := PowerLaw_norm_fact minpl maxpl alpha in
  if (alpha ==? Fin (-1))%fl
  then Some (map (fun xi => flog (flog (xi / minpl) / norm_fact))%fl x)
  else Some (map (fun xi =>
                    flog (((fpow xi (alpha + Fin 1)
                            - fpow minpl (alpha + Fin 1))
                           / (alpha + Fin 1)) / norm_fact))%fl x).

(** [PowerLaw(minpl,maxpl,alpha)]. *)
Definition PowerLaw (minpl maxpl alpha : float) : basic_1dimpdf :=
  mk_pdf minpl maxpl (PowerLaw__log_pdf minpl maxpl alpha)
         (PowerLaw__log_cdf minpl maxpl alpha).

(** *** Broken power law *)

Module BrokenPowerLaw.

Record t : Type := mk {
  minpl : float;
  maxpl : float;
  alpha_1 : float;
  alpha_2 : float;
  b : float;
  break_point : float;
  PL1 : basic_1dimpdf;
  PL2 : basic_1dimpdf;
  norm_fact : float
}.

(** [BrokenPowerLaw.__init__]; [a[0]] raises on an empty array. *)
Definition init (minpl maxpl alpha_1 alpha_2 b : float) : option t :=
  let break_point := (minpl + b * (maxpl - minpl))%fl in
  let PL1 := PowerLaw minpl break_point alpha_1 in
  let PL2 := PowerLaw break_point maxpl alpha_2 in
  p1 <- pdf PL1 [break_point] ;;
  v1 <- nth_error p1 0 ;;
  p2 <- pdf PL2 [break_point] ;;
  v2 <- nth_error p2 0 ;;
  Some (mk minpl maxpl alpha_1 alpha_2 b break_point PL1 PL2
           (Fin 1 + v1 / v2)%fl).

(** The two arguments of [logaddexp] in [_log_pdf]: the part of the first
    power law, and the part of the second power law rescaled by the ratio of
    the two at the break point. *)
Definition log_parts (self : t) (x : array) : option (array * array) :=
  l1 <- log_pdf (PL1 self) x ;;
  l2 <- log_pdf (PL2 self) x ;;
  l1b <- log_pdf (PL1 self) [break_point self] ;;
  s <- broadcast2 fadd l2 l1b ;;
  l2b <- log_pdf (PL2 self) [break_point self] ;;
  d <- broadcast2 fsub s l2b ;;
  Some (l1, d).

Definition _log_pdf (self : t) (x : array) : option array :=
  parts <- log_parts self x ;;
  toret <- broadcast2 logaddexp (fst parts) (snd parts) ;;
  Some (map (fun v => v - flog (norm_fact self))%fl toret).

Definition _log_cdf (self : t) (x : array) : option array :=
  c1 <- cdf (PL1 self) x ;;
  c2 <- cdf (PL2 self) x ;;
  p1 <- pdf (PL1 self) [break_point self] ;;
  p2 <- pdf (PL2 self) [break_point self] ;;
  r <- broadcast2 fdiv p1 p2 ;;
  c2r <- broadcast2 fmul c2 r ;;
  s <- broadcast2 fadd c1 c2r ;;
  Some (map (fun v => flog (v / norm_fact self))%fl s).

Definition as_pdf (self : t) : basic_1dimpdf :=
  mk_pdf (minpl self) (maxpl self) (_log_pdf self) (_log_cdf self).

End BrokenPowerLaw.

(** *** Smoothing of the lower edge *)

Module LowpassSmoothedProb.

(** The attributes of the object; [self_minval] and [self_maxval] are the
    bounds kept by the base class, and the arrays [x_eval] and
    [cdf_numeric] stand for their CPU and GPU copies. *)
Record t : Type := mk {
  origin_prob : basic_1dimpdf;
  bottom_smooth : float;
  bottom : float;
  self_minval : float;
  self_maxval : float;
  integral_before : float;
  integral_now : float;
  norm : float;
  x_eval : array;
  cdf_numeric : array
}.

(** The midpoints [(x_eval[:-1:]+x_eval[1::])*0.5] of a grid. *)
Definition midpoints (x_eval : array) : array :=
  map (fun v => v * Fin (1 / 2))%fl (map2 fadd (removelast x_eval) (tl x_eval)).

Definition _log_pdf (self : t) (x : array) : option array :=
  window <- _highpass_filter x (bottom self) (bottom_smooth self) ;;
  lp <- log_pdf (origin_prob self) x ;;
  Some (map (fun v => v - flog (norm self))%fl
          (map2 fadd lp (map flog window))).

Definition _log_cdf (self : t) (x : array) : option array :=
  let ravelled := x in
  let edge := (bottom self + bottom_smooth self)%fl in
  let toret := ones_like ravelled in
  toret <- setitem_mask toret
             (map (fun r => r <? bottom self)%fl ravelled) (Fin 0) ;;
  let inside :=
    map (fun r => (r >=? bottom self) && (r <=? edge))%fl ravelled in
  xin <- getitem_mask ravelled inside ;;
  vin <- interp xin (midpoints (x_eval self)) (cdf_numeric self) ;;
  toret <- setitem_mask_array toret inside vin ;;
  let above := map (fun r => r >=? edge)%fl ravelled in
  xab <- getitem_mask ravelled above ;;
  cab <- cdf (origin_prob self) xab ;;
  cedge <- cdf (origin_prob self) [edge] ;;
  tail <- broadcast2 fsub (map (fun c => integral_now self + c)%fl cab) cedge ;;
  toret <- setitem_mask_array toret above
             (map (fun v => v / norm self)%fl tail) ;;
  Some (map flog toret).

Definition as_pdf (self : t) : basic_1dimpdf :=
  mk_pdf (self_minval self) (self_maxval self) (_log_pdf self) (_log_cdf self).

(** [LowpassSmoothedProb.__init__].  The numeric CDF is filled by calling
    the [pdf] of the object under construction, when its grid attributes
    are not set yet. *)
Definition init (originprob : basic_1dimpdf) (bottomsmooth : float)
  : option t :=
  let origin_prob := originprob in
  let bottom_smooth := bottomsmooth in
  let bottom := minval originprob in
  let int_array :=
    linspace (minval originprob) (minval originprob + bottomsmooth)%fl 1000 in
  p0 <- pdf origin_prob int_array ;;
  let integral_before := trapz p0 int_array in
  p1 <- pdf origin_prob int_array ;;
  w <- _highpass_filter int_array bottom bottom_smooth ;;
  let integral_now := trapz (map2 fmul p1 w) int_array in
  let norm := (Fin 1 - integral_before + integral_now)%fl in
  let self := mk origin_prob bottom_smooth bottom (minval originprob)
                 (maxval originprob) integral_before integral_now norm
                 [] [] in
  let x_eval_cpu := linspace bottom (bottom + bottom_smooth)%fl 1000 in
  ps <- pdf (as_pdf self) (midpoints x_eval_cpu) ;;
  let cdf_numeric_cpu :=
    map2 fmul (cumsum ps) (map2 fsub (tl x_eval_cpu) (removelast x_eval_cpu)) in
  Some (mk origin_prob bottom_smooth bottom (minval originprob)
           (maxval originprob) integral_before integral_now norm
           x_eval_cpu cdf_numeric_cpu).

End LowpassSmoothedProb.

(** *** The other window functions *)

(** [_lowpass_filter]. *)
Definition _lowpass_filter (mass : array) (mmax delta_max : float)
  : option array :=
  let to_ret := ones_like mass in
  if (delta_max ==? Fin 0)%fl then Some to_ret
  else
    let mprime := map (fun m => mmax - m)%fl mass in
    let select_window :=
      map (fun m => (m <? mmax) && (m >? mmax - delta_max))%fl mass in
    let select_one := map (fun m => m <=? mmax - delta_max)%fl mass in
    let select_zero := map (fun m => m >=? mmax)%fl mass in
    let effe_prime := ones_like mass in
    mw1 <- getitem_mask mprime select_window ;;
    mw2 <- getitem_mask mprime select_window ;;
    effe_prime <- setitem_mask_array effe_prime select_window
      (map fexp
         (map nan_to_num
            (map2 fadd (map (fun v => delta_max / v)%fl mw1)
                       (map (fun v => delta_max / (v - delta_max))%fl mw2)))) ;;
    let to_ret := map (fun e => Fin 1 / (e + Fin 1))%fl effe_prime in
    to_ret <- setitem_mask to_ret select_zero (Fin 0) ;;
    to_ret <- setitem_mask to_ret select_one (Fin 1) ;;
    Some to_ret.

(** [_notch_filter]: [1-A*highpass*lowpass]. *)
Definition _notch_filter (mass : array)
    (mlow delta_low mhigh delta_high A : float) : option array :=
  hp <- _highpass_filter mass mlow delta_low ;;
  lp <- _lowpass_filter mass mhigh delta_high ;;
  Some (map (fun v => Fin 1 - v)%fl
          (map2 fmul (map (fun h => A * h)%fl hp) lp)).

(** [_mixed_double_sigmoid_function]. *)
Definition _mixed_double_sigmoid_function (x : array)
    (xt delta_xt mix_x0 mix_x1 : float) : array :=
  map (fun xi =>
         mix_x1 + (mix_x0 - mix_x1) / (Fin 1 + fexp ((xi - xt) / delta_xt)))%fl
      x.

(** [_mixed_linear_function]. *)
Definition _mixed_linear_function (x : array) (mix_x0 mix_x1 : float)
  : array :=
  map (fun xi => (mix_x1 - mix_x0) * xi + mix_x0)%fl x.

(** *** Power laws of the redshift-evolving models *)

(** [a.any()]: some entry of [a] is not zero. *)
Definition array_any (a : array) : bool :=
  existsb (fun v => negb (v ==? Fin 0)%fl) a.

(** A Python boolean compared with a number counts as [1] or [0]. *)
Definition bool_as_float (b : bool) : float := if b then Fin 1 else Fin 0.

(** [PL_normfact_z], on arrays of one shape. *)
Definition PL_normfact_z (minpl maxpl alpha : array) : array :=
  if (bool_as_float (array_any alpha) ==? Fin (-1))%fl
  then map flog (map2 fdiv maxpl minpl)
  else
    map2 fdiv
      (map2 fsub (map2 fpow maxpl (map (fun a => a + Fin 1)%fl alpha))
                 (map2 fpow minpl (map (fun a => a + Fin 1)%fl alpha)))
      (map (fun a => a + Fin 1)%fl alpha).

Module PowerLawStationary.

Record t : Type := mk {
  alpha : float;
  minval : float;
  maxval : float
}.

(** [PowerLawStationary.__init__]: the exponent is stored negated. *)
Definition init (alpha mmin mmax : float) : t := mk (- alpha)%fl mmin mmax.

Definition log_pdf (self : t) (m : array) : option array :=
  let powerlaw :=
    map (fun mi =>
           alpha self * flog mi
           - flog (PL_normfact (minval self) (maxval self) (alpha self)))%fl
        m in
  let indx := check_bounds_1D m (minval self) (maxval self) in
  setitem_mask powerlaw indx (- PInf)%fl.

Definition pdf (self : t) (m : array) : option array :=
  y <- log_pdf self m ;; Some (map fexp y).

End PowerLawStationary.

(** *** Power law plus Gaussian peak *)

Module PowerLawGaussian.

(** The attributes the methods read: the fraction [lambdag] of the peak and
    the two components [PL] and [TG] built by [__init__]; [self_minval] and
    [self_maxval] are the bounds kept by the base class.  The methods use
    the peak only through [log_pdf] and [cdf] of the base class. *)
Record t : Type := mk {
  self_minval : float;
  self_maxval : float;
  lambdag : float;
  PL : basic_1dimpdf;
  TG : basic_1dimpdf
}.

Definition _log_pdf (self : t) (x : array) : option array :=
  lpl <- log_pdf (PL self) x ;;
  ltg <- log_pdf (TG self) x ;;
  broadcast2 logaddexp
    (map (fun v => flog1p (- lambdag self) + v)%fl lpl)
    (map (fun v => flog (lambdag self) + v)%fl ltg).

Definition _log_cdf (self : t) (x : array) : option array :=
  cpl <- cdf (PL self) x ;;
  ctg <- cdf (TG self) x ;;
  s <- broadcast2 fadd
         (map (fun v => (Fin 1 - lambdag self) * v)%fl cpl)
         (map (fun v => lambdag self * v)%fl ctg) ;;
  Some (map flog s).

Definition as_pdf (self : t) : basic_1dimpdf :=
  mk_pdf (self_minval self) (self_maxval self) (_log_pdf self) (_log_cdf self).

End PowerLawGaussian.

(** *** Paired two-dimensional distribution *)

Module paired_2dimpdf.

(** The attributes the methods read: [new_norm] is the Monte-Carlo estimate
    stored by [_get_norm_factor]. *)
Record t : Type := mk {
  pdf_base : basic_1dimpdf;
  pairing_function : array -> array -> array;
  new_norm : float
}.

Definition log_pdf (self : t) (x1 x2 : array) : option array :=
  l1 <- priors.log_pdf (pdf_base self) x1 ;;
  l2 <- priors.log_pdf (pdf_base self) x2 ;;
  let y :=
    map (fun v => v - flog (new_norm self))%fl
        (map2 fadd (map2 fadd l1 l2)
                   (map flog (pairing_function self x1 x2))) in
  setitem_mask y (map isnan y) (- PInf)%fl.

Definition pdf (self : t) (x1 x2 : array) : option array :=
  y <- log_pdf self x1 x2 ;; Some (map fexp y).

End paired_2dimpdf.

(** *** Piecewise-constant two-dimensional distribution *)

Module piecewise_constant_2d_distribution_normalized.

(** [int(x)] of a float: truncation towards zero; it raises on [nan] and on
    the infinities. *)
Definition int_of_float (a : float) : option Z :=
  match a with
  | Fin r => Some (if R_ltb r 0 then (- Int_part (- r))%Z else Int_part r)
  | _ => None
  end.

(** The attribute [n_bins_1d] computed by [__init__] from the number of
    weights. *)
Definition n_bins_1d (n_bins : nat) : option Z :=
  int_of_float
    (Fin (-1) / Fin 2 + fsqrt (Fin 1 / Fin 4 + Fin 2 * of_nat n_bins))%fl.

(** [compute_flat_position], on the arrays of the two grid indices. *)
Definition compute_flat_position (n_bins_1d : Z)
    (position_in_grid : array * array) : array :=
  let flat_position_in_square :=
    map2 fadd (fst position_in_grid)
         (map (fun j => Fin (IZR n_bins_1d) * j)%fl (snd position_in_grid)) in
  let subtract_triangle_constraint :=
    map (fun j => j * (j + Fin 1) / Fin 2)%fl (snd position_in_grid) in
  map2 fsub flat_position_in_square subtract_triangle_constraint.

End piecewise_constant_2d_distribution_normalized.

End priors.

(** ** Stages of one evaluation of the likelihood *)

Module stages.
Import likelihood.

Section stages.

Context {RateModel Params InjectionSet PosteriorSampleSet : Type}.
Context `{RM : RateModelI RateModel Params}.
Context `{INJ : InjectionSetI InjectionSet RateModel}.
Context `{PS : PosteriorSampleSetI PosteriorSampleSet RateModel}.

Local Abbreviation evaluator :=
  (@hierarchical_likelihood RateModel Params InjectionSet PosteriorSampleSet).

(** [Neff], as [injections.effective_injections_number()] returns it after
    the weights are updated. *)
Definition Neff_of (hl : evaluator) : float :=
  effective_injections_number (injections (injections_weighted hl)).

(** The per-event array [neff_PE_ev]. *)
Definition neff_PE_of (hl : evaluator) : array :=
  get_effective_number_of_PE
    (posterior_samples_dict (posterior_weighted (injections_weighted hl))).

(** The likelihood-variance diagnostic of the evaluation. *)
Definition variance_diag (hl : evaluator) : float :=
  variance_of (posterior_weighted (injections_weighted hl))
              (Neff_of hl) (neff_PE_of hl).

(** The evaluator once all updates are done and the variance is stored. *)
Definition evaluated (hl : evaluator) : evaluator :=
  set_likelihood_variance (posterior_weighted (injections_weighted hl))
                          (variance_diag hl).

(** The three rejection tests, in the order the code makes them. *)
Definition gate_INJ (hl : evaluator) : bool :=
  ((Neff_of hl <? neffINJ hl) || (Neff_of hl ==? Fin 0))%fl.

Definition gate_PE (hl : evaluator) : bool :=
  existsb (fun v => (v <? neffPE hl)%fl) (neff_PE_of hl).

Definition gate_variance (hl : evaluator) : bool :=
  match likelihood_variance_thr hl with
  | Some thr => (variance_diag hl >? thr)%fl
  | None => false
  end.

Definition no_gate_fires (hl : evaluator) : bool :=
  negb (gate_INJ hl) && negb (gate_PE hl) && negb (gate_variance hl).

(** The combination as the specification words it, from the values the
    collaborators hold. *)
Definition log_likeli_spec (scale_free_model : bool)
    (sum_weights_per_event : array) (n_events : nat)
    (pseudo_rate_value N_expected T_obs : float) : float :=
  if scale_free_model
  then (fsum (map flog sum_weights_per_event)
        - of_nat n_events * flog pseudo_rate_value)%fl
  else (- N_expected + of_nat n_events * flog T_obs
        + fsum (map flog sum_weights_per_event))%fl.

End stages.
End stages.

(** ** A small population of collaborators

    Objects that hold the values the evaluator reads; updating them leaves
    them unchanged.  They serve as concrete inputs. *)

Module fixtures.
Import likelihood.

Record rate : Type := mk_rate { rate_scale_free : bool }.

Record inj : Type := mk_inj {
  inj_Neff : float;
  inj_Nexp : float;
  inj_pseudo_rate : float;
  inj_Tobs : float;
  inj_ntotal : float
}.

Record post : Type := mk_post {
  post_neff : array;
  post_Ns : array;
  post_sum_weights : array
}.

#[export] Instance rate_model : RateModelI rate unit := {
  rate_update r _ := r;
  scale_free := rate_scale_free
}.

#[export] Instance injection_set : InjectionSetI inj rate := {
  inj_update_weights i _ := i;
  effective_injections_number := inj_Neff;
  expected_number_detections := inj_Nexp;
  pseudo_rate := inj_pseudo_rate;
  Tobs := inj_Tobs;
  ntotal := inj_ntotal
}.

#[export] Instance posterior_set : PosteriorSampleSetI post rate := {
  build_parallel_posterior p _ := p;
  ps_update_weights p _ := p;
  get_effective_number_of_PE := post_neff;
  n_ev p := length (post_sum_weights p);
  Ns_array := post_Ns;
  sum_weights := post_sum_weights
}.

(** One event with 50 effective posterior samples out of 100, and
    injections with the given effective number out of 1000. *)
Definition one_event : post :=
  mk_post [Fin 50] [Fin 100] [Fin 1].

Definition no_event : post := mk_post [] [] [].

Definition injections_with (Neff : float) : inj :=
  mk_inj Neff (Fin 1) (Fin 1) (Fin 1) (Fin 1000).

(** Evaluators built by the constructor. *)
Definition with_neffINJ (Neff neffINJ : float)
  : hierarchical_likelihood :=
  init one_event (injections_with Neff) (mk_rate true) None (Fin 20)
       (Some neffINJ) None tt.

Definition with_variance_thr (p : post) (Neff thr : float)
  : hierarchical_likelihood :=
  init p (injections_with Neff) (mk_rate true) None (Fin 20) None
       (Some thr) tt.

Definition with_sum_weights (w : float) : hierarchical_likelihood :=
  init (mk_post [Fin 50] [Fin 100] [w]) (injections_with (Fin 100))
       (mk_rate true) None (Fin 20) None None tt.

End fixtures.

(** ** Entry-wise readings of the array code

    A function on arrays acts entry by entry when it maps a function on
    floats over its argument; numpy's universal functions, comparisons and
    mask assignments all do.  The definitions below are the readings on one
    entry that the properties are stated with. *)

Module entrywise.
Import priors.

Definition acts_as (f : array -> option array) (k : float -> float) : Prop :=
  forall x, f x = Some (map k x).

(** A distribution whose two methods act entry by entry. *)
Definition vectorised (p : basic_1dimpdf) : Prop :=
  (exists k, acts_as (_log_pdf p) k) /\ (exists k, acts_as (_log_cdf p) k).

(** The value of an array method on the one-entry array [[x]]. *)
Definition at_point (f : array -> option array) (x : float) : float :=
  match f [x] with
  | Some (v :: _) => v
  | _ => NaN
  end.

(** The window of [_highpass_filter] on one entry, the later assignments
    taking precedence. *)
Definition highpass_at (mmin delta_m m : float) : float :=
  if (delta_m ==? Fin 0)%fl then Fin 1
  else if (m >=? delta_m + mmin)%fl then Fin 1
  else if (m <=? mmin)%fl then Fin 0
  else
    let effe_prime :=
      if ((m >? mmin) && (m <? delta_m + mmin))%fl
      then fexp (nan_to_num
                   (delta_m / (m - mmin) + delta_m / (m - mmin - delta_m))%fl)
      else Fin 1 in
    (Fin 1 / (effe_prime + Fin 1))%fl.

(** The bound masks of [basic_1dimpdf] on one entry. *)
Definition bound_pdf_at (minval maxval x y : float) : float :=
  if ((x <? minval) || (x >? maxval))%fl then NInf else y.

Definition bound_cdf_at (minval maxval x y : float) : float :=
  if (x >? maxval)%fl then Fin 0
  else if (x <? minval)%fl then NInf else y.

(** The cumulative distribution of [LowpassSmoothedProb._log_cdf] on one
    entry, before the logarithm; the later assignments take precedence. *)
Definition lowpass_cdf_at (self : LowpassSmoothedProb.t) (x : float) : float :=
  let bottom := LowpassSmoothedProb.bottom self in
  let edge := (bottom + LowpassSmoothedProb.bottom_smooth self)%fl in
  let origin_cdf := at_point (cdf (LowpassSmoothedProb.origin_prob self)) in
  if (x >=? edge)%fl
  then ((LowpassSmoothedProb.integral_now self + origin_cdf x
         - origin_cdf edge) / LowpassSmoothedProb.norm self)%fl
  else if ((x >=? bottom) && (x <=? edge))%fl
       then interp1 (LowpassSmoothedProb.midpoints
                       (LowpassSmoothedProb.x_eval self))
                    (LowpassSmoothedProb.cdf_numeric self) x
       else if (x <? bottom)%fl then Fin 0 else Fin 1.

(** The window of [_lowpass_filter] on one entry. *)
Definition lowpass_at (mmax delta_max m : float) : float :=
  if (delta_max ==? Fin 0)%fl then Fin 1
  else if (m <=? mmax - delta_max)%fl then Fin 1
  else if (m >=? mmax)%fl then Fin 0
  else
    let effe_prime :=
      if ((m <? mmax) && (m >? mmax - delta_max))%fl
      then fexp (nan_to_num
                   (delta_max / (mmax - m)
                    + delta_max / (mmax - m - delta_max))%fl)
      else Fin 1 in
    (Fin 1 / (effe_prime + Fin 1))%fl.

(** The real number a finite float stands for. *)
Definition to_R (a : float) : R :=
  match a with Fin r => r | _ => 0 end.

(** The integral of [t ^ alpha] over [[lo, x]], for [0 < lo] and [0 < x]:
    what [PL_normfact lo x alpha] computes. *)
Definition PL_area (lo x alpha : R) : R :=
  if Req_dec_T alpha (-1) then ln (x / lo)
  else (Rpower x (alpha + 1) - Rpower lo (alpha + 1)) / (alpha + 1).

(** The distribution function of the power law on [[lo, hi]], as a function
    on the reals. *)
Definition PL_cdf (lo hi alpha x : R) : R :=
  if Rlt_dec x lo then 0
  else if Rlt_dec hi x then 1
  else PL_area lo x alpha / PL_area lo hi alpha.

End entrywise.

(** * Properties *)

(** ** Comparisons of reals *)

Lemma R_ltb_true (x y : R) : x < y -> R_ltb x y = true.
Proof. intros H. unfold R_ltb. destruct (Rlt_dec x y); [reflexivity | contradiction]. Qed.

Lemma R_ltb_false (x y : R) : ~ x < y -> R_ltb x y = false.
Proof. intros H. unfold R_ltb. destruct (Rlt_dec x y); [contradiction | reflexivity]. Qed.

Lemma R_eqb_true (x y : R) : x = y -> R_eqb x y = true.
Proof. intros H. unfold R_eqb. destruct (Req_dec_T x y); [reflexivity | contradiction]. Qed.

Lemma R_eqb_false (x y : R) : x <> y -> R_eqb x y = false.
Proof. intros H. unfold R_eqb. destruct (Req_dec_T x y); [contradiction | reflexivity]. Qed.

Lemma R_ltb_spec (x y : R) : R_ltb x y = true <-> x < y.
Proof. unfold R_ltb. destruct (Rlt_dec x y); split; intros; try easy. Qed.

Lemma R_eqb_spec (x y : R) : R_eqb x y = true <-> x = y.
Proof. unfold R_eqb. destruct (Req_dec_T x y); split; intros; try easy. Qed.

(** Decide the comparisons of reals that occur in the goal. *)
Ltac rdecide :=
  repeat match goal with
    | |- context [R_ltb ?a ?b] =>
        first [ rewrite (R_ltb_true a b) by lra
              | rewrite (R_ltb_false a b) by lra ]
    | |- context [R_eqb ?a ?b] =>
        first [ rewrite (R_eqb_true a b) by lra
              | rewrite (R_eqb_false a b) by lra ]
    end.

Lemma DBL_MAX_pos : 0 < DBL_MAX.
Proof.
  unfold DBL_MAX.
  apply Rmult_lt_0_compat.
  - assert (H : 1 <= 2 ^ 52) by (apply pow_R1_Rle; lra).
    assert (H' : / 2 ^ 52 <= 1).
    { rewrite <- Rinv_1. apply Rinv_le_contravar; lra. }
    lra.
  - apply pow_lt; lra.
Qed.

(** ** Powers *)

Lemma Int_part_IZR (z : Z) : Int_part (IZR z) = z.
Proof. symmetry. apply Int_part_spec. lra. Qed.

Lemma isint_IZR (z : Z) : isint (IZR z) = true.
Proof. unfold isint. rewrite Int_part_IZR. apply R_eqb_true. reflexivity. Qed.

Lemma Rpower_2 (x : R) : 0 < x -> Rpower x 2 = x * x.
Proof.
  intros H. change 2 with (INR 2). rewrite Rpower_pow by assumption.
  simpl. ring.
Qed.

Lemma Rpower_m1 (x : R) : 0 < x -> Rpower x (-1) = / x.
Proof.
  intros H. replace (-1) with (Ropp 1) by lra.
  rewrite Rpower_Ropp, Rpower_1 by assumption. reflexivity.
Qed.

(** [power(x, 2.)] is the square, whatever the sign of [x]. *)
Lemma fpow_2 (x : R) : fpow (Fin x) (Fin 2) = Fin (x * x).
Proof.
  unfold fpow, Rpow. rewrite (R_eqb_false 2 0) by lra.
  destruct (Rlt_dec 0 x) as [Hp | Hn].
  - rewrite (R_ltb_true 0 x) by assumption. now rewrite Rpower_2.
  - rewrite (R_ltb_false 0 x) by assumption.
    destruct (Req_dec_T x 0) as [-> | Hz].
    + rewrite R_eqb_true by reflexivity. rewrite R_ltb_true by lra.
      f_equal. ring.
    + rewrite R_eqb_false by assumption.
      rewrite (isint_IZR 2), (Int_part_IZR 2). simpl.
      rewrite Rpower_2 by lra. f_equal. ring.
Qed.

(** [power(x, -1.)] is the inverse of a nonzero [x]. *)
Lemma fpow_m1 (x : R) : x <> 0 -> fpow (Fin x) (Fin (-1)) = Fin (/ x).
Proof.
  intros Hz. unfold fpow, Rpow. rewrite (R_eqb_false (-1) 0) by lra.
  destruct (Rlt_dec 0 x) as [Hp | Hn].
  - rewrite (R_ltb_true 0 x) by assumption. now rewrite Rpower_m1.
  - rewrite (R_ltb_false 0 x) by assumption.
    rewrite R_eqb_false by assumption.
    rewrite (isint_IZR (-1)), (Int_part_IZR (-1)). simpl.
    rewrite Rpower_m1 by lra. f_equal. field. lra.
Qed.

(** A positive base: [power(x, y) = exp (y ln x)]. *)
Lemma fpow_pos (x y : R) : 0 < x -> fpow (Fin x) (Fin y) = Fin (Rpower x y).
Proof.
  intros H. unfold fpow, Rpow.
  destruct (Req_dec_T y 0) as [-> | Hy].
  - rewrite R_eqb_true by reflexivity. now rewrite Rpower_O.
  - rewrite R_eqb_false by assumption. now rewrite R_ltb_true.
Qed.

(** ** The hierarchical likelihood *)

Section likelihood_properties.
Import likelihood stages.

Context {RateModel Params InjectionSet PosteriorSampleSet : Type}.
Context `{RM : RateModelI RateModel Params}.
Context `{INJ : InjectionSetI InjectionSet RateModel}.
Context `{PS : PosteriorSampleSetI PosteriorSampleSet RateModel}.

Local Abbreviation evaluator :=
  (@hierarchical_likelihood RateModel Params InjectionSet PosteriorSampleSet).

(** The value returned on rejection is the most negative finite float. *)
Lemma rejected_value : rejected = Fin (- DBL_MAX).
Proof. reflexivity. Qed.

Lemma rejected_not_infinite : rejected <> NInf.
Proof. discriminate. Qed.

(** [log_likelihood], stage by stage. *)
Lemma log_likelihood_stages (hl : evaluator) :
  log_likelihood hl =
  if gate_INJ hl then (Returned rejected, injections_weighted hl)
  else if gate_PE hl
       then (Returned rejected, posterior_weighted (injections_weighted hl))
       else if gate_variance hl then (Returned rejected, evaluated hl)
            else (sanitize (combine (evaluated hl)), evaluated hl).
Proof. reflexivity. Qed.

Lemma log_likelihood_no_gate (hl : evaluator) :
  no_gate_fires hl = true ->
  log_likelihood hl = (sanitize (combine (evaluated hl)), evaluated hl).
Proof.
  unfold no_gate_fires. intros H.
  apply andb_true_iff in H as [H Hv]. apply andb_true_iff in H as [Hi Hp].
  apply negb_true_iff in Hi, Hp, Hv.
  rewrite log_likelihood_stages, Hi, Hp, Hv. reflexivity.
Qed.

Lemma log_likelihood_gate (hl : evaluator) :
  no_gate_fires hl = false -> fst (log_likelihood hl) = Returned rejected.
Proof.
  unfold no_gate_fires. intros H. rewrite log_likelihood_stages.
  destruct (gate_INJ hl); [reflexivity|].
  destruct (gate_PE hl); [reflexivity|].
  destruct (gate_variance hl); [reflexivity | discriminate].
Qed.

Lemma sanitize_cases (v : float) :
  sanitize v =
  match v with
  | PInf => Raised ValueError
  | NaN | NInf => Returned (Fin (- DBL_MAX))
  | Fin r => Returned (Fin r)
  end.
Proof. destruct v; reflexivity. Qed.

(** C1, as the code has it: whenever [Neff < neffINJ] or [Neff == 0],
    [log_likelihood] returns (it does not raise) the value
    [float(nan_to_num(-inf))], which
    is the most negative finite float [-DBL_MAX] and not [-inf]; the
    collaborators keep their updated weights.  In particular an evaluator
    constructed without a variance threshold and with [neffINJ = n] returns
    that value whenever [Neff < n]. *)
Theorem log_likelihood_rejects_low_Neff (hl : evaluator) :
  (Neff_of hl <? neffINJ hl)%fl = true \/ (Neff_of hl ==? Fin 0)%fl = true ->
  log_likelihood hl = (Returned (Fin (- DBL_MAX)), injections_weighted hl)
  /\ forall (psd : PosteriorSampleSet) (inj : InjectionSet) (rm : RateModel)
            npar nPE n params,
       hl = init psd inj rm npar nPE (Some n) None params ->
       neffINJ hl = n.
Proof.
  intros H. split.
  - rewrite log_likelihood_stages. unfold gate_INJ.
    destruct H as [H | H]; rewrite H; [reflexivity|].
    rewrite orb_true_r. reflexivity.
  - intros. subst hl. reflexivity.
Qed.

(** What the constructor stores in the two modes. *)
Lemma init_variance_mode (psd : PosteriorSampleSet) (inj : InjectionSet)
    (rm : RateModel) (npar : option nat) (nPE : float) (nINJ : option float)
    (thr : float) (params : Params) :
  let hl := init psd inj rm npar nPE nINJ (Some thr) params in
  neffPE hl = Fin (-1) /\ neffINJ hl = Fin (-1)
  /\ likelihood_variance_thr hl = Some thr.
Proof. repeat split. Qed.

Lemma init_neff_mode (psd : PosteriorSampleSet) (inj : InjectionSet)
    (rm : RateModel) (npar : option nat) (nPE : float) (nINJ : option float)
    (params : Params) :
  let hl := init psd inj rm npar nPE nINJ None params in
  neffPE hl = nPE /\ likelihood_variance_thr hl = None
  /\ neffINJ hl =
     match nINJ with
     | Some n => n
     | None => (Fin 4 * of_nat (n_ev (build_parallel_posterior psd npar)))%fl
     end.
Proof. destruct nINJ; repeat split. Qed.

(** C2, as the code has it: an evaluator constructed with a variance
    threshold stores [-1] for both [neffPE] and [neffINJ].  The tests on
    [Neff] and [neff_PE_ev] are still made against these values (and
    [Neff == 0] still rejects); when they pass, that is when [Neff] is
    neither below [-1] nor zero and no [neff_PE_ev] entry is below [-1],
    the call returns the rejection value [-DBL_MAX] if the variance
    diagnostic exceeds the threshold, and the sanitized combination
    otherwise. *)
Theorem log_likelihood_variance_mode (psd : PosteriorSampleSet) (inj : InjectionSet)
    (rm : RateModel) (npar : option nat) (nPE : float) (nINJ : option float)
    (thr : float) (params : Params) :
  let hl := init psd inj rm npar nPE nINJ (Some thr) params in
  (Neff_of hl <? Fin (-1))%fl = false ->
  (Neff_of hl ==? Fin 0)%fl = false ->
  existsb (fun v => (v <? Fin (-1))%fl) (neff_PE_of hl) = false ->
  neffPE hl = Fin (-1) /\ neffINJ hl = Fin (-1)
  /\ ((variance_diag hl >? thr)%fl = true ->
      log_likelihood hl = (Returned (Fin (- DBL_MAX)), evaluated hl))
  /\ ((variance_diag hl >? thr)%fl = false ->
      log_likelihood hl = (sanitize (combine (evaluated hl)), evaluated hl)).
Proof.
  intros hl Hlt Hz Hpe.
  assert (Hi : gate_INJ hl = false).
  { unfold gate_INJ. change (neffINJ hl) with (Fin (-1)). now rewrite Hlt, Hz. }
  assert (Hp : gate_PE hl = false) by exact Hpe.
  repeat split.
  - intros Hv. rewrite log_likelihood_stages, Hi, Hp.
    unfold gate_variance. change (likelihood_variance_thr hl) with (Some thr).
    cbv iota. now rewrite Hv.
  - intros Hv. rewrite log_likelihood_stages, Hi, Hp.
    unfold gate_variance. change (likelihood_variance_thr hl) with (Some thr).
    cbv iota. now rewrite Hv.
Qed.

(** C3, as the code has it: [log_likelihood] raises exactly when no gate
    fires and the combined log-likelihood is [+inf]; when no gate fires, a
    [nan] and a [-inf] combination are both returned as the most negative
    finite float [-DBL_MAX], and a finite combination is returned as it is;
    when a gate fires the call returns [-DBL_MAX]. *)
Theorem log_likelihood_outcome (hl : evaluator) :
  fst (log_likelihood hl) =
    (if no_gate_fires hl
     then match combine (evaluated hl) with
          | PInf => Raised ValueError
          | NaN | NInf => Returned (Fin (- DBL_MAX))
          | Fin r => Returned (Fin r)
          end
     else Returned (Fin (- DBL_MAX)))
  /\ (fst (log_likelihood hl) = Raised ValueError
      <-> no_gate_fires hl = true /\ combine (evaluated hl) = PInf).
Proof.
  destruct (no_gate_fires hl) eqn:G.
  - rewrite (log_likelihood_no_gate hl G). cbn [fst].
    rewrite sanitize_cases. split; [reflexivity|].
    destruct (combine (evaluated hl)); split;
      (discriminate || intuition congruence).
  - rewrite (log_likelihood_gate hl G). split; [reflexivity|].
    split; [discriminate | intros [? _]; discriminate].
Qed.

(** C4: when no rejection gate fires, the value that is sanitized and
    returned is the combination the specification gives, read from the
    collaborators after their updates: for a scale-free rate model
    [sum (log sum_weights) - n_ev * log pseudo_rate], otherwise
    [- Nexp + n_ev * log Tobs + sum (log sum_weights)] with [Nexp] from
    [expected_number_detections()]. *)
Theorem log_likelihood_combination (hl : evaluator) :
  no_gate_fires hl = true ->
  let rm := rate_update (rate_model hl) (parameters hl) in
  let inj := inj_update_weights (injections hl) rm in
  let psd := ps_update_weights (posterior_samples_dict hl) rm in
  let log_likeli :=
    log_likeli_spec (scale_free rm) (sum_weights psd) (n_ev psd)
                    (pseudo_rate inj) (expected_number_detections inj)
                    (Tobs inj) in
  combine (evaluated hl) = log_likeli
  /\ fst (log_likelihood hl) = sanitize log_likeli.
Proof.
  intros G rm inj psd log_likeli.
  rewrite (log_likelihood_no_gate hl G). cbn [fst].
  assert (E : combine (evaluated hl) = log_likeli).
  { unfold combine, log_likeli, log_likeli_spec. cbn.
    fold rm. fold inj. fold psd. destruct (scale_free rm); reflexivity. }
  rewrite E. split; reflexivity.
Qed.

End likelihood_properties.

(** *** Concrete evaluations *)

Section likelihood_examples.
Import likelihood stages fixtures.

(** Five effective injections against a required thousand. *)
Lemma log_likelihood_rejects_low_Neff_witness :
  let hl := with_neffINJ (Fin 5) (Fin 1000) in
  ((Neff_of hl <? neffINJ hl)%fl = true \/ (Neff_of hl ==? Fin 0)%fl = true)
  /\ fst (log_likelihood hl) = Returned (Fin (- DBL_MAX)).
Proof.
  intros hl.
  assert (H : (Neff_of hl <? neffINJ hl)%fl = true
              \/ (Neff_of hl ==? Fin 0)%fl = true).
  { left. cbn. apply R_ltb_true. lra. }
  split; [exact H|].
  rewrite (proj1 (log_likelihood_rejects_low_Neff hl H)). reflexivity.
Defined.

(** C1 as stated fails: with [Neff = 5 < neffINJ = 1000] the call returns a
    finite float, not [-inf]. *)
Lemma low_Neff_returns_finite_value :
  let hl := with_neffINJ (Fin 5) (Fin 1000) in
  (Neff_of hl <? neffINJ hl)%fl = true
  /\ fst (log_likelihood hl) = Returned (Fin (- DBL_MAX))
  /\ fst (log_likelihood hl) <> Returned NInf.
Proof.
  intros hl.
  assert (H : (Neff_of hl <? neffINJ hl)%fl = true).
  { cbn. apply R_ltb_true. lra. }
  assert (E : fst (log_likelihood hl) = Returned (Fin (- DBL_MAX))).
  { rewrite log_likelihood_stages. unfold gate_INJ. rewrite H. reflexivity. }
  repeat split; [exact H | exact E | rewrite E; discriminate].
Qed.

(** Half an effective injection, one event: the diagnostic is 2.009. *)
Lemma half_Neff_variance :
  variance_diag (with_variance_thr one_event (Fin (1 / 2)) (Fin 1))
  = Fin (2009 / 1000).
Proof.
  unfold variance_diag, variance_of. cbn -[fpow]. unfold of_nat.
  rewrite fpow_2, fpow_m1 by lra. rdecide. cbn. rdecide. cbn. rdecide.
  f_equal. field.
Qed.

Lemma log_likelihood_variance_mode_witness :
  let hl := with_variance_thr one_event (Fin (1 / 2)) (Fin 1) in
  (Neff_of hl <? Fin (-1))%fl = false
  /\ (Neff_of hl ==? Fin 0)%fl = false
  /\ existsb (fun v => (v <? Fin (-1))%fl) (neff_PE_of hl) = false
  /\ neffPE hl = Fin (-1) /\ neffINJ hl = Fin (-1).
Proof.
  intros hl.
  assert (H1 : (Neff_of hl <? Fin (-1))%fl = false).
  { cbn. apply R_ltb_false. lra. }
  assert (H2 : (Neff_of hl ==? Fin 0)%fl = false).
  { cbn. apply R_eqb_false. lra. }
  assert (H3 : existsb (fun v => (v <? Fin (-1))%fl) (neff_PE_of hl) = false).
  { cbn. rewrite R_ltb_false by lra. reflexivity. }
  pose proof (log_likelihood_variance_mode one_event
                (injections_with (Fin (1 / 2))) (mk_rate true) None (Fin 20)
                None (Fin 1) tt H1 H2 H3) as [A [B _]].
  repeat split; assumption.
Defined.

(** C2 as stated fails twice.  With a diagnostic of 2.009 above the
    threshold 1 the call returns a finite float, not [-inf].  And with no
    event and [Neff = 0] the diagnostic is [nan], which does not exceed the
    threshold, yet the test [Neff == 0] rejects, where the combination
    would have been [0]. *)
Lemma variance_mode_still_tests_Neff :
  let hl1 := with_variance_thr one_event (Fin (1 / 2)) (Fin 1) in
  let hl2 := with_variance_thr no_event (Fin 0) (Fin 1) in
  ((variance_diag hl1 >? Fin 1)%fl = true
   /\ fst (log_likelihood hl1) <> Returned NInf)
  /\ ((variance_diag hl2 >? Fin 1)%fl = false
      /\ fst (log_likelihood hl2) = Returned (Fin (- DBL_MAX))
      /\ sanitize (combine (evaluated hl2)) = Returned (Fin 0)).
Proof.
  intros hl1 hl2. split; [split | repeat split].
  - unfold hl1. rewrite half_Neff_variance. cbn. apply R_ltb_true. lra.
  - rewrite log_likelihood_stages.
    assert (Hi : gate_INJ hl1 = false).
    { unfold gate_INJ. cbn. rdecide. reflexivity. }
    assert (Hp : gate_PE hl1 = false).
    { unfold gate_PE. cbn. rdecide. reflexivity. }
    assert (Hv : gate_variance hl1 = true).
    { unfold gate_variance.
      change (likelihood_variance_thr hl1) with (Some (Fin 1)). cbv iota.
      unfold hl1. rewrite half_Neff_variance. cbn. apply R_ltb_true. lra. }
    rewrite Hi, Hp, Hv. cbn. discriminate.
  - unfold variance_diag, variance_of. cbn -[fpow]. unfold of_nat.
    rewrite fpow_2. cbn. rdecide. unfold signed_inf. rdecide. reflexivity.
  - rewrite log_likelihood_stages.
    assert (Hi : gate_INJ hl2 = true).
    { unfold gate_INJ. cbn. rdecide. reflexivity. }
    rewrite Hi. reflexivity.
  - unfold sanitize, combine. cbn. rdecide. cbn.
    do 2 f_equal. ring.
Qed.

(** C3 as stated fails: a [nan] combination (the logarithm of a negative
    weight sum) and a [-inf] combination (the logarithm of a zero weight
    sum) are both returned as the finite float [-DBL_MAX]: the first is not
    mapped to [-inf], the second is not returned as it is. *)
Lemma nan_and_minus_infinity_become_finite :
  let hl1 := with_sum_weights (Fin (-1)) in
  let hl2 := with_sum_weights (Fin 0) in
  (no_gate_fires hl1 = true /\ combine (evaluated hl1) = NaN
   /\ fst (log_likelihood hl1) = Returned (Fin (- DBL_MAX))
   /\ fst (log_likelihood hl1) <> Returned NInf)
  /\ (no_gate_fires hl2 = true /\ combine (evaluated hl2) = NInf
      /\ fst (log_likelihood hl2) = Returned (Fin (- DBL_MAX))
      /\ fst (log_likelihood hl2) <> Returned NInf).
Proof.
  intros hl1 hl2.
  assert (G1 : no_gate_fires hl1 = true).
  { unfold no_gate_fires, gate_INJ, gate_PE, gate_variance. cbn. rdecide.
    reflexivity. }
  assert (G2 : no_gate_fires hl2 = true).
  { unfold no_gate_fires, gate_INJ, gate_PE, gate_variance. cbn. rdecide.
    reflexivity. }
  assert (C1 : combine (evaluated hl1) = NaN).
  { unfold combine. cbn. rdecide. reflexivity. }
  assert (C2 : combine (evaluated hl2) = NInf).
  { unfold combine. cbn. rdecide. reflexivity. }
  assert (E1 : fst (log_likelihood hl1) = Returned (Fin (- DBL_MAX))).
  { rewrite (log_likelihood_no_gate hl1 G1). cbn [fst]. now rewrite C1. }
  assert (E2 : fst (log_likelihood hl2) = Returned (Fin (- DBL_MAX))).
  { rewrite (log_likelihood_no_gate hl2 G2). cbn [fst]. now rewrite C2. }
  repeat split; try assumption.
  - rewrite E1. discriminate.
  - rewrite E2. discriminate.
Qed.

(** One event of weight sum 1, a hundred effective injections. *)
Lemma log_likelihood_combination_witness :
  let hl := with_sum_weights (Fin 1) in
  no_gate_fires hl = true
  /\ fst (log_likelihood hl)
     = sanitize (log_likeli_spec true [Fin 1] 1 (Fin 1) (Fin 1) (Fin 1)).
Proof.
  intros hl.
  assert (G : no_gate_fires hl = true).
  { unfold no_gate_fires, gate_INJ, gate_PE, gate_variance. cbn. rdecide.
    reflexivity. }
  split; [exact G|].
  exact (proj2 (log_likelihood_combination hl G)).
Defined.

End likelihood_examples.

(** ** Arrays and masks *)

Section array_properties.
Import priors entrywise.

Lemma map2_map {A B C D} (f : B -> C -> D) (g : A -> B) (h : A -> C)
    (x : list A) :
  map2 f (map g x) (map h x) = map (fun xi => f (g xi) (h xi)) x.
Proof. induction x as [|xi x IH]; simpl; [reflexivity | now rewrite IH]. Qed.

Lemma map2_length {A B C} (f : A -> B -> C) (a : list A) (b : list B) :
  length a = length b -> length (map2 f a b) = length a.
Proof.
  revert b. induction a as [|x a IH]; intros [|y b] H; simpl in *;
    try reflexivity; try discriminate.
  f_equal. apply IH. now injection H.
Qed.

Lemma select_map (g : float -> float) (m : float -> bool) (x : array) :
  select (map g x) (map m x) = map g (filter m x).
Proof.
  induction x as [|xi x IH]; simpl; [reflexivity|].
  destruct (m xi); simpl; now rewrite IH.
Qed.

Lemma count_true_map (m : float -> bool) (x : array) :
  count_true (map m x) = length (filter m x).
Proof.
  unfold count_true. induction x as [|xi x IH]; simpl; [reflexivity|].
  destruct (m xi); simpl; now rewrite IH.
Qed.

Lemma scatter_map (k h : float -> float) (m : float -> bool) (x : array) :
  scatter (map k x) (map m x) (map h (filter m x))
  = map (fun xi => if m xi then h xi else k xi) x.
Proof.
  induction x as [|xi x IH]; simpl; [reflexivity|].
  destruct (m xi); simpl; now rewrite IH.
Qed.

(** Indexing by a mask computed from the array itself never raises. *)
Lemma getitem_mask_map (g : float -> float) (m : float -> bool) (x : array) :
  getitem_mask (map g x) (map m x) = Some (map g (filter m x)).
Proof.
  unfold getitem_mask. rewrite !length_map, Nat.eqb_refl.
  now rewrite select_map.
Qed.

Lemma setitem_mask_map (k : float -> float) (m : float -> bool) (v : float)
    (x : array) :
  setitem_mask (map k x) (map m x) v
  = Some (map (fun xi => if m xi then v else k xi) x).
Proof.
  unfold setitem_mask. rewrite !length_map, Nat.eqb_refl.
  now rewrite map2_map.
Qed.

Lemma setitem_mask_array_map (k h : float -> float) (m : float -> bool)
    (x : array) :
  setitem_mask_array (map k x) (map m x) (map h (filter m x))
  = Some (map (fun xi => if m xi then h xi else k xi) x).
Proof.
  unfold setitem_mask_array.
  rewrite !length_map, Nat.eqb_refl, count_true_map, Nat.eqb_refl. simpl.
  now rewrite scatter_map.
Qed.

(** Assignment through a mask of the shape of [y]. *)
Lemma setitem_mask_same_length (y : array) (mask : list bool) (v : float) :
  length mask = length y ->
  setitem_mask y mask v
  = Some (map2 (fun (m : bool) yi => if m then v else yi) mask y).
Proof.
  intros H. unfold setitem_mask. rewrite H, Nat.eqb_refl. reflexivity.
Qed.

Lemma nth_error_map2 {A B C} (f : A -> B -> C) (a : list A) (b : list B)
    (i : nat) (x : A) (y : B) :
  nth_error a i = Some x -> nth_error b i = Some y ->
  nth_error (map2 f a b) i = Some (f x y).
Proof.
  revert a b. induction i as [|i IH]; intros [|x' a] [|y' b] Ha Hb;
    simpl in *; try discriminate.
  - congruence.
  - now apply IH.
Qed.

(** [_highpass_filter] never raises and acts entry by entry. *)
Lemma highpass_filter_entrywise (mmin delta_m : float) :
  acts_as (fun mass => _highpass_filter mass mmin delta_m)
          (highpass_at mmin delta_m).
Proof.
  intros mass. unfold _highpass_filter, highpass_at.
  destruct (delta_m ==? Fin 0)%fl; [reflexivity|].
  rewrite getitem_mask_map. cbn [bind].
  set (window := fun m => ((m >? mmin) && (m <? delta_m + mmin))%fl).
  set (effe := fun m => fexp (nan_to_num
                (delta_m / (m - mmin) + delta_m / (m - mmin - delta_m))%fl)).
  assert (E : map fexp
                (map nan_to_num
                   (map2 fadd
                      (map (fun v => (delta_m / v)%fl)
                         (map (fun m => (m - mmin)%fl) (filter window mass)))
                      (map (fun v => (delta_m / (v - delta_m))%fl)
                         (map (fun m => (m - mmin)%fl) (filter window mass)))))
              = map effe (filter window mass)).
  { rewrite map2_map, !map_map. reflexivity. }
  rewrite E. unfold ones_like.
  rewrite (setitem_mask_array_map (fun _ => Fin 1) effe window).
  cbn [bind]. rewrite map_map.
  rewrite setitem_mask_map. cbn [bind].
  rewrite setitem_mask_map. cbn [bind].
  reflexivity.
Qed.

End array_properties.

(** ** Comparisons of floats *)

Lemma flt_Fin (a b : R) : (Fin a <? Fin b)%fl = true <-> a < b.
Proof. apply R_ltb_spec. Qed.

Lemma feqb_Fin (a b : R) : (Fin a ==? Fin b)%fl = true <-> a = b.
Proof. apply R_eqb_spec. Qed.

Lemma fle_Fin (a b : R) : (Fin a <=? Fin b)%fl = true <-> a <= b.
Proof.
  unfold fle. rewrite orb_true_iff, flt_Fin, feqb_Fin. lra.
Qed.

Lemma flt_Fin_false (a b : R) : (Fin a <? Fin b)%fl = false <-> b <= a.
Proof.
  rewrite <- not_true_iff_false, flt_Fin. lra.
Qed.

Lemma fle_Fin_false (a b : R) : (Fin a <=? Fin b)%fl = false <-> b < a.
Proof.
  rewrite <- not_true_iff_false, fle_Fin. lra.
Qed.

Lemma feqb_Fin_false (a b : R) : (Fin a ==? Fin b)%fl = false <-> a <> b.
Proof.
  rewrite <- not_true_iff_false, feqb_Fin. tauto.
Qed.

Lemma R_leb_spec (a b : R) : R_ltb a b || R_eqb a b = true <-> a <= b.
Proof. rewrite orb_true_iff, R_ltb_spec, R_eqb_spec. lra. Qed.

Lemma R_leb_false (a b : R) : R_ltb a b || R_eqb a b = false <-> b < a.
Proof. rewrite <- not_true_iff_false, R_leb_spec. lra. Qed.

Lemma R_ltb_false_iff (a b : R) : R_ltb a b = false <-> b <= a.
Proof. rewrite <- not_true_iff_false, R_ltb_spec. lra. Qed.

Lemma R_eqb_false_iff (a b : R) : R_eqb a b = false <-> a <> b.
Proof. rewrite <- not_true_iff_false, R_eqb_spec. tauto. Qed.

(** Turn the float comparisons of finite values, in the hypotheses and in
    the goal, into comparisons of reals. *)
Ltac fcompare :=
  unfold fge, fgt, fle, fsub in *;
  cbn [flt feqb fadd fneg] in *;
  repeat match goal with
    | H : R_ltb _ _ || R_eqb _ _ = true |- _ => apply R_leb_spec in H
    | H : R_ltb _ _ || R_eqb _ _ = false |- _ => apply R_leb_false in H
    | H : R_ltb _ _ = true |- _ => apply R_ltb_spec in H
    | H : R_ltb _ _ = false |- _ => apply R_ltb_false_iff in H
    | H : R_eqb _ _ = true |- _ => apply R_eqb_spec in H
    | H : R_eqb _ _ = false |- _ => apply R_eqb_false_iff in H
    | |- R_ltb _ _ || R_eqb _ _ = true => apply R_leb_spec
    | |- R_ltb _ _ || R_eqb _ _ = false => apply R_leb_false
    | |- R_ltb _ _ = true => apply R_ltb_spec
    | |- R_ltb _ _ = false => apply R_ltb_false_iff
    | |- R_eqb _ _ = true => apply R_eqb_spec
    | |- R_eqb _ _ = false => apply R_eqb_false_iff
    end.

(** ** The window function *)

Section window_properties.
Import priors entrywise.

Lemma nan_to_num_finite (v : float) : exists r, nan_to_num v = Fin r.
Proof. destruct v; simpl; eauto. Qed.

(** No entry of the window is [nan], whatever the arguments are. *)
Lemma highpass_at_finite (mmin delta_m m : float) :
  exists r, highpass_at mmin delta_m m = Fin r.
Proof.
  unfold highpass_at.
  destruct (delta_m ==? Fin 0)%fl; [eauto|].
  destruct (m >=? delta_m + mmin)%fl; [eauto|].
  destruct (m <=? mmin)%fl; [eauto|].
  assert (H : exists e, 0 < e /\
     (if ((m >? mmin) && (m <? delta_m + mmin))%fl
      then fexp (nan_to_num
                   (delta_m / (m - mmin) + delta_m / (m - mmin - delta_m))%fl)
      else Fin 1) = Fin e).
  { destruct ((m >? mmin) && (m <? delta_m + mmin))%fl.
    - destruct (nan_to_num_finite
                  (delta_m / (m - mmin) + delta_m / (m - mmin - delta_m))%fl)
        as [r ->].
      exists (exp r). split; [apply exp_pos | reflexivity].
    - exists 1. split; [lra | reflexivity]. }
  destruct H as [e [He ->]]. simpl.
  rewrite R_eqb_false by lra. eauto.
Qed.

Lemma highpass_at_zero_width (mmin m : float) :
  highpass_at mmin (Fin 0) m = Fin 1.
Proof. unfold highpass_at. simpl. now rewrite R_eqb_true. Qed.

Lemma highpass_at_below (mmin delta : R) (m : float) :
  0 < delta -> (m <=? Fin mmin)%fl = true ->
  highpass_at (Fin mmin) (Fin delta) m = Fin 0.
Proof.
  intros Hd Hm. unfold highpass_at.
  replace (Fin delta ==? Fin 0)%fl with false
    by (symmetry; fcompare; lra).
  rewrite Hm.
  replace (m >=? Fin delta + Fin mmin)%fl with false; [reflexivity|].
  symmetry. destruct m; cbn in *; try reflexivity; try discriminate.
  fcompare. lra.
Qed.

Lemma highpass_at_above (mmin delta : R) (m : float) :
  0 < delta -> (m >=? Fin mmin + Fin delta)%fl = true ->
  highpass_at (Fin mmin) (Fin delta) m = Fin 1.
Proof.
  intros Hd Hm. unfold highpass_at.
  replace (Fin delta ==? Fin 0)%fl with false
    by (symmetry; fcompare; lra).
  replace (m >=? Fin delta + Fin mmin)%fl with true; [reflexivity|].
  rewrite <- Hm. cbn [fadd]. now rewrite (Rplus_comm delta mmin).
Qed.

Lemma highpass_at_between (mmin delta : R) (m : float) :
  0 < delta ->
  (m >? Fin mmin)%fl = true -> (m <? Fin mmin + Fin delta)%fl = true ->
  highpass_at (Fin mmin) (Fin delta) m
  = (Fin 1 / (Fin 1 + fexp (Fin delta / (m - Fin mmin)
                            + Fin delta / (m - Fin mmin - Fin delta))))%fl.
Proof.
  intros Hd Hlo Hhi.
  destruct m as [x| | |]; cbn in Hlo, Hhi; try discriminate.
  fcompare. unfold highpass_at.
  replace (Fin delta ==? Fin 0)%fl with false
    by (symmetry; fcompare; lra).
  replace (Fin x >=? Fin delta + Fin mmin)%fl with false
    by (symmetry; fcompare; lra).
  replace (Fin x <=? Fin mmin)%fl with false
    by (symmetry; fcompare; lra).
  replace (Fin x >? Fin mmin)%fl with true
    by (symmetry; fcompare; lra).
  replace (Fin x <? Fin delta + Fin mmin)%fl with true
    by (symmetry; fcompare; lra).
  cbn. rewrite !R_eqb_false by lra. cbn.
  assert (He := exp_pos (delta / (x + - mmin) + delta / (x + - mmin + - delta))).
  rewrite !R_eqb_false by lra.
  f_equal. field. lra.
Qed.

(** C5: for a finite lower edge and a finite width [delta >= 0],
    [_highpass_filter] returns an array of the shape of its input whose
    entries are never [nan]; all of them are [1] when [delta = 0];
    otherwise an entry is [0] where [x <= min] and [1] where
    [x >= min + delta], the edges included, and
    [1/(1+exp(delta/(x-min) + delta/(x-min-delta)))] strictly between. *)
Theorem highpass_filter_window (mass : array) (mmin delta : R) :
  0 <= delta ->
  exists out,
    _highpass_filter mass (Fin mmin) (Fin delta) = Some out
    /\ length out = length mass
    /\ forall i x, nth_error mass i = Some x ->
       exists w, nth_error out i = Some w
         /\ w <> NaN
         /\ (delta = 0 -> w = Fin 1)
         /\ (0 < delta -> (x <=? Fin mmin)%fl = true -> w = Fin 0)
         /\ (0 < delta -> (x >=? Fin mmin + Fin delta)%fl = true ->
             w = Fin 1)
         /\ (0 < delta -> (x >? Fin mmin)%fl = true ->
             (x <? Fin mmin + Fin delta)%fl = true ->
             w = (Fin 1 / (Fin 1 + fexp (Fin delta / (x - Fin mmin)
                              + Fin delta / (x - Fin mmin - Fin delta))))%fl).
Proof.
  intros Hd.
  exists (map (highpass_at (Fin mmin) (Fin delta)) mass).
  split; [apply highpass_filter_entrywise|].
  split; [apply length_map|].
  intros i x Hx. exists (highpass_at (Fin mmin) (Fin delta) x).
  split; [now apply map_nth_error|].
  split.
  { destruct (highpass_at_finite (Fin mmin) (Fin delta) x) as [r ->].
    discriminate. }
  split; [intros ->; apply highpass_at_zero_width|].
  split; [apply highpass_at_below|].
  split; [apply highpass_at_above | apply highpass_at_between].
Qed.

Lemma highpass_filter_window_witness :
  0 <= 2
  /\ _highpass_filter [Fin 1; Fin 5; Fin 2] (Fin 1) (Fin 2)
     = Some [Fin 0; Fin 1;
             (Fin 1 / (Fin 1 + fexp (Fin 2 / (Fin 2 - Fin 1)
                              + Fin 2 / (Fin 2 - Fin 1 - Fin 2))))%fl].
Proof.
  assert (Hd : 0 <= 2) by lra.
  split; [exact Hd|].
  destruct (highpass_filter_window [Fin 1; Fin 5; Fin 2] 1 2 Hd)
    as [out [E [L P]]].
  rewrite E. f_equal.
  destruct out as [|w0 [|w1 [|w2 [|? ?]]]]; try discriminate L.
  destruct (P 0%nat (Fin 1) eq_refl) as [w [E0 [_ [_ [B0 _]]]]].
  destruct (P 1%nat (Fin 5) eq_refl) as [w' [E1 [_ [_ [_ [A1 _]]]]]].
  destruct (P 2%nat (Fin 2) eq_refl) as [w'' [E2 [_ [_ [_ [_ M2]]]]]].
  simpl in E0, E1, E2. injection E0 as <-. injection E1 as <-.
  injection E2 as <-.
  rewrite B0, A1, M2; try lra; try (fcompare; lra); try (simpl; fcompare; lra).
  reflexivity.
Defined.

End window_properties.

(** ** Bound masking of one-dimensional distributions *)

Section bound_properties.
Import priors entrywise.

Lemma nth_error_same_length {A B} (a : list A) (b : list B) (i : nat) (x : A) :
  length a = length b -> nth_error a i = Some x ->
  exists y, nth_error b i = Some y.
Proof.
  intros L H.
  assert (Hi : (i < length b)%nat).
  { rewrite <- L. apply nth_error_Some. congruence. }
  destruct (nth_error b i) as [y|] eqn:E; [eauto|].
  apply nth_error_None in E. lia.
Qed.

(** Masking a method that acts entry by entry. *)
Lemma log_pdf_entrywise (p : basic_1dimpdf) (k : float -> float) :
  acts_as (_log_pdf p) k ->
  acts_as (log_pdf p) (fun x => bound_pdf_at (minval p) (maxval p) x (k x)).
Proof.
  intros H x. unfold log_pdf. rewrite H. cbn [bind].
  unfold _check_bound_pdf, check_bounds_1D. now rewrite setitem_mask_map.
Qed.

Lemma log_cdf_entrywise (p : basic_1dimpdf) (k : float -> float) :
  acts_as (_log_cdf p) k ->
  acts_as (log_cdf p) (fun x => bound_cdf_at (minval p) (maxval p) x (k x)).
Proof.
  intros H x. unfold log_cdf. rewrite H. cbn [bind].
  unfold _check_bound_cdf. rewrite setitem_mask_map. cbn [bind].
  now rewrite setitem_mask_map.
Qed.

Lemma pdf_entrywise (p : basic_1dimpdf) (k : float -> float) :
  acts_as (_log_pdf p) k ->
  acts_as (pdf p)
          (fun x => fexp (bound_pdf_at (minval p) (maxval p) x (k x))).
Proof.
  intros H x. unfold pdf. rewrite (log_pdf_entrywise p k H). cbn [bind].
  now rewrite map_map.
Qed.

Lemma cdf_entrywise (p : basic_1dimpdf) (k : float -> float) :
  acts_as (_log_cdf p) k ->
  acts_as (cdf p)
          (fun x => fexp (bound_cdf_at (minval p) (maxval p) x (k x))).
Proof.
  intros H x. unfold cdf. rewrite (log_cdf_entrywise p k H). cbn [bind].
  now rewrite map_map.
Qed.

(** With ordered bounds no value is both below the lower and above the
    upper one. *)
Lemma below_not_above (lo hi x : float) :
  (hi <? lo)%fl = false -> (x <? lo)%fl = true -> (x >? hi)%fl = false.
Proof.
  unfold fgt. intros Hb Hx.
  destruct lo, hi, x; cbn in *; try reflexivity; try discriminate.
  fcompare. lra.
Qed.

Lemma fexp_NInf : fexp NInf = Fin 0.
Proof. reflexivity. Qed.

Lemma fexp_zero : fexp (Fin 0) = Fin 1.
Proof. simpl. now rewrite exp_0. Qed.

(** C9: for a distribution whose [_log_pdf] and [_log_cdf] return arrays of
    the shape of [x], and whose bounds are ordered, [log_pdf] is [-inf]
    (and [pdf] is [0]) at every position where [x] is outside
    [[minval, maxval]]; [log_cdf] is [-inf] (and [cdf] is [0]) where
    [x < minval], and [0] (and [cdf] is [1]) where [x > maxval]. *)
Theorem bound_masking (d : basic_1dimpdf) (x yp yc : array) :
  _log_pdf d x = Some yp -> length yp = length x ->
  _log_cdf d x = Some yc -> length yc = length x ->
  (maxval d <? minval d)%fl = false ->
  exists lp lc,
    log_pdf d x = Some lp /\ pdf d x = Some (map fexp lp)
    /\ log_cdf d x = Some lc /\ cdf d x = Some (map fexp lc)
    /\ forall i xi, nth_error x i = Some xi ->
       (((xi <? minval d) || (xi >? maxval d))%fl = true ->
        nth_error lp i = Some NInf
        /\ nth_error (map fexp lp) i = Some (Fin 0))
       /\ ((xi <? minval d)%fl = true ->
           nth_error lc i = Some NInf
           /\ nth_error (map fexp lc) i = Some (Fin 0))
       /\ ((xi >? maxval d)%fl = true ->
           nth_error lc i = Some (Fin 0)
           /\ nth_error (map fexp lc) i = Some (Fin 1)).
Proof.
  intros Hp Lp Hc Lc Hb.
  set (below := map (fun xi => (xi <? minval d)%fl) x).
  set (above := map (fun xi => (xi >? maxval d)%fl) x).
  set (lp := map2 (fun (m : bool) yi => if m then NInf else yi)
                  (check_bounds_1D x (minval d) (maxval d)) yp).
  set (lc1 := map2 (fun (m : bool) yi => if m then NInf else yi) below yc).
  set (lc := map2 (fun (m : bool) yi => if m then Fin 0 else yi) above lc1).
  assert (Llc1 : length lc1 = length x).
  { unfold lc1. rewrite map2_length; unfold below; rewrite length_map;
      congruence. }
  assert (Elp : log_pdf d x = Some lp).
  { unfold log_pdf. rewrite Hp. cbn [bind]. unfold _check_bound_pdf.
    apply setitem_mask_same_length.
    unfold check_bounds_1D. rewrite length_map. congruence. }
  assert (Elc : log_cdf d x = Some lc).
  { unfold log_cdf. rewrite Hc. cbn [bind]. unfold _check_bound_cdf.
    rewrite setitem_mask_same_length
      by (rewrite length_map; congruence).
    cbn [bind]. apply setitem_mask_same_length.
    rewrite length_map, map2_length; rewrite ?length_map; congruence. }
  exists lp, lc.
  split; [exact Elp|].
  split; [unfold pdf; now rewrite Elp|].
  split; [exact Elc|].
  split; [unfold cdf; now rewrite Elc|].
  intros i xi Hi.
  destruct (nth_error_same_length x yp i xi (eq_sym Lp) Hi) as [ypi Hypi].
  destruct (nth_error_same_length x yc i xi (eq_sym Lc) Hi) as [yci Hyci].
  assert (Hlp : nth_error lp i
                = Some (if ((xi <? minval d) || (xi >? maxval d))%fl
                        then NInf else ypi)).
  { unfold lp.
    apply (nth_error_map2 (fun (m : bool) yi => if m then NInf else yi));
      [|exact Hypi].
    unfold check_bounds_1D.
    now apply (map_nth_error
                 (fun xi => ((xi <? minval d) || (xi >? maxval d))%fl)). }
  assert (Hlc1 : nth_error lc1 i
                 = Some (if (xi <? minval d)%fl then NInf else yci)).
  { unfold lc1.
    apply (nth_error_map2 (fun (m : bool) yi => if m then NInf else yi));
      [|exact Hyci].
    now apply (map_nth_error (fun xi => (xi <? minval d)%fl)). }
  assert (Hlc : nth_error lc i
                = Some (if (xi >? maxval d)%fl then Fin 0
                        else if (xi <? minval d)%fl then NInf else yci)).
  { unfold lc.
    apply (nth_error_map2 (fun (m : bool) yi => if m then Fin 0 else yi));
      [|exact Hlc1].
    now apply (map_nth_error (fun xi => (xi >? maxval d)%fl)). }
  repeat split.
  - rewrite Hlp, H. reflexivity.
  - rewrite (map_nth_error fexp i lp Hlp), H. reflexivity.
  - rewrite Hlc, (below_not_above _ _ _ Hb H), H. reflexivity.
  - rewrite (map_nth_error fexp i lc Hlc), (below_not_above _ _ _ Hb H), H.
    reflexivity.
  - rewrite Hlc, H. reflexivity.
  - rewrite (map_nth_error fexp i lc Hlc), H. now rewrite fexp_zero.
Qed.

End bound_properties.

(** ** Power law *)

Section power_law_properties.
Import priors entrywise.

Lemma PowerLaw_log_pdf_entrywise (minpl maxpl alpha : float) :
  acts_as (_log_pdf (PowerLaw minpl maxpl alpha))
    (fun xi => (alpha * flog xi
                - flog (PowerLaw_norm_fact minpl maxpl alpha))%fl).
Proof. intros x. reflexivity. Qed.

Lemma PowerLaw_log_cdf_entrywise (minpl maxpl alpha : float) :
  exists k, acts_as (_log_cdf (PowerLaw minpl maxpl alpha)) k.
Proof.
  unfold acts_as. cbn [_log_cdf PowerLaw]. unfold PowerLaw__log_cdf.
  destruct (alpha ==? Fin (-1))%fl; eexists; intros x; reflexivity.
Qed.

Lemma PowerLaw_vectorised (minpl maxpl alpha : float) :
  vectorised (PowerLaw minpl maxpl alpha).
Proof.
  split; [eexists; apply PowerLaw_log_pdf_entrywise
         | apply PowerLaw_log_cdf_entrywise].
Qed.

(** A float not below [lo] and not above [hi] passes the bound mask. *)
Lemma within_bounds (lo hi x y : float) :
  (x >=? lo)%fl = true -> (x <=? hi)%fl = true ->
  bound_pdf_at lo hi x y = y.
Proof.
  intros Hlo Hhi. unfold bound_pdf_at.
  replace ((x <? lo) || (x >? hi))%fl with false; [reflexivity|].
  symmetry. apply orb_false_iff.
  unfold fge, fgt, fle in *.
  split.
  - destruct lo, x; cbn in *; try reflexivity; try discriminate.
    fcompare. lra.
  - destruct hi, x; cbn in *; try reflexivity; try discriminate.
    fcompare. lra.
Qed.

(** The normalisation of a power law on [0 < lo < hi] is finite and
    positive. *)
Lemma PL_normfact_positive (lo hi alpha : R) :
  0 < lo < hi ->
  exists n, PL_normfact (Fin lo) (Fin hi) (Fin alpha) = Fin n /\ 0 < n.
Proof.
  intros [Hlo Hhi]. unfold PL_normfact.
  destruct (Req_dec_T alpha (-1)) as [-> | Ha].
  - replace (Fin (-1) ==? Fin (-1))%fl with true
      by (symmetry; fcompare; reflexivity).
    cbn [fdiv]. rewrite R_eqb_false by lra.
    assert (H1 : 1 < hi / lo).
    { apply (Rmult_lt_reg_r lo); [lra|]. field_simplify; lra. }
    cbn [flog]. rewrite R_ltb_true by lra.
    exists (ln (hi / lo)). split; [reflexivity|].
    rewrite <- ln_1. apply ln_increasing; lra.
  - replace (Fin alpha ==? Fin (-1))%fl with false
      by (symmetry; fcompare; lra).
    cbn [fadd]. rewrite !fpow_pos by lra. cbn [fsub fneg fadd fdiv].
    rewrite R_eqb_false by lra.
    eexists. split; [reflexivity|].
    destruct (Rlt_dec 0 (alpha + 1)) as [Hp | Hn].
    + assert (H := Rlt_Rpower_l lo hi (alpha + 1) Hp (conj Hlo Hhi)).
      apply Rdiv_lt_0_compat; lra.
    + assert (Hc : 0 < - (alpha + 1)) by lra.
      assert (H := Rlt_Rpower_l lo hi (- (alpha + 1)) Hc (conj Hlo Hhi)).
      rewrite !Rpower_Ropp in H.
      assert (Hx : 0 < Rpower lo (alpha + 1)) by apply exp_pos.
      assert (Hy : 0 < Rpower hi (alpha + 1)) by apply exp_pos.
      assert (Hyx : Rpower hi (alpha + 1) < Rpower lo (alpha + 1)).
      { destruct (Rlt_dec (Rpower hi (alpha + 1)) (Rpower lo (alpha + 1)))
          as [Hlt | Hge]; [assumption|].
        exfalso.
        assert (Hle : Rpower lo (alpha + 1) <= Rpower hi (alpha + 1)) by lra.
        apply Rinv_le_contravar in Hle; lra. }
      replace ((Rpower hi (alpha + 1) + - Rpower lo (alpha + 1)) / (alpha + 1))
        with ((Rpower lo (alpha + 1) - Rpower hi (alpha + 1)) / (- (alpha + 1)))
        by (field; lra).
      apply Rdiv_lt_0_compat; lra.
Qed.

(** The concrete case of the specification:
    [PowerLaw(min=5, max=100, alpha=-2)]. *)
Lemma PowerLaw_5_100_norm_fact :
  PowerLaw_norm_fact (Fin 5) (Fin 100) (Fin (-2)) = Fin (19 / 100).
Proof.
  unfold PowerLaw_norm_fact, PL_normfact.
  replace (Fin (-2) ==? Fin (-1))%fl with false
    by (symmetry; fcompare; lra).
  cbn [fadd]. replace (-2 + 1) with (-1) by lra.
  rewrite !fpow_pos by lra. rewrite !Rpower_m1 by lra.
  cbn [fsub fneg fadd fdiv]. rewrite R_eqb_false by lra.
  f_equal. field.
Qed.

Lemma PowerLaw_5_100_pdf_10 :
  pdf (PowerLaw (Fin 5) (Fin 100) (Fin (-2))) [Fin 10] = Some [Fin (1 / 19)].
Proof.
  rewrite (pdf_entrywise _ _ (PowerLaw_log_pdf_entrywise _ _ _)).
  cbn [map minval maxval PowerLaw].
  rewrite within_bounds by (fcompare; lra).
  rewrite PowerLaw_5_100_norm_fact.
  cbn [flog]. rewrite !R_ltb_true by lra.
  cbn [fmul fsub fneg fadd fexp].
  do 3 f_equal.
  replace (-2 * ln 10 + - ln (19 / 100))
    with (- (ln 10 + ln 10 + ln (19 / 100))) by ring.
  rewrite exp_Ropp, !exp_plus, !exp_ln by lra.
  field.
Qed.

(** C7, as the code has it: wherever [min <= x <= max],
    [log_pdf(x) = alpha * log(x) - log(norm_fact)] with [norm_fact] the
    value of [PL_normfact]: [log(max/min)] when [alpha = -1] and
    [(max^(alpha+1) - min^(alpha+1))/(alpha+1)] otherwise.  For
    [PowerLaw(min=5, max=100, alpha=-2)] this gives
    [norm_fact = (100^-1 - 5^-1)/-1 = 0.19] and
    [pdf(10) = 10^-2/0.19 = 1/19], about 0.0526. *)
Theorem PowerLaw_log_pdf_formula (minpl maxpl alpha : float) (x : array)
    (i : nat) (xi : float) :
  nth_error x i = Some xi ->
  (xi >=? minpl)%fl = true -> (xi <=? maxpl)%fl = true ->
  let norm_fact := PowerLaw_norm_fact minpl maxpl alpha in
  (exists lp, log_pdf (PowerLaw minpl maxpl alpha) x = Some lp
              /\ nth_error lp i = Some (alpha * flog xi - flog norm_fact)%fl)
  /\ norm_fact =
     (if (alpha ==? Fin (-1))%fl then flog (maxpl / minpl)
      else ((fpow maxpl (alpha + Fin 1) - fpow minpl (alpha + Fin 1))
            / (alpha + Fin 1))%fl)
  /\ PowerLaw_norm_fact (Fin 5) (Fin 100) (Fin (-2)) = Fin (19 / 100)
  /\ pdf (PowerLaw (Fin 5) (Fin 100) (Fin (-2))) [Fin 10]
     = Some [Fin (1 / 19)].
Proof.
  intros Hi Hlo Hhi norm_fact. split; [|split; [reflexivity|split]].
  - eexists. split.
    + apply (log_pdf_entrywise _ _ (PowerLaw_log_pdf_entrywise _ _ _)).
    + rewrite (map_nth_error _ i x Hi). cbn [minval maxval PowerLaw].
      now rewrite within_bounds.
  - apply PowerLaw_5_100_norm_fact.
  - apply PowerLaw_5_100_pdf_10.
Qed.

Lemma PowerLaw_log_pdf_formula_witness :
  nth_error [Fin 10] 0 = Some (Fin 10)
  /\ (Fin 10 >=? Fin 5)%fl = true /\ (Fin 10 <=? Fin 100)%fl = true
  /\ exists lp,
       log_pdf (PowerLaw (Fin 5) (Fin 100) (Fin (-2))) [Fin 10] = Some lp
       /\ nth_error lp 0
          = Some (Fin (-2) * flog (Fin 10)
                  - flog (PowerLaw_norm_fact (Fin 5) (Fin 100) (Fin (-2))))%fl.
Proof.
  assert (H0 : nth_error [Fin 10] 0 = Some (Fin 10)) by reflexivity.
  assert (H1 : (Fin 10 >=? Fin 5)%fl = true) by (fcompare; lra).
  assert (H2 : (Fin 10 <=? Fin 100)%fl = true) by (fcompare; lra).
  repeat (split; [assumption|]).
  exact (proj1 (PowerLaw_log_pdf_formula (Fin 5) (Fin 100) (Fin (-2))
                  [Fin 10] 0 (Fin 10) H0 H1 H2)).
Defined.

(** C7 as stated fails on its concrete case: the normalisation of
    [PowerLaw(min=5, max=100, alpha=-2)] is 0.19, not about 0.0190, and
    [pdf(10)] is 1/19, about 0.0526, not about 0.526. *)
Lemma PowerLaw_5_100_is_not_as_stated :
  (forall v, PowerLaw_norm_fact (Fin 5) (Fin 100) (Fin (-2)) = Fin v ->
             Rabs (v - 190 / 10000) > 1 / 10)
  /\ (forall v, pdf (PowerLaw (Fin 5) (Fin 100) (Fin (-2))) [Fin 10]
                = Some [Fin v] ->
                Rabs (v - 526 / 1000) > 4 / 10).
Proof.
  split; intros v H.
  - rewrite PowerLaw_5_100_norm_fact in H. injection H as <-.
    rewrite Rabs_right; lra.
  - rewrite PowerLaw_5_100_pdf_10 in H. injection H as <-.
    rewrite Rabs_left; lra.
Qed.

End power_law_properties.

(** ** Broken power law *)

Section broken_power_law_properties.
Import priors entrywise.

(** The log-density of a power law at a point of its support
    [0 < lo <= x <= hi], [lo < hi], is finite. *)
Lemma PowerLaw_log_pdf_at (lo hi alpha x : R) :
  0 < lo < hi -> lo <= x <= hi ->
  exists l,
    log_pdf (PowerLaw (Fin lo) (Fin hi) (Fin alpha)) [Fin x] = Some [Fin l]
    /\ pdf (PowerLaw (Fin lo) (Fin hi) (Fin alpha)) [Fin x]
       = Some [Fin (exp l)].
Proof.
  intros Hb Hx.
  destruct (PL_normfact_positive lo hi alpha Hb) as [n [En Hn]].
  exists (alpha * ln x + - ln n).
  assert (E : log_pdf (PowerLaw (Fin lo) (Fin hi) (Fin alpha)) [Fin x]
              = Some [Fin (alpha * ln x + - ln n)]).
  { rewrite (log_pdf_entrywise _ _ (PowerLaw_log_pdf_entrywise _ _ _)).
    cbn [map minval maxval PowerLaw].
    rewrite within_bounds by (fcompare; lra).
    unfold PowerLaw_norm_fact. rewrite En.
    cbn [flog]. rewrite !R_ltb_true by lra. reflexivity. }
  split; [exact E|].
  unfold pdf. rewrite E. reflexivity.
Qed.

(** For [0 < min < max] and [0 < b < 1] the constructor succeeds, the
    two power laws have positive densities [p1] and [p2] at the break point
    [min + b (max - min)], the normalisation is [1 + p1/p2], and at the
    break point the two arguments that [_log_pdf] hands to [logaddexp] are
    the same number. *)
Lemma BrokenPowerLaw_parts_at_break (minpl maxpl alpha_1 alpha_2 b : R) :
  0 < minpl < maxpl -> 0 < b < 1 ->
  exists self p1 p2 l,
    BrokenPowerLaw.init (Fin minpl) (Fin maxpl) (Fin alpha_1) (Fin alpha_2)
                        (Fin b) = Some self
    /\ BrokenPowerLaw.break_point self = Fin (minpl + b * (maxpl - minpl))
    /\ pdf (BrokenPowerLaw.PL1 self) [BrokenPowerLaw.break_point self]
       = Some [Fin p1]
    /\ pdf (BrokenPowerLaw.PL2 self) [BrokenPowerLaw.break_point self]
       = Some [Fin p2]
    /\ 0 < p1 /\ 0 < p2
    /\ BrokenPowerLaw.norm_fact self = Fin (1 + p1 / p2)
    /\ BrokenPowerLaw.log_parts self [BrokenPowerLaw.break_point self]
       = Some ([Fin l], [Fin l])
    /\ (fexp (Fin l - flog (BrokenPowerLaw.norm_fact self))
        = Fin (p1 / (1 + p1 / p2)))%fl.
Proof.
  intros Hm Hb.
  set (bp := minpl + b * (maxpl - minpl)).
  assert (Hbp : minpl < bp < maxpl) by (unfold bp; nra).
  destruct (PowerLaw_log_pdf_at minpl bp alpha_1 bp) as [l1 [L1 P1]];
    [lra | lra |].
  destruct (PowerLaw_log_pdf_at bp maxpl alpha_2 bp) as [l2 [L2 P2]];
    [lra | lra |].
  assert (E1 := exp_pos l1). assert (E2 := exp_pos l2).
  assert (Ebp : (Fin minpl + Fin b * (Fin maxpl - Fin minpl))%fl = Fin bp)
    by reflexivity.
  eexists. exists (exp l1), (exp l2), l1.
  split.
  { unfold BrokenPowerLaw.init. rewrite Ebp, P1. cbn [bind nth_error].
    rewrite P2. cbn [bind nth_error]. reflexivity. }
  cbn [BrokenPowerLaw.break_point BrokenPowerLaw.PL1 BrokenPowerLaw.PL2
       BrokenPowerLaw.norm_fact].
  rewrite ?Ebp.
  split; [reflexivity|].
  split; [exact P1|].
  split; [exact P2|].
  split; [exact E1|].
  split; [exact E2|].
  split.
  { cbn [fdiv fadd]. rewrite R_eqb_false by lra. reflexivity. }
  split.
  { unfold BrokenPowerLaw.log_parts.
    cbn [BrokenPowerLaw.break_point BrokenPowerLaw.PL1 BrokenPowerLaw.PL2].
    rewrite L1, L2. cbn [bind broadcast2 map fadd fsub fneg].
    replace (l2 + l1 + - l2) with l1 by ring. reflexivity. }
  cbn [fdiv fadd]. rewrite R_eqb_false by lra.
  assert (Hn : 0 < 1 + exp l1 / exp l2).
  { assert (0 < exp l1 / exp l2) by (apply Rdiv_lt_0_compat; lra). lra. }
  cbn [flog]. rewrite R_ltb_true by lra.
  cbn [fsub fneg fadd fexp]. f_equal.
  rewrite exp_plus, exp_Ropp, exp_ln by lra. field.
  split; lra.
Qed.

End broken_power_law_properties.

(** ** Beta-distribution parameters *)

Section beta_properties.
Import priors.

(** The shape parameters computed from a mean in [(0,1)] and a positive
    variance are finite. *)
Lemma betadistro_muvar2ab_finite (mu var : R) :
  0 < mu < 1 -> 0 < var ->
  betadistro_muvar2ab (Fin mu) (Fin var)
  = (Fin (((1 - mu) / var - 1 / mu) * (mu * mu)),
     Fin (((1 - mu) / var - 1 / mu) * (mu * mu) * (1 / mu - 1))).
Proof.
  intros Hmu Hvar. unfold betadistro_muvar2ab.
  rewrite fpow_2. cbn [fsub fneg fadd fdiv]. rewrite !R_eqb_false by lra.
  cbn [fsub fneg fadd fmul]. f_equal; f_equal; ring.
Qed.

(** C10: for [0 < mu < 1] and [var > 0], when the shape parameters
    [(a, b)] computed by [betadistro_muvar2ab] are nonzero,
    [betadistro_ab2muvar] gives back [(mu, var)]. *)
Theorem betadistro_roundtrip (mu var : R) (a b : float) :
  0 < mu < 1 -> 0 < var ->
  betadistro_muvar2ab (Fin mu) (Fin var) = (a, b) ->
  a <> Fin 0 -> b <> Fin 0 ->
  betadistro_ab2muvar a b = (Fin mu, Fin var).
Proof.
  intros Hmu Hvar E Ha Hb.
  rewrite betadistro_muvar2ab_finite in E by assumption.
  injection E as <- <-.
  set (ar := ((1 - mu) / var - 1 / mu) * (mu * mu)) in *.
  assert (Har : ar <> 0) by (intros Z; apply Ha; now rewrite Z).
  assert (Hsum : ar + ar * (1 / mu - 1) = ar / mu) by (field; lra).
  assert (Hs0 : ar / mu <> 0).
  { intros Z. apply Har.
    replace ar with (ar / mu * mu) by (field; lra). rewrite Z. ring. }
  assert (Hpos : ar + mu = mu * mu * (1 - mu) / var)
    by (unfold ar; field; lra).
  assert (Hpos' : 0 < ar + mu).
  { rewrite Hpos. apply Rdiv_lt_0_compat; [|lra].
    apply Rmult_lt_0_compat; [|lra]. apply Rmult_lt_0_compat; lra. }
  assert (Hden : ar / mu * (ar / mu) * (ar / mu + 1) <> 0).
  { apply Rmult_integral_contrapositive_currified.
    - apply Rmult_integral_contrapositive_currified; assumption.
    - replace (ar / mu + 1) with ((ar + mu) / mu) by (field; lra).
      apply Rgt_not_eq. apply Rdiv_lt_0_compat; lra. }
  unfold betadistro_ab2muvar. cbn [fadd]. rewrite Hsum.
  rewrite fpow_2. cbn [fadd fmul fdiv].
  rewrite !R_eqb_false by assumption.
  f_equal; f_equal.
  - field. repeat split; lra.
  - replace (ar * (ar * (1 / mu - 1)) / (ar / mu * (ar / mu) * (ar / mu + 1)))
      with (mu * mu * (1 - mu) / (ar + mu)).
    + rewrite Hpos. field. repeat split; lra.
    + field. repeat split; lra.
Qed.

Lemma betadistro_roundtrip_witness :
  0 < 1 / 2 < 1 /\ 0 < 1 / 20
  /\ betadistro_muvar2ab (Fin (1 / 2)) (Fin (1 / 20)) = (Fin 2, Fin 2)
  /\ betadistro_ab2muvar (Fin 2) (Fin 2) = (Fin (1 / 2), Fin (1 / 20)).
Proof.
  assert (H1 : 0 < 1 / 2 < 1) by lra.
  assert (H2 : 0 < 1 / 20) by lra.
  assert (E : betadistro_muvar2ab (Fin (1 / 2)) (Fin (1 / 20))
              = (Fin 2, Fin 2)).
  { rewrite betadistro_muvar2ab_finite by assumption.
    f_equal; f_equal; field. }
  assert (Ha : Fin 2 <> Fin 0) by (intros Z; injection Z; lra).
  repeat (split; [assumption|]).
  exact (betadistro_roundtrip (1 / 2) (1 / 20) (Fin 2) (Fin 2) H1 H2 E Ha Ha).
Defined.

End beta_properties.

(** ** Smoothing of the lower edge *)

Section lowpass_properties.
Import priors entrywise.
Import LowpassSmoothedProb.

Lemma highpass_filter_value (x : array) (mmin delta_m : float) :
  _highpass_filter x mmin delta_m = Some (map (highpass_at mmin delta_m) x).
Proof. exact (highpass_filter_entrywise mmin delta_m x). Qed.

Lemma getitem_mask_self (m : float -> bool) (x : array) :
  getitem_mask x (map m x) = Some (filter m x).
Proof.
  pose proof (getitem_mask_map (fun v => v) m x) as H.
  now rewrite !map_id in H.
Qed.

Lemma broadcast2_scalar (f : float -> float -> float) (a : array) (y : float) :
  broadcast2 f a [y] = Some (map (fun x => f x y) a).
Proof. destruct a as [|? [|? ?]]; reflexivity. Qed.

Lemma at_point_entrywise (f : array -> option array) (k : float -> float)
    (x : float) :
  acts_as f k -> at_point f x = k x.
Proof. intros H. unfold at_point. now rewrite H. Qed.

Lemma interp_entrywise (x xp fp : array) :
  xp <> [] -> length xp = length fp ->
  interp x xp fp = Some (map (interp1 xp fp) x).
Proof.
  intros Hne Hl. unfold interp. destruct xp; [contradiction|].
  now rewrite Hl, Nat.eqb_refl.
Qed.

(** Shapes of the grids. *)
Lemma linspace_length (start stop : float) (num : nat) :
  length (linspace start stop num) = num.
Proof.
  destruct num as [|[|n]]; try reflexivity.
  unfold linspace. rewrite length_app, length_map, length_seq. simpl. lia.
Qed.

Lemma removelast_length {A} (l : list A) :
  length (removelast l) = (length l - 1)%nat.
Proof.
  induction l as [|a [|b l] IH]; try reflexivity.
  change (removelast (a :: b :: l)) with (a :: removelast (b :: l)).
  cbn [length] in *. rewrite IH. lia.
Qed.

Lemma tl_length {A} (l : list A) : length (tl l) = (length l - 1)%nat.
Proof. destruct l; simpl; lia. Qed.

Lemma cumsum_from_length (acc : float) (a : array) :
  length (cumsum_from acc a) = length a.
Proof.
  revert acc. induction a as [|x a IH]; intros acc; simpl;
    [reflexivity | now rewrite IH].
Qed.

Lemma midpoints_length (g : array) :
  length (midpoints g) = (length g - 1)%nat.
Proof.
  unfold midpoints. rewrite length_map, map2_length;
    rewrite removelast_length; [reflexivity | now rewrite tl_length].
Qed.

(** [_log_pdf] of the smoothed distribution never raises and acts entry by
    entry: the masked log-density of the origin, plus the logarithm of the
    window, minus the logarithm of the normalisation. *)
Lemma LowpassSmoothedProb_log_pdf_entrywise (self : t) (kp : float -> float) :
  acts_as (priors._log_pdf (origin_prob self)) kp ->
  acts_as (_log_pdf self)
    (fun x =>
       (bound_pdf_at (minval (origin_prob self)) (maxval (origin_prob self))
                     x (kp x)
        + flog (highpass_at (bottom self) (bottom_smooth self) x)
        - flog (norm self))%fl).
Proof.
  intros H x. unfold _log_pdf.
  rewrite highpass_filter_value. cbn [bind].
  rewrite (log_pdf_entrywise _ _ H). cbn [bind].
  now rewrite map_map, map2_map, map_map.
Qed.

(** [_log_cdf] of a smoothed distribution whose numeric CDF has one value
    per midpoint never raises and acts entry by entry. *)
Lemma LowpassSmoothedProb_log_cdf_entrywise (self : t) (kc : float -> float) :
  acts_as (priors._log_cdf (origin_prob self)) kc ->
  midpoints (x_eval self) <> [] ->
  length (midpoints (x_eval self)) = length (cdf_numeric self) ->
  acts_as (_log_cdf self) (fun x => flog (lowpass_cdf_at self x)).
Proof.
  intros H Hne Hl x. unfold _log_cdf.
  set (edge := (bottom self + bottom_smooth self)%fl).
  set (C := fun x => fexp (bound_cdf_at (minval (origin_prob self))
                                        (maxval (origin_prob self)) x (kc x))).
  assert (HC : acts_as (cdf (origin_prob self)) C)
    by (apply cdf_entrywise; exact H).
  unfold ones_like. rewrite setitem_mask_map. cbn [bind].
  rewrite getitem_mask_self. cbn [bind].
  rewrite interp_entrywise by assumption. cbn [bind].
  rewrite setitem_mask_array_map. cbn [bind].
  rewrite getitem_mask_self. cbn [bind].
  rewrite !HC. cbn [bind map]. rewrite broadcast2_scalar. cbn [bind].
  rewrite !map_map.
  rewrite (setitem_mask_array_map _
             (fun x => ((integral_now self + C x - C edge) / norm self)%fl)).
  cbn [bind]. rewrite map_map. f_equal. apply map_ext. intros a.
  unfold lowpass_cdf_at. fold edge.
  rewrite !(at_point_entrywise _ _ _ HC). reflexivity.
Qed.

(** The constructor never raises on a vectorised origin; the object it
    returns. *)
Lemma init_value (p : basic_1dimpdf) (s : float) (kp : float -> float) :
  acts_as (priors._log_pdf p) kp ->
  let grid := linspace (minval p) (minval p + s)%fl 1000 in
  let P := fun x => fexp (bound_pdf_at (minval p) (maxval p) x (kp x)) in
  let ib := trapz (map P grid) grid in
  let inow :=
    trapz (map2 fmul (map P grid) (map (highpass_at (minval p) s) grid))
          grid in
  let norm := (Fin 1 - ib + inow)%fl in
  let S := fun x =>
    fexp (bound_pdf_at (minval p) (maxval p) x
            (bound_pdf_at (minval p) (maxval p) x (kp x)
             + flog (highpass_at (minval p) s x) - flog norm)%fl) in
  init p s =
  Some (mk p s (minval p) (minval p) (maxval p) ib inow norm grid
           (map2 fmul (cumsum (map S (midpoints grid)))
                      (map2 fsub (tl grid) (removelast grid)))).
Proof.
  intros H grid P ib inow norm S. unfold init.
  fold grid. clearbody grid.
  rewrite (pdf_entrywise p kp H grid). cbn [bind].
  rewrite highpass_filter_value. cbn [bind].
  fold P. fold ib. fold inow. fold norm.
  set (self0 := mk p s (minval p) (minval p) (maxval p) ib inow norm [] []).
  rewrite (pdf_entrywise (as_pdf self0) _
             (LowpassSmoothedProb_log_pdf_entrywise self0 kp H)).
  cbn [bind]. reflexivity.
Qed.

(** C6: for a vectorised base distribution with a finite lower bound and a
    smoothing width [s >= 0], the constructor returns an object whose
    integrals are the trapezoid sums, on the 1000-point grid over
    [[minval, minval+s]], of the pdf of the origin and of that pdf times
    the highpass window; whose [norm] is
    [1 - integral_before + integral_now]; whose numeric CDF is the
    cumulative sum of its own pdf at the midpoints of the grid times the
    grid spacing; whose [_log_pdf] is the log-density of the origin plus
    the logarithm of the window minus [log norm]; and whose [_log_cdf] is
    the logarithm of: [0] below [minval], the interpolation of the numeric
    CDF over the midpoints inside the window, and
    [(integral_now + origin.cdf(x) - origin.cdf(minval+s))/norm] from the
    upper edge of the window on. *)
Theorem LowpassSmoothedProb_construction (p : basic_1dimpdf) (bot s : R) :
  vectorised p -> minval p = Fin bot -> 0 <= s ->
  let grid := linspace (minval p) (minval p + Fin s)%fl 1000 in
  exists self pg wg pmid,
    init p (Fin s) = Some self
    /\ pdf p grid = Some pg
    /\ _highpass_filter grid (minval p) (Fin s) = Some wg
    /\ integral_before self = trapz pg grid
    /\ integral_now self = trapz (map2 fmul pg wg) grid
    /\ norm self = (Fin 1 - integral_before self + integral_now self)%fl
    /\ x_eval self = grid
    /\ pdf (as_pdf self) (midpoints grid) = Some pmid
    /\ cdf_numeric self
       = map2 fmul (cumsum pmid) (map2 fsub (tl grid) (removelast grid))
    /\ forall x, exists lp w lc,
         log_pdf (origin_prob self) x = Some lp
         /\ _highpass_filter x (minval p) (Fin s) = Some w
         /\ _log_pdf self x
            = Some (map (fun v => v - flog (norm self))%fl
                      (map2 fadd lp (map flog w)))
         /\ _log_cdf self x = Some lc
         /\ forall i xi, nth_error x i = Some xi ->
            ((xi <? Fin bot)%fl = true -> nth_error lc i = Some NInf)
            /\ ((xi >=? Fin bot)%fl = true -> (xi <? Fin (bot + s))%fl = true ->
                nth_error lc i
                = Some (flog (interp1 (midpoints grid) (cdf_numeric self) xi)))
            /\ ((xi >=? Fin (bot + s))%fl = true ->
                nth_error lc i
                = Some (flog ((integral_now self + at_point (cdf p) xi
                               - at_point (cdf p) (Fin (bot + s)))
                              / norm self)%fl)).
Proof.
  intros [[kp Hp] [kc Hc]] Hbot Hs.
  pose proof (init_value p (Fin s) kp Hp) as E. cbv zeta in *.
  assert (Lg1 : (length (linspace (minval p) (minval p + Fin s)%fl 1000) - 1)%nat
                <> 0%nat) by (rewrite linspace_length; discriminate).
  revert E Lg1.
  generalize (linspace (minval p) (minval p + Fin s)%fl 1000).
  intros grid E Lg1. rewrite E. clear E.
  eexists. eexists. eexists. eexists.
  split; [reflexivity|].
  cbn [integral_before integral_now norm x_eval cdf_numeric origin_prob
       bottom bottom_smooth].
  split; [apply (pdf_entrywise p kp Hp)|].
  split; [apply highpass_filter_value|].
  split; [reflexivity|].
  split; [reflexivity|].
  split; [reflexivity|].
  split; [reflexivity|].
  match goal with
  | |- pdf (as_pdf ?o) _ = _ /\ _ => set (self := o)
  end.
  split.
  { apply (pdf_entrywise (as_pdf self) _
             (LowpassSmoothedProb_log_pdf_entrywise self kp Hp)). }
  split; [reflexivity|].
  intros x. eexists. eexists. eexists.
  split; [apply (log_pdf_entrywise p kp Hp)|].
  split; [apply highpass_filter_value|].
  split.
  { unfold _log_pdf.
    cbn [integral_before integral_now norm x_eval cdf_numeric origin_prob
         bottom bottom_smooth self].
    rewrite highpass_filter_value. cbn [bind].
    rewrite (log_pdf_entrywise p kp Hp). reflexivity. }
  assert (Lm : length (midpoints (x_eval self)) = (length grid - 1)%nat).
  { cbn [x_eval self]. apply midpoints_length. }
  assert (Lc : length (cdf_numeric self) = (length grid - 1)%nat).
  { cbn [cdf_numeric self].
    assert (Ld : length (map2 fsub (tl grid) (removelast grid))
                 = (length grid - 1)%nat).
    { rewrite map2_length; rewrite tl_length, ?removelast_length;
        reflexivity. }
    rewrite map2_length; unfold cumsum;
      rewrite cumsum_from_length, length_map, midpoints_length;
      [reflexivity | now rewrite Ld]. }
  assert (Hne : midpoints (x_eval self) <> []).
  { intros Z. rewrite Z in Lm. simpl in Lm. congruence. }
  split.
  { apply (LowpassSmoothedProb_log_cdf_entrywise self kc Hc Hne).
    congruence. }
  intros i xi Hi.
  rewrite (map_nth_error (fun x => flog (lowpass_cdf_at self x)) i x Hi).
  unfold lowpass_cdf_at.
  cbn [integral_before integral_now norm x_eval cdf_numeric origin_prob
       bottom bottom_smooth self].
  rewrite Hbot. cbn [fadd].
  repeat split.
  - intros Hlt.
    replace (xi >=? Fin (bot + s))%fl with false.
    + replace (xi >=? Fin bot)%fl with false.
      * cbn [andb]. rewrite Hlt. cbn [flog].
        rewrite R_ltb_false by lra. now rewrite R_eqb_true.
      * symmetry. destruct xi; cbn in *; try reflexivity; try discriminate.
        fcompare. lra.
    + symmetry. destruct xi; cbn in *; try reflexivity; try discriminate.
      fcompare. lra.
  - intros Hge Hlt.
    replace (xi >=? Fin (bot + s))%fl with false.
    + rewrite Hge.
      replace (xi <=? Fin (bot + s))%fl with true; [reflexivity|].
      symmetry. destruct xi; cbn in *; try reflexivity; try discriminate.
      fcompare. lra.
    + symmetry. destruct xi; cbn in *; try reflexivity; try discriminate.
      fcompare. lra.
  - intros Hge. rewrite Hge. reflexivity.
Qed.

(** A power law on [[5, 100]] smoothed over a width of 2. *)
Lemma LowpassSmoothedProb_construction_witness :
  let p := PowerLaw (Fin 5) (Fin 100) (Fin (-2)) in
  vectorised p /\ minval p = Fin 5 /\ 0 <= 2
  /\ exists self,
       init p (Fin 2) = Some self
       /\ norm self = (Fin 1 - integral_before self + integral_now self)%fl
       /\ exists lc, _log_cdf self [Fin 4] = Some lc
                     /\ nth_error lc 0 = Some NInf.
Proof.
  intros p.
  assert (H1 : vectorised p) by apply PowerLaw_vectorised.
  assert (H2 : minval p = Fin 5) by reflexivity.
  assert (H3 : 0 <= 2) by lra.
  repeat (split; [assumption|]).
  destruct (LowpassSmoothedProb_construction p 5 2 H1 H2 H3)
    as [self [pg [wg [pmid [E [_ [_ [_ [_ [N [_ [_ [_ A]]]]]]]]]]]]].
  exists self. split; [exact E|]. split; [exact N|].
  destruct (A [Fin 4]) as [lp [w [lc [_ [_ [_ [C B]]]]]]].
  exists lc. split; [exact C|].
  apply (B 0%nat (Fin 4) eq_refl). fcompare. lra.
Defined.

End lowpass_properties.

Section bound_examples.
Import priors entrywise.

(** A power law on [[5, 100]] evaluated below and above its bounds. *)
Lemma bound_masking_witness :
  let d := PowerLaw (Fin 5) (Fin 100) (Fin (-2)) in
  let x := [Fin 1; Fin 200] in
  (exists yp, _log_pdf d x = Some yp /\ length yp = length x)
  /\ (exists yc, _log_cdf d x = Some yc /\ length yc = length x)
  /\ (maxval d <? minval d)%fl = false
  /\ exists lp lc,
       log_pdf d x = Some lp /\ log_cdf d x = Some lc
       /\ nth_error lp 0 = Some NInf /\ nth_error lp 1 = Some NInf
       /\ nth_error lc 0 = Some NInf /\ nth_error lc 1 = Some (Fin 0).
Proof.
  intros d x.
  destruct (PowerLaw_vectorised (Fin 5) (Fin 100) (Fin (-2)))
    as [[kp Hp] [kc Hc]].
  assert (Ep : _log_pdf d x = Some (map kp x)) by apply Hp.
  assert (Ec : _log_cdf d x = Some (map kc x)) by apply Hc.
  assert (Lp : length (map kp x) = length x) by apply length_map.
  assert (Lc : length (map kc x) = length x) by apply length_map.
  assert (Hb : (maxval d <? minval d)%fl = false)
    by (unfold d; cbn [maxval minval PowerLaw]; fcompare; lra).
  split; [eauto|]. split; [eauto|]. split; [exact Hb|].
  destruct (bound_masking d x _ _ Ep Lp Ec Lc Hb)
    as [lp [lc [E1 [_ [E2 [_ A]]]]]].
  exists lp, lc. split; [exact E1|]. split; [exact E2|].
  destruct (A 0%nat (Fin 1) eq_refl) as [P0 [C0 _]].
  destruct (A 1%nat (Fin 200) eq_refl) as [P1 [_ C1]].
  assert (B0 : (Fin 1 <? minval d)%fl = true)
    by (unfold d; cbn [maxval minval PowerLaw]; fcompare; lra).
  assert (B1 : (Fin 200 >? maxval d)%fl = true)
    by (unfold d; cbn [maxval minval PowerLaw]; fcompare; lra).
  split; [apply P0; now rewrite B0|].
  split; [apply P1; rewrite B1; apply orb_true_r|].
  split; [apply C0; exact B0 | apply C1; exact B1].
Defined.

End bound_examples.

(** ** More on the likelihood evaluators *)

Section likelihood_variants.
Import likelihood stages.

Context {RateModel Params InjectionSet PosteriorSampleSet : Type}.
Context `{RM : RateModelI RateModel Params}.
Context `{INJ : InjectionSetI InjectionSet RateModel}.
Context `{PS : PosteriorSampleSetI PosteriorSampleSet RateModel}.

Local Abbreviation evaluator :=
  (@hierarchical_likelihood RateModel Params InjectionSet PosteriorSampleSet).

Lemma log_likelihood_v1_stages (hl : evaluator) :
  log_likelihood_v1 hl =
  if gate_INJ hl then (Returned NInf, injections_weighted hl)
  else if gate_PE hl
       then (Returned NInf, posterior_weighted (injections_weighted hl))
       else if gate_variance hl then (Returned NInf, evaluated hl)
            else (sanitize_v1 (combine (evaluated hl)), evaluated hl).
Proof. reflexivity. Qed.

(** X1: whatever the state of the evaluator and of its collaborators, a
    value returned by [hierarchical_likelihood.log_likelihood] is a finite
    float: never [nan], [+inf] or [-inf]. *)
Theorem log_likelihood_returns_finite (hl : evaluator) (v : float) :
  fst (log_likelihood hl) = Returned v -> exists r, v = Fin r.
Proof.
  intros H.
  destruct (no_gate_fires hl) eqn:G.
  - rewrite (log_likelihood_no_gate hl G) in H. cbn [fst] in H.
    rewrite sanitize_cases in H.
    destruct (combine (evaluated hl)); try discriminate;
      injection H as <-; eauto.
  - rewrite (log_likelihood_gate hl G) in H. injection H as <-.
    eexists. reflexivity.
Qed.

(** X2: [hierarchical_likelihood.log_likelihood] is
    [hierarchical_likelihood_v1.log_likelihood] followed by [nan_to_num]:
    the two leave the evaluator in the same state, raise together, and a
    value returned by the first is [nan_to_num] of the value returned by
    the second.  The older class returns [-inf] itself whenever one of the
    three tests rejects. *)
Theorem log_likelihood_is_v1_then_nan_to_num (hl : evaluator) :
  snd (log_likelihood hl) = snd (log_likelihood_v1 hl)
  /\ fst (log_likelihood hl)
     = match fst (log_likelihood_v1 hl) with
       | Returned v => Returned (nan_to_num v)
       | Raised e => Raised e
       end
  /\ (no_gate_fires hl = false -> fst (log_likelihood_v1 hl) = Returned NInf).
Proof.
  rewrite log_likelihood_stages, log_likelihood_v1_stages.
  unfold no_gate_fires.
  destruct (gate_INJ hl); [repeat split|].
  destruct (gate_PE hl); [repeat split|].
  destruct (gate_variance hl); [repeat split|].
  cbn [fst snd negb andb]. split; [reflexivity|]. split; [|discriminate].
  unfold sanitize, sanitize_v1.
  destruct (combine (evaluated hl)); reflexivity.
Qed.

(** X3: what a call of [log_likelihood] leaves behind.  The rate model and
    the injection weights are updated in every case and the thresholds are
    never touched; the posterior-sample weights are updated only if the
    test on [Neff] passes, and the variance diagnostic is stored only if
    the tests on [Neff] and on [neff_PE_ev] both pass. *)
Theorem log_likelihood_final_state (hl : evaluator) :
  let hl' := snd (log_likelihood hl) in
  let rm := rate_update (rate_model hl) (parameters hl) in
  rate_model hl' = rm
  /\ injections hl' = inj_update_weights (injections hl) rm
  /\ neffPE hl' = neffPE hl /\ neffINJ hl' = neffINJ hl
  /\ likelihood_variance_thr hl' = likelihood_variance_thr hl
  /\ parameters hl' = parameters hl
  /\ posterior_samples_dict hl'
     = (if gate_INJ hl then posterior_samples_dict hl
        else ps_update_weights (posterior_samples_dict hl) rm)
  /\ likelihood_variance hl'
     = (if gate_INJ hl || gate_PE hl then likelihood_variance hl
        else Some (variance_diag hl)).
Proof.
  cbv zeta. rewrite log_likelihood_stages.
  destruct (gate_INJ hl); [repeat split|].
  destruct (gate_PE hl); [repeat split|].
  destruct (gate_variance hl); repeat split.
Qed.

(** Order of floats. *)
Lemma flt_fle_trans (a b c : float) :
  (a <? b)%fl = true -> (b <=? c)%fl = true -> (a <? c)%fl = true.
Proof.
  unfold fle. intros H1 H2.
  destruct a, b, c; cbn in *; try reflexivity; try discriminate.
  fcompare. lra.
Qed.

(** X4: a stricter requirement on the effective number of injections
    never accepts what a looser one rejects: if the test on [Neff] rejects
    for an evaluator, it rejects for the same evaluator with any larger
    [neffINJ]. *)
Theorem log_likelihood_rejects_for_larger_neffINJ (hl : evaluator)
    (n : float) :
  gate_INJ hl = true -> (neffINJ hl <=? n)%fl = true ->
  fst (log_likelihood
         (mk_hl (injections hl) (neffPE hl) (rate_model hl)
                (posterior_samples_dict hl) (likelihood_variance_thr hl)
                n (parameters hl) (likelihood_variance hl)))
  = Returned (Fin (- DBL_MAX)).
Proof.
  intros G Hn. rewrite log_likelihood_stages.
  set (hl' := mk_hl _ _ _ _ _ _ _ _).
  assert (G' : gate_INJ hl' = true).
  { unfold gate_INJ in *. change (Neff_of hl') with (Neff_of hl).
    change (neffINJ hl') with n.
    apply orb_true_iff in G as [G | G].
    - now rewrite (flt_fle_trans _ _ _ G Hn).
    - rewrite G. apply orb_true_r. }
  rewrite G'. reflexivity.
Qed.

(** X5: [hierarchical_likelihood_noevents.log_likelihood] raises exactly
    when the expected number of detections is [-inf]; otherwise it returns
    a finite float: [-Nexp] for a finite [Nexp], and the most negative
    finite float for [Nexp = +inf] or [nan].  The rate model and the
    injection weights are updated in every case. *)
Theorem log_likelihood_noevents_outcome
    (hl : @hierarchical_likelihood_noevents RateModel Params InjectionSet) :
  let rm := rate_update (noevents_rate_model hl) (noevents_parameters hl) in
  let inj := inj_update_weights (noevents_injections hl) rm in
  fst (log_likelihood_noevents hl)
  = match expected_number_detections inj with
    | NInf => Raised ValueError
    | Fin r => Returned (Fin (- r))
    | PInf | NaN => Returned (Fin (- DBL_MAX))
    end
  /\ snd (log_likelihood_noevents hl)
     = mk_noevents inj rm (noevents_parameters hl).
Proof.
  cbv zeta. unfold log_likelihood_noevents. cbn [fst snd].
  split; [|reflexivity].
  rewrite sanitize_cases.
  destruct (expected_number_detections _); reflexivity.
Qed.

End likelihood_variants.

Section likelihood_variants_examples.
Import likelihood stages fixtures.

Lemma log_likelihood_returns_finite_witness :
  let hl := with_sum_weights (Fin 0) in
  fst (log_likelihood hl) = Returned (Fin (- DBL_MAX))
  /\ exists r, Fin (- DBL_MAX) = Fin r.
Proof.
  intros hl.
  assert (G : no_gate_fires hl = true).
  { unfold no_gate_fires, gate_INJ, gate_PE, gate_variance. cbn. rdecide.
    reflexivity. }
  assert (C : combine (evaluated hl) = NInf).
  { unfold combine. cbn. rdecide. reflexivity. }
  assert (E : fst (log_likelihood hl) = Returned (Fin (- DBL_MAX))).
  { rewrite (log_likelihood_no_gate hl G). cbn [fst]. now rewrite C. }
  split; [exact E|].
  exact (log_likelihood_returns_finite hl _ E).
Defined.

Lemma log_likelihood_rejects_for_larger_neffINJ_witness :
  let hl := with_neffINJ (Fin 5) (Fin 1000) in
  gate_INJ hl = true /\ (neffINJ hl <=? Fin 2000)%fl = true
  /\ fst (log_likelihood (with_neffINJ (Fin 5) (Fin 2000)))
     = Returned (Fin (- DBL_MAX)).
Proof.
  intros hl.
  assert (G : gate_INJ hl = true).
  { unfold gate_INJ. cbn. rdecide. reflexivity. }
  assert (Hn : (neffINJ hl <=? Fin 2000)%fl = true).
  { unfold hl. cbn [neffINJ with_neffINJ init]. fcompare. lra. }
  split; [exact G|]. split; [exact Hn|].
  exact (log_likelihood_rejects_for_larger_neffINJ hl (Fin 2000) G Hn).
Defined.

End likelihood_variants_examples.

(** ** Algebra of floats *)

(** Decide equalities between comparisons of reals by cases. *)
Ltac rcases :=
  unfold R_ltb, R_eqb;
  repeat match goal with
    | |- context [Rlt_dec ?a ?b] => destruct (Rlt_dec a b)
    | |- context [Req_dec_T ?a ?b] => destruct (Req_dec_T a b)
    end;
  try reflexivity; try lra.

Lemma fneg_involutive (a : float) : (- - a)%fl = a.
Proof. destruct a; cbn; try reflexivity. f_equal. ring. Qed.

Lemma fadd_comm (a b : float) : (a + b)%fl = (b + a)%fl.
Proof. destruct a, b; cbn; try reflexivity. f_equal. ring. Qed.

Lemma fneg_fadd (a b : float) : (- (a + b))%fl = (- a + - b)%fl.
Proof. destruct a, b; cbn; try reflexivity. f_equal. ring. Qed.

Lemma flt_fneg (a b : float) : (- a <? - b)%fl = (b <? a)%fl.
Proof. destruct a, b; cbn; try reflexivity. rcases. Qed.

Lemma feqb_fneg (a b : float) : (- a ==? - b)%fl = (b ==? a)%fl.
Proof. destruct a, b; cbn; try reflexivity. rcases. Qed.

Lemma fle_fneg (a b : float) : (- a <=? - b)%fl = (b <=? a)%fl.
Proof. unfold fle. now rewrite flt_fneg, feqb_fneg. Qed.

Lemma fmul_1_r (a : float) : (a * Fin 1)%fl = a.
Proof.
  destruct a; cbn; try reflexivity.
  - f_equal. ring.
  - unfold signed_inf. rdecide. reflexivity.
  - unfold signed_inf. rdecide. reflexivity.
Qed.

(** ** The lowpass and notch windows *)

Section more_windows.
Import priors entrywise.

(** [_lowpass_filter] never raises and acts entry by entry. *)
Lemma lowpass_filter_value (mass : array) (mmax delta_max : float) :
  _lowpass_filter mass mmax delta_max
  = Some (map (lowpass_at mmax delta_max) mass).
Proof.
  unfold _lowpass_filter, lowpass_at.
  destruct (delta_max ==? Fin 0)%fl; [reflexivity|].
  rewrite getitem_mask_map. cbn [bind].
  set (window := fun m => ((m <? mmax) && (m >? mmax - delta_max))%fl).
  set (effe := fun m => fexp (nan_to_num
                (delta_max / (mmax - m)
                 + delta_max / (mmax - m - delta_max))%fl)).
  assert (E : map fexp
                (map nan_to_num
                   (map2 fadd
                      (map (fun v => (delta_max / v)%fl)
                         (map (fun m => (mmax - m)%fl) (filter window mass)))
                      (map (fun v => (delta_max / (v - delta_max))%fl)
                         (map (fun m => (mmax - m)%fl) (filter window mass)))))
              = map effe (filter window mass)).
  { rewrite map2_map, !map_map. reflexivity. }
  rewrite E. unfold ones_like.
  rewrite (setitem_mask_array_map (fun _ => Fin 1) effe window).
  cbn [bind]. rewrite map_map.
  rewrite setitem_mask_map. cbn [bind].
  rewrite setitem_mask_map. cbn [bind].
  reflexivity.
Qed.

Lemma lowpass_at_mirror (mmax delta_max m : float) :
  lowpass_at mmax delta_max m = highpass_at (- mmax)%fl delta_max (- m)%fl.
Proof.
  unfold lowpass_at, highpass_at.
  assert (E1 : (delta_max + - mmax)%fl = (- (mmax - delta_max))%fl).
  { unfold fsub. now rewrite fneg_fadd, fneg_involutive, fadd_comm. }
  assert (E2 : (- m - - mmax)%fl = (mmax - m)%fl).
  { unfold fsub. now rewrite fneg_involutive, fadd_comm. }
  rewrite E1, E2. unfold fge, fgt. rewrite !fle_fneg, !flt_fneg.
  reflexivity.
Qed.

(** X6: the lowpass window is the highpass window mirrored:
    [_lowpass_filter(x, max, delta)] is
    [_highpass_filter(-x, -max, delta)], for every array and all
    parameters. *)
Theorem lowpass_filter_is_mirrored_highpass (mass : array)
    (mmax delta_max : float) :
  _lowpass_filter mass mmax delta_max
  = _highpass_filter (map fneg mass) (- mmax)%fl delta_max.
Proof.
  rewrite lowpass_filter_value, highpass_filter_value, map_map.
  f_equal. apply map_ext. intros m. apply lowpass_at_mirror.
Qed.

(** Every value of the highpass window is a real number of [[0, 1]]. *)
Lemma highpass_at_range (mmin delta_m m : float) :
  exists r, highpass_at mmin delta_m m = Fin r /\ 0 <= r <= 1.
Proof.
  unfold highpass_at.
  destruct (delta_m ==? Fin 0)%fl; [exists 1; split; [reflexivity | lra]|].
  destruct (m >=? delta_m + mmin)%fl; [exists 1; split; [reflexivity | lra]|].
  destruct (m <=? mmin)%fl; [exists 0; split; [reflexivity | lra]|].
  assert (H : exists e, 0 < e /\
     (if ((m >? mmin) && (m <? delta_m + mmin))%fl
      then fexp (nan_to_num
                   (delta_m / (m - mmin) + delta_m / (m - mmin - delta_m))%fl)
      else Fin 1) = Fin e).
  { destruct ((m >? mmin) && (m <? delta_m + mmin))%fl.
    - destruct (nan_to_num_finite
                  (delta_m / (m - mmin) + delta_m / (m - mmin - delta_m))%fl)
        as [r ->].
      exists (exp r). split; [apply exp_pos | reflexivity].
    - exists 1. split; [lra | reflexivity]. }
  destruct H as [e [He ->]]. cbn [fadd fdiv].
  rewrite R_eqb_false by lra.
  exists (1 / (e + 1)). split; [reflexivity|].
  assert (0 < / (e + 1)) by (apply Rinv_0_lt_compat; lra).
  assert (/ (e + 1) < 1).
  { rewrite <- Rinv_1. apply Rinv_lt_contravar; lra. }
  lra.
Qed.

Lemma lowpass_at_range (mmax delta_max m : float) :
  exists r, lowpass_at mmax delta_max m = Fin r /\ 0 <= r <= 1.
Proof. rewrite lowpass_at_mirror. apply highpass_at_range. Qed.

(** The exponent of the window decreases across the window. *)
Lemma window_exponent_decreasing (mmin delta x y : R) :
  0 < delta -> mmin < x -> x <= y -> y < mmin + delta ->
  delta / (y - mmin) + delta / (y - mmin - delta)
  <= delta / (x - mmin) + delta / (x - mmin - delta).
Proof.
  intros Hd Hx Hxy Hy.
  assert (H1 : / (y - mmin) <= / (x - mmin))
    by (apply Rinv_le_contravar; lra).
  assert (H2 : / (mmin + delta - x) <= / (mmin + delta - y))
    by (apply Rinv_le_contravar; lra).
  replace (delta / (y - mmin - delta)) with (- (delta * / (mmin + delta - y)))
    by (field; lra).
  replace (delta / (x - mmin - delta)) with (- (delta * / (mmin + delta - x)))
    by (field; lra).
  unfold Rdiv. nra.
Qed.

(** X7: for a finite lower edge and a finite width [delta >= 0] the
    highpass window takes its values in [[0, 1]] and never decreases: if
    [x <= y] then the window at [x] is at most the window at [y]. *)
Theorem highpass_window_monotone (mmin delta : R) (x y : float) :
  0 <= delta -> (x <=? y)%fl = true ->
  exists wx wy,
    highpass_at (Fin mmin) (Fin delta) x = Fin wx
    /\ highpass_at (Fin mmin) (Fin delta) y = Fin wy
    /\ 0 <= wx /\ wx <= wy /\ wy <= 1.
Proof.
  intros Hd Hxy.
  destruct (highpass_at_range (Fin mmin) (Fin delta) x) as [wx [Ex Rx]].
  destruct (highpass_at_range (Fin mmin) (Fin delta) y) as [wy [Ey Ry]].
  exists wx, wy. repeat split; try assumption; try lra.
  destruct (Req_dec_T delta 0) as [-> | Hd0].
  { rewrite highpass_at_zero_width in Ex, Ey.
    injection Ex as <-. injection Ey as <-. lra. }
  assert (Hd' : 0 < delta) by lra.
  destruct (x <=? Fin mmin)%fl eqn:Bx.
  { rewrite (highpass_at_below _ _ _ Hd' Bx) in Ex. injection Ex as <-. lra. }
  destruct (y >=? Fin mmin + Fin delta)%fl eqn:Ay.
  { rewrite (highpass_at_above _ _ _ Hd' Ay) in Ey. injection Ey as <-. lra. }
  destruct x as [xr| | |], y as [yr| | |]; cbn in Hxy, Bx, Ay;
    try discriminate.
  fcompare.
  assert (Hx1 : (Fin xr >? Fin mmin)%fl = true) by (fcompare; lra).
  assert (Hx2 : (Fin xr <? Fin mmin + Fin delta)%fl = true)
    by (fcompare; lra).
  assert (Hy1 : (Fin yr >? Fin mmin)%fl = true) by (fcompare; lra).
  assert (Hy2 : (Fin yr <? Fin mmin + Fin delta)%fl = true)
    by (fcompare; lra).
  rewrite (highpass_at_between _ _ _ Hd' Hx1 Hx2) in Ex.
  rewrite (highpass_at_between _ _ _ Hd' Hy1 Hy2) in Ey.
  cbn in Ex, Ey. rewrite !R_eqb_false in Ex, Ey by lra. cbn in Ex, Ey.
  assert (Px := exp_pos (delta / (xr + - mmin)
                         + delta / (xr + - mmin + - delta))).
  assert (Py := exp_pos (delta / (yr + - mmin)
                         + delta / (yr + - mmin + - delta))).
  rewrite !R_eqb_false in Ex, Ey by lra.
  injection Ex as <-. injection Ey as <-.
  assert (M := window_exponent_decreasing mmin delta xr yr Hd').
  assert (Hle : exp (delta / (yr + - mmin) + delta / (yr + - mmin + - delta))
                <= exp (delta / (xr + - mmin)
                        + delta / (xr + - mmin + - delta))).
  { unfold Rminus in M.
    destruct M as [M | M]; try lra.
    - left. now apply exp_increasing.
    - right. now rewrite M. }
  unfold Rdiv at 1 4. rewrite !Rmult_1_l.
  apply Rinv_le_contravar; lra.
Qed.

Lemma highpass_window_monotone_witness :
  0 <= 2 /\ (Fin 2 <=? Fin (5 / 2))%fl = true
  /\ exists wx wy,
       highpass_at (Fin 1) (Fin 2) (Fin 2) = Fin wx
       /\ highpass_at (Fin 1) (Fin 2) (Fin (5 / 2)) = Fin wy /\ wx <= wy.
Proof.
  assert (H1 : 0 <= 2) by lra.
  assert (H2 : (Fin 2 <=? Fin (5 / 2))%fl = true) by (fcompare; lra).
  split; [exact H1|]. split; [exact H2|].
  destruct (highpass_window_monotone 1 2 (Fin 2) (Fin (5 / 2)) H1 H2)
    as [wx [wy [Ex [Ey [_ [L _]]]]]].
  exists wx, wy. repeat split; assumption.
Defined.

Lemma lowpass_at_above (mmax delta : R) (m : float) :
  0 < delta -> (m >=? Fin mmax)%fl = true ->
  lowpass_at (Fin mmax) (Fin delta) m = Fin 0.
Proof.
  intros Hd Hm. rewrite lowpass_at_mirror.
  change (- Fin mmax)%fl with (Fin (- mmax)).
  apply highpass_at_below; [assumption|].
  change (Fin (- mmax)) with (- Fin mmax)%fl.
  rewrite fle_fneg. exact Hm.
Qed.

(** The notch on one entry. *)
Lemma notch_filter_value (mass : array)
    (mlow delta_low mhigh delta_high A : float) :
  _notch_filter mass mlow delta_low mhigh delta_high A
  = Some (map (fun m => (Fin 1 - A * highpass_at mlow delta_low m
                                 * lowpass_at mhigh delta_high m)%fl) mass).
Proof.
  unfold _notch_filter.
  rewrite highpass_filter_value, lowpass_filter_value. cbn [bind].
  now rewrite map_map, map2_map, map_map.
Qed.

(** X8: for a depth [0 <= A <= 1] the notch filter never raises and every
    entry of its result is a real number of [[1 - A, 1]]; for positive
    widths it is exactly [1] at and below [mlow] and at and above [mhigh],
    so the suppression is confined to the band between the two. *)
Theorem notch_filter_band (mass : array)
    (mlow delta_low mhigh delta_high A : R) :
  0 <= A <= 1 -> 0 < delta_low -> 0 < delta_high ->
  exists out,
    _notch_filter mass (Fin mlow) (Fin delta_low) (Fin mhigh)
                  (Fin delta_high) (Fin A) = Some out
    /\ length out = length mass
    /\ forall i m, nth_error mass i = Some m ->
       exists r, nth_error out i = Some (Fin r)
         /\ 1 - A <= r <= 1
         /\ ((m <=? Fin mlow)%fl = true \/ (m >=? Fin mhigh)%fl = true ->
             r = 1).
Proof.
  intros HA Hl Hh. rewrite notch_filter_value.
  eexists. split; [reflexivity|]. split; [apply length_map|].
  intros i m Hi.
  rewrite (map_nth_error _ i mass Hi).
  destruct (highpass_at_range (Fin mlow) (Fin delta_low) m) as [h [Eh Rh]].
  destruct (lowpass_at_range (Fin mhigh) (Fin delta_high) m) as [l [El Rl]].
  exists (1 + - (A * h * l)). split; [now rewrite Eh, El|].
  split.
  { assert (Hhl : 0 <= h * l <= 1) by nra.
    assert (HAhl : 0 <= A * (h * l) <= A) by nra.
    rewrite Rmult_assoc. lra. }
  intros [B | B].
  - rewrite (highpass_at_below _ _ _ Hl B) in Eh. injection Eh as <-. ring.
  - rewrite (lowpass_at_above _ _ _ Hh B) in El. injection El as <-. ring.
Qed.

Lemma notch_filter_band_witness :
  0 <= 1 / 2 <= 1 /\ 0 < 1 /\ 0 < 1
  /\ exists out,
       _notch_filter [Fin 2; Fin 9] (Fin 3) (Fin 1) (Fin 8) (Fin 1)
                     (Fin (1 / 2)) = Some out
       /\ nth_error out 0 = Some (Fin 1) /\ nth_error out 1 = Some (Fin 1).
Proof.
  assert (H1 : 0 <= 1 / 2 <= 1) by lra.
  assert (H2 : 0 < 1) by lra.
  repeat (split; [assumption|]).
  destruct (notch_filter_band [Fin 2; Fin 9] 3 1 8 1 (1 / 2) H1 H2 H2)
    as [out [E [_ P]]].
  exists out. split; [exact E|].
  destruct (P 0%nat (Fin 2) eq_refl) as [r0 [E0 [_ B0]]].
  destruct (P 1%nat (Fin 9) eq_refl) as [r1 [E1 [_ B1]]].
  rewrite E0, E1, B0, B1; [split; reflexivity | |].
  - right. fcompare. lra.
  - left. fcompare. lra.
Defined.

End more_windows.

(** ** More on the power law *)

Section power_law_more.
Import priors entrywise.

Lemma PL_normfact_value (lo hi alpha : R) :
  0 < lo -> 0 < hi ->
  PL_normfact (Fin lo) (Fin hi) (Fin alpha) = Fin (PL_area lo hi alpha).
Proof.
  intros Hlo Hhi. unfold PL_normfact, PL_area.
  destruct (Req_dec_T alpha (-1)) as [-> | Ha].
  - replace (Fin (-1) ==? Fin (-1))%fl with true
      by (symmetry; fcompare; reflexivity).
    cbn [fdiv]. rewrite R_eqb_false by lra.
    assert (0 < hi / lo) by (apply Rdiv_lt_0_compat; lra).
    cbn [flog]. now rewrite R_ltb_true.
  - replace (Fin alpha ==? Fin (-1))%fl with false
      by (symmetry; fcompare; lra).
    cbn [fadd]. rewrite !fpow_pos by lra. cbn [fsub fneg fadd fdiv].
    rewrite R_eqb_false by lra. reflexivity.
Qed.

Lemma PL_area_pos (lo hi alpha : R) :
  0 < lo < hi -> 0 < PL_area lo hi alpha.
Proof.
  intros H. destruct (PL_normfact_positive lo hi alpha H) as [n [E Hn]].
  rewrite PL_normfact_value in E by lra. now injection E as ->.
Qed.

Lemma PL_area_self (lo alpha : R) : 0 < lo -> PL_area lo lo alpha = 0.
Proof.
  intros H. unfold PL_area. destruct (Req_dec_T alpha (-1)).
  - replace (lo / lo) with 1 by (field; lra). apply ln_1.
  - unfold Rminus. rewrite Rplus_opp_r. unfold Rdiv. ring.
Qed.

Lemma PL_area_additive (lo x y alpha : R) :
  0 < lo -> 0 < x -> 0 < y ->
  PL_area lo y alpha = PL_area lo x alpha + PL_area x y alpha.
Proof.
  intros Hlo Hx Hy. unfold PL_area. destruct (Req_dec_T alpha (-1)).
  - rewrite <- ln_mult by (apply Rdiv_lt_0_compat; lra).
    f_equal. field. lra.
  - field. lra.
Qed.

Lemma PL_area_increasing (lo x y alpha : R) :
  0 < lo -> lo <= x -> x < y -> PL_area lo x alpha < PL_area lo y alpha.
Proof.
  intros Hlo Hx Hxy.
  rewrite (PL_area_additive lo x y) by lra.
  assert (0 < PL_area x y alpha) by (apply PL_area_pos; lra). lra.
Qed.

(** [_log_cdf] of a power law, for every exponent: the normalisation of
    the power law on [[minpl, x]] over the normalisation on the whole
    support. *)
Lemma PowerLaw_log_cdf_value (minpl maxpl alpha : float) :
  acts_as (_log_cdf (PowerLaw minpl maxpl alpha))
    (fun xi => flog (PL_normfact minpl xi alpha
                     / PowerLaw_norm_fact minpl maxpl alpha)%fl).
Proof.
  intros x. cbn [_log_cdf PowerLaw]. unfold PowerLaw__log_cdf, PL_normfact.
  destruct (alpha ==? Fin (-1))%fl; reflexivity.
Qed.

(** The distribution function of a power law on its support. *)
Lemma PowerLaw_cdf_at (lo hi alpha x : R) :
  0 < lo < hi -> lo <= x <= hi ->
  cdf (PowerLaw (Fin lo) (Fin hi) (Fin alpha)) [Fin x]
  = Some [Fin (PL_area lo x alpha / PL_area lo hi alpha)]
  /\ log_cdf (PowerLaw (Fin lo) (Fin hi) (Fin alpha)) [Fin x]
     = Some [if Req_dec_T x lo then NInf
             else Fin (ln (PL_area lo x alpha / PL_area lo hi alpha))].
Proof.
  intros Hb Hx.
  assert (Hn := PL_area_pos lo hi alpha Hb).
  assert (E : log_cdf (PowerLaw (Fin lo) (Fin hi) (Fin alpha)) [Fin x]
              = Some [if Req_dec_T x lo then NInf
                      else Fin (ln (PL_area lo x alpha
                                    / PL_area lo hi alpha))]).
  { rewrite (log_cdf_entrywise _ _ (PowerLaw_log_cdf_value _ _ _)).
    cbn [map minval maxval PowerLaw]. unfold bound_cdf_at.
    replace (Fin x >? Fin hi)%fl with false by (symmetry; fcompare; lra).
    replace (Fin x <? Fin lo)%fl with false by (symmetry; fcompare; lra).
    unfold PowerLaw_norm_fact. rewrite !PL_normfact_value by lra.
    cbn [fdiv]. rewrite R_eqb_false by lra. cbn [flog].
    destruct (Req_dec_T x lo) as [-> | Hne].
    - rewrite PL_area_self by lra.
      replace (0 / PL_area lo hi alpha) with 0 by (field; lra).
      rewrite R_ltb_false by lra. now rewrite R_eqb_true.
    - assert (0 < PL_area lo x alpha) by (apply PL_area_pos; lra).
      assert (0 < PL_area lo x alpha / PL_area lo hi alpha)
        by (apply Rdiv_lt_0_compat; lra).
      now rewrite R_ltb_true. }
  split; [|exact E].
  unfold cdf. rewrite E. cbn [bind map]. do 2 f_equal.
  destruct (Req_dec_T x lo) as [-> | Hne].
  - cbn [fexp]. f_equal. rewrite PL_area_self by lra. field. lra.
  - cbn [fexp]. f_equal. apply exp_ln.
    assert (0 < PL_area lo x alpha) by (apply PL_area_pos; lra).
    apply Rdiv_lt_0_compat; lra.
Qed.

(** X9: for [0 < min < max] and every exponent, the normalisation of the
    power law is finite and positive, its distribution function is [0] at
    [min] ([log_cdf] is [-inf]) and [1] at [max] ([log_cdf] is [0]), and it
    increases strictly on the support. *)
Theorem PowerLaw_cdf_increasing (lo hi alpha x y : R) :
  0 < lo < hi -> lo <= x -> x < y -> y <= hi ->
  let P := PowerLaw (Fin lo) (Fin hi) (Fin alpha) in
  (exists n, PowerLaw_norm_fact (Fin lo) (Fin hi) (Fin alpha) = Fin n
             /\ 0 < n)
  /\ cdf P [Fin lo] = Some [Fin 0] /\ log_cdf P [Fin lo] = Some [NInf]
  /\ cdf P [Fin hi] = Some [Fin 1] /\ log_cdf P [Fin hi] = Some [Fin 0]
  /\ exists cx cy,
       cdf P [Fin x] = Some [Fin cx] /\ cdf P [Fin y] = Some [Fin cy]
       /\ 0 <= cx /\ cx < cy /\ cy <= 1.
Proof.
  intros Hb Hx Hxy Hy P.
  assert (Hn := PL_area_pos lo hi alpha Hb).
  destruct (PowerLaw_cdf_at lo hi alpha lo Hb) as [Clo Llo]; [lra|].
  destruct (PowerLaw_cdf_at lo hi alpha hi Hb) as [Chi Lhi]; [lra|].
  destruct (PowerLaw_cdf_at lo hi alpha x Hb) as [Cx _]; [lra|].
  destruct (PowerLaw_cdf_at lo hi alpha y Hb) as [Cy _]; [lra|].
  split.
  { exists (PL_area lo hi alpha). split; [|exact Hn].
    apply PL_normfact_value; lra. }
  split.
  { unfold P. rewrite Clo. do 3 f_equal. rewrite PL_area_self by lra.
    field. lra. }
  split.
  { unfold P. rewrite Llo. destruct (Req_dec_T lo lo); [reflexivity | lra]. }
  split.
  { unfold P. rewrite Chi. do 3 f_equal. field. lra. }
  split.
  { unfold P. rewrite Lhi. destruct (Req_dec_T hi lo); [lra|].
    do 3 f_equal. replace (PL_area lo hi alpha / PL_area lo hi alpha) with 1
      by (field; lra).
    apply ln_1. }
  exists (PL_area lo x alpha / PL_area lo hi alpha),
         (PL_area lo y alpha / PL_area lo hi alpha).
  split; [exact Cx|]. split; [exact Cy|].
  assert (Ax : 0 <= PL_area lo x alpha).
  { destruct (Req_dec_T x lo) as [-> | Hne].
    - rewrite PL_area_self; lra.
    - left. apply PL_area_pos. lra. }
  assert (Axy := PL_area_increasing lo x y alpha (proj1 Hb) Hx Hxy).
  assert (Ay : PL_area lo y alpha <= PL_area lo hi alpha).
  { destruct (Req_dec_T y hi) as [-> | Hne]; [lra|].
    left. apply PL_area_increasing; lra. }
  assert (Hi : 0 < / PL_area lo hi alpha) by (apply Rinv_0_lt_compat; lra).
  unfold Rdiv. repeat split.
  - nra.
  - nra.
  - replace 1 with (PL_area lo hi alpha * / PL_area lo hi alpha)
      by (field; lra).
    nra.
Qed.

Lemma PowerLaw_cdf_increasing_witness :
  0 < 5 < 100 /\ 5 <= 10 /\ 10 < 20 /\ 20 <= 100
  /\ exists cx cy,
       cdf (PowerLaw (Fin 5) (Fin 100) (Fin (-2))) [Fin 10] = Some [Fin cx]
       /\ cdf (PowerLaw (Fin 5) (Fin 100) (Fin (-2))) [Fin 20]
          = Some [Fin cy]
       /\ cx < cy.
Proof.
  assert (H1 : 0 < 5 < 100) by lra.
  assert (H2 : 5 <= 10) by lra.
  assert (H3 : 10 < 20) by lra.
  assert (H4 : 20 <= 100) by lra.
  repeat (split; [assumption|]).
  destruct (PowerLaw_cdf_increasing 5 100 (-2) 10 20 H1 H2 H3 H4)
    as [_ [_ [_ [_ [_ [cx [cy [Ex [Ey [_ [L _]]]]]]]]]]].
  exists cx, cy. repeat split; assumption.
Defined.

(** The density of a power law on its support. *)
Lemma PowerLaw_pdf_at (lo hi alpha x : R) :
  0 < lo < hi -> lo <= x <= hi ->
  pdf (PowerLaw (Fin lo) (Fin hi) (Fin alpha)) [Fin x]
  = Some [Fin (Rpower x alpha / PL_area lo hi alpha)].
Proof.
  intros Hb Hx.
  assert (Hn := PL_area_pos lo hi alpha Hb).
  rewrite (pdf_entrywise _ _ (PowerLaw_log_pdf_entrywise _ _ _)).
  cbn [map minval maxval PowerLaw].
  rewrite within_bounds by (fcompare; lra).
  unfold PowerLaw_norm_fact. rewrite PL_normfact_value by lra.
  cbn [flog]. rewrite !R_ltb_true by lra.
  cbn [fmul fsub fneg fadd fexp]. do 3 f_equal.
  rewrite exp_plus, exp_Ropp, exp_ln by lra. reflexivity.
Qed.

Lemma PL_area_derivative (lo alpha x : R) :
  0 < lo -> 0 < x ->
  derivable_pt_lim (fun t => PL_area lo t alpha) x (Rpower x alpha).
Proof.
  intros Hlo Hx.
  destruct (Req_dec_T alpha (-1)) as [-> | Ha].
  - apply (derivable_pt_lim_locally_ext
             (ln - fct_cte (ln lo))%F _ x (x / 2) (x + 1)); [lra | |].
    + intros z Hz. unfold PL_area, minus_fct, fct_cte.
      destruct (Req_dec_T (-1) (-1)) as [_ | N]; [|lra].
      unfold Rdiv. rewrite ln_mult, ln_Rinv; try lra.
      apply Rinv_0_lt_compat; lra.
    + replace (Rpower x (-1)) with (/ x - 0)
        by (rewrite Rpower_m1 by lra; ring).
      apply derivable_pt_lim_minus;
        [now apply derivable_pt_lim_ln | apply derivable_pt_lim_const].
  - apply (derivable_pt_lim_ext
             (mult_real_fct (/ (alpha + 1))
                ((fun t => Rpower t (alpha + 1))
                 - fct_cte (Rpower lo (alpha + 1)))%F)).
    + intros z. unfold PL_area, mult_real_fct, minus_fct, fct_cte.
      destruct (Req_dec_T alpha (-1)) as [E | _]; [contradiction|].
      field. lra.
    + replace (Rpower x alpha)
        with (/ (alpha + 1)
              * ((alpha + 1) * Rpower x (alpha + 1 - 1) - 0)).
      * apply derivable_pt_lim_scal. apply derivable_pt_lim_minus;
          [now apply derivable_pt_lim_power | apply derivable_pt_lim_const].
      * replace (alpha + 1 - 1) with alpha by ring. field. lra.
Qed.

(** X10: inside the support of a power law, the density is the derivative
    of the distribution function: [pdf] and [cdf], which the class computes
    from two separate formulas, describe one distribution. *)
Theorem PowerLaw_pdf_is_derivative_of_cdf (lo hi alpha x : R) :
  0 < lo < hi -> lo < x < hi ->
  let P := PowerLaw (Fin lo) (Fin hi) (Fin alpha) in
  derivable_pt_lim (fun t => to_R (at_point (cdf P) (Fin t))) x
                   (to_R (at_point (pdf P) (Fin x))).
Proof.
  intros Hb Hx P.
  assert (Hn := PL_area_pos lo hi alpha Hb).
  unfold at_point at 2. unfold P.
  rewrite PowerLaw_pdf_at by lra. cbn [to_R].
  apply (derivable_pt_lim_locally_ext
           (mult_real_fct (/ PL_area lo hi alpha)
              (fun t => PL_area lo t alpha)) _ x lo hi); [lra | |].
  - intros z Hz. unfold at_point.
    rewrite (proj1 (PowerLaw_cdf_at lo hi alpha z Hb (conj (Rlt_le _ _ (proj1 Hz)) (Rlt_le _ _ (proj2 Hz))))).
    cbn [to_R]. unfold mult_real_fct. field. lra.
  - replace (Rpower x alpha / PL_area lo hi alpha)
      with (/ PL_area lo hi alpha * Rpower x alpha) by (field; lra).
    apply derivable_pt_lim_scal. apply PL_area_derivative; lra.
Qed.

Lemma PowerLaw_pdf_is_derivative_of_cdf_witness :
  0 < 5 < 100 /\ 5 < 10 < 100
  /\ derivable_pt_lim
       (fun t => to_R (at_point (cdf (PowerLaw (Fin 5) (Fin 100) (Fin (-2))))
                                (Fin t)))
       10
       (to_R (at_point (pdf (PowerLaw (Fin 5) (Fin 100) (Fin (-2))))
                       (Fin 10))).
Proof.
  assert (H1 : 0 < 5 < 100) by lra.
  assert (H2 : 5 < 10 < 100) by lra.
  split; [exact H1|]. split; [exact H2|].
  exact (PowerLaw_pdf_is_derivative_of_cdf 5 100 (-2) 10 H1 H2).
Defined.

End power_law_more.

(** ** Power laws of the redshift-evolving models *)

Section evolving_power_laws.
Import priors entrywise.

Lemma bool_never_minus_one (b : bool) :
  (bool_as_float b ==? Fin (-1))%fl = false.
Proof. destruct b; cbn; apply R_eqb_false; lra. Qed.

(** X11: the test [alpha.any() == -1] of [PL_normfact_z] compares a boolean
    with [-1] and never holds, so the logarithmic normalisation is never
    used.  An entry of exponent other than [-1] gets the value of
    [PL_normfact]; an entry of exponent exactly [-1], where [PL_normfact]
    returns [log(max/min)], gets [0/0 = nan]. *)
Theorem PL_normfact_z_never_logarithmic (minpl maxpl alpha : array)
    (i : nat) (lo hi a : R) :
  nth_error minpl i = Some (Fin lo) -> nth_error maxpl i = Some (Fin hi) ->
  nth_error alpha i = Some (Fin a) -> 0 < lo -> 0 < hi ->
  nth_error (PL_normfact_z minpl maxpl alpha) i
  = Some (if Req_dec_T a (-1) then NaN
          else PL_normfact (Fin lo) (Fin hi) (Fin a))
  /\ PL_normfact (Fin lo) (Fin hi) (Fin (-1)) = Fin (ln (hi / lo)).
Proof.
  intros Hlo Hhi Ha Plo Phi. split.
  - unfold PL_normfact_z. rewrite bool_never_minus_one.
    assert (Ha1 : nth_error (map (fun a => (a + Fin 1)%fl) alpha) i
                  = Some (Fin (a + 1))).
    { now rewrite (map_nth_error _ i alpha Ha). }
    rewrite (nth_error_map2 fdiv _ _ i
               (fpow (Fin hi) (Fin (a + 1)) - fpow (Fin lo) (Fin (a + 1)))%fl
               (Fin (a + 1))); [| |exact Ha1].
    + destruct (Req_dec_T a (-1)) as [-> | Hne].
      * unfold fpow. rewrite !R_eqb_true by lra.
        cbn [fsub fneg fadd fdiv]. rewrite R_eqb_true by lra.
        unfold signed_inf. now rewrite R_eqb_true by lra.
      * unfold PL_normfact.
        replace (Fin a ==? Fin (-1))%fl with false
          by (symmetry; fcompare; lra).
        reflexivity.
    + apply nth_error_map2; apply nth_error_map2; assumption.
  - rewrite PL_normfact_value by assumption. unfold PL_area.
    destruct (Req_dec_T (-1) (-1)); [reflexivity | lra].
Qed.

Lemma PL_normfact_z_never_logarithmic_witness :
  nth_error [Fin 5] 0 = Some (Fin 5) /\ nth_error [Fin 100] 0 = Some (Fin 100)
  /\ nth_error [Fin (-1)] 0 = Some (Fin (-1)) /\ 0 < 5 /\ 0 < 100
  /\ nth_error (PL_normfact_z [Fin 5] [Fin 100] [Fin (-1)]) 0 = Some NaN.
Proof.
  assert (H1 : nth_error [Fin 5] 0 = Some (Fin 5)) by reflexivity.
  assert (H2 : nth_error [Fin 100] 0 = Some (Fin 100)) by reflexivity.
  assert (H3 : nth_error [Fin (-1)] 0 = Some (Fin (-1))) by reflexivity.
  assert (H4 : 0 < 5) by lra.
  assert (H5 : 0 < 100) by lra.
  repeat (split; [assumption|]).
  pose proof (proj1 (PL_normfact_z_never_logarithmic
                       [Fin 5] [Fin 100] [Fin (-1)] 0 5 100 (-1)
                       H1 H2 H3 H4 H5)) as E.
  destruct (Req_dec_T (-1) (-1)) as [_ | N]; [exact E | lra].
Defined.

(** [PowerLawStationary(alpha, mmin, mmax)] stores the exponent negated
    and has the log-density and the density of
    [PowerLaw(mmin, mmax, -alpha)]. *)
Lemma PowerLawStationary_is_PowerLaw (alpha mmin mmax : float)
    (m : array) :
  let self := PowerLawStationary.init alpha mmin mmax in
  PowerLawStationary.alpha self = (- alpha)%fl
  /\ PowerLawStationary.log_pdf self m
     = log_pdf (PowerLaw mmin mmax (- alpha)%fl) m
  /\ PowerLawStationary.pdf self m = pdf (PowerLaw mmin mmax (- alpha)%fl) m.
Proof. repeat split. Qed.

End evolving_power_laws.

(** ** More on the beta-distribution parameters and the mixing functions *)

Section beta_and_mixing.
Import priors.

(** X12: for shape parameters [a > 0] and [b > 0], [betadistro_ab2muvar]
    returns a mean in [(0, 1)] and a variance in [(0, mu (1 - mu))], and
    [betadistro_muvar2ab] gives back [(a, b)]: the two conversions are
    inverse to each other in this direction too. *)
Theorem betadistro_roundtrip_from_ab (a b : R) :
  0 < a -> 0 < b ->
  exists mu var,
    betadistro_ab2muvar (Fin a) (Fin b) = (Fin mu, Fin var)
    /\ 0 < mu < 1 /\ 0 < var < mu * (1 - mu)
    /\ betadistro_muvar2ab (Fin mu) (Fin var) = (Fin a, Fin b).
Proof.
  intros Ha Hb.
  set (mu := a / (a + b)).
  set (var := a * b / ((a + b) * (a + b) * (a + b + 1))).
  assert (Hs : 0 < a + b) by lra.
  assert (Hd : 0 < (a + b) * (a + b) * (a + b + 1)).
  { apply Rmult_lt_0_compat; [apply Rmult_lt_0_compat|]; lra. }
  assert (Hab : 0 < a * b) by (apply Rmult_lt_0_compat; lra).
  assert (Hmu : 0 < mu < 1).
  { unfold mu. split.
    - apply Rdiv_lt_0_compat; lra.
    - apply (Rmult_lt_reg_r (a + b)); [lra|]. field_simplify; lra. }
  assert (Hvar : 0 < var) by (unfold var; apply Rdiv_lt_0_compat; lra).
  assert (Hvar' : var = mu * (1 - mu) / (a + b + 1))
    by (unfold var, mu; field; lra).
  assert (Hm1 : 0 < mu * (1 - mu)) by (apply Rmult_lt_0_compat; lra).
  exists mu, var. split.
  { unfold betadistro_ab2muvar. cbn [fadd]. rewrite fpow_2.
    cbn [fadd fmul fdiv]. rewrite !R_eqb_false by lra. reflexivity. }
  split; [exact Hmu|]. split.
  { split; [exact Hvar|]. rewrite Hvar'.
    apply (Rmult_lt_reg_r (a + b + 1)); [lra|].
    replace (mu * (1 - mu) / (a + b + 1) * (a + b + 1))
      with (mu * (1 - mu)) by (field; lra).
    nra. }
  rewrite betadistro_muvar2ab_finite by assumption.
  f_equal; f_equal; unfold var, mu; field; repeat split; lra.
Qed.

Lemma betadistro_roundtrip_from_ab_witness :
  0 < 2 /\ 0 < 3
  /\ exists mu var,
       betadistro_ab2muvar (Fin 2) (Fin 3) = (Fin mu, Fin var)
       /\ betadistro_muvar2ab (Fin mu) (Fin var) = (Fin 2, Fin 3).
Proof.
  assert (H1 : 0 < 2) by lra.
  assert (H2 : 0 < 3) by lra.
  split; [exact H1|]. split; [exact H2|].
  destruct (betadistro_roundtrip_from_ab 2 3 H1 H2)
    as [mu [var [E1 [_ [_ E2]]]]].
  exists mu, var. split; assumption.
Defined.

(** X13: for finite arguments and a width [delta_xt] other than zero, the
    double sigmoid is a real number between [mix_x0] and [mix_x1], and at
    the transition point [x = xt] it is their mean. *)
Theorem mixed_double_sigmoid_between (x xt delta_xt mix_x0 mix_x1 : R) :
  delta_xt <> 0 ->
  exists w,
    _mixed_double_sigmoid_function [Fin x] (Fin xt) (Fin delta_xt)
                                   (Fin mix_x0) (Fin mix_x1) = [Fin w]
    /\ Rmin mix_x0 mix_x1 <= w <= Rmax mix_x0 mix_x1
    /\ (x = xt -> w = (mix_x0 + mix_x1) / 2).
Proof.
  intros Hd.
  set (e := exp ((x + - xt) / delta_xt)).
  assert (He : 0 < e) by apply exp_pos.
  exists (mix_x1 + (mix_x0 + - mix_x1) / (1 + e)). split.
  { unfold _mixed_double_sigmoid_function. cbn [map fsub fneg fadd fdiv].
    rewrite R_eqb_false by assumption. cbn [fexp fadd fdiv].
    fold e. rewrite R_eqb_false by lra. reflexivity. }
  assert (Ht : 0 < / (1 + e) < 1).
  { split; [apply Rinv_0_lt_compat; lra|].
    rewrite <- Rinv_1. apply Rinv_lt_contravar; lra. }
  split.
  - unfold Rmin, Rmax, Rdiv.
    destruct (Rle_dec mix_x0 mix_x1); split; nra.
  - intros ->. unfold e.
    replace ((xt + - xt) / delta_xt) with 0 by (field; assumption).
    rewrite exp_0. field.
Qed.

Lemma mixed_double_sigmoid_between_witness :
  2 <> 0
  /\ exists w,
       _mixed_double_sigmoid_function [Fin 3] (Fin 3) (Fin 2) (Fin 1) (Fin 5)
       = [Fin w]
       /\ w = (1 + 5) / 2.
Proof.
  assert (H : 2 <> 0) by lra.
  split; [exact H|].
  destruct (mixed_double_sigmoid_between 3 3 2 1 5 H) as [w [E [_ M]]].
  exists w. split; [exact E | apply M; reflexivity].
Defined.

(** X14: with a zero width the double sigmoid is a hard step, [mix_x0]
    below the transition point and [mix_x1] above it, and it is [nan] at
    the transition point itself. *)
Theorem mixed_double_sigmoid_zero_width (x xt mix_x0 mix_x1 : R) :
  let w := _mixed_double_sigmoid_function [Fin x] (Fin xt) (Fin 0)
                                          (Fin mix_x0) (Fin mix_x1) in
  (x < xt -> exists r, w = [Fin r] /\ r = mix_x0)
  /\ (xt < x -> exists r, w = [Fin r] /\ r = mix_x1)
  /\ (x = xt -> w = [NaN]).
Proof.
  cbv zeta. unfold _mixed_double_sigmoid_function.
  cbn [map fsub fneg fadd fdiv].
  rewrite R_eqb_true by reflexivity. unfold signed_inf.
  repeat split.
  - intros L. rewrite R_eqb_false by lra. rewrite R_ltb_false by lra.
    cbn [eqb fexp fadd fdiv]. rewrite R_eqb_false by lra.
    eexists. split; [reflexivity | field].
  - intros G. rewrite R_eqb_false by lra. rewrite R_ltb_true by lra.
    cbn [eqb fexp fadd fdiv].
    eexists. split; [reflexivity | ring].
  - intros ->. rewrite R_eqb_true by lra. reflexivity.
Qed.

End beta_and_mixing.

(** ** More on the broken power law *)

Section broken_power_law_more.
Import priors entrywise.

Lemma PowerLaw_cdf_value (lo hi alpha x : R) :
  0 < lo < hi ->
  cdf (PowerLaw (Fin lo) (Fin hi) (Fin alpha)) [Fin x]
  = Some [Fin (PL_cdf lo hi alpha x)].
Proof.
  intros Hb. unfold PL_cdf.
  destruct (PowerLaw_log_cdf_entrywise (Fin lo) (Fin hi) (Fin alpha))
    as [k Hk].
  destruct (Rlt_dec x lo) as [L | L]; [|destruct (Rlt_dec hi x) as [G | G]].
  - rewrite (cdf_entrywise _ _ Hk). cbn [map minval maxval PowerLaw].
    unfold bound_cdf_at.
    replace (Fin x >? Fin hi)%fl with false by (symmetry; fcompare; lra).
    replace (Fin x <? Fin lo)%fl with true by (symmetry; fcompare; lra).
    reflexivity.
  - rewrite (cdf_entrywise _ _ Hk). cbn [map minval maxval PowerLaw].
    unfold bound_cdf_at.
    replace (Fin x >? Fin hi)%fl with true by (symmetry; fcompare; lra).
    now rewrite fexp_zero.
  - apply PowerLaw_cdf_at; [exact Hb | lra].
Qed.

Lemma PL_area_nonneg (lo x alpha : R) :
  0 < lo -> lo <= x -> 0 <= PL_area lo x alpha.
Proof.
  intros Hlo Hx. destruct (Req_dec_T x lo) as [-> | Hne].
  - rewrite PL_area_self; lra.
  - left. apply PL_area_pos. lra.
Qed.

Lemma PL_cdf_below (lo hi alpha x : R) :
  0 < lo < hi -> x <= lo -> PL_cdf lo hi alpha x = 0.
Proof.
  intros Hb Hx. unfold PL_cdf.
  destruct (Rlt_dec x lo); [reflexivity|].
  destruct (Rlt_dec hi x); [lra|].
  replace x with lo by lra. rewrite PL_area_self by lra. unfold Rdiv. ring.
Qed.

Lemma PL_cdf_above (lo hi alpha x : R) :
  0 < lo < hi -> hi <= x -> PL_cdf lo hi alpha x = 1.
Proof.
  intros Hb Hx. unfold PL_cdf.
  destruct (Rlt_dec x lo); [lra|].
  destruct (Rlt_dec hi x); [reflexivity|].
  replace x with hi by lra.
  assert (Hn := PL_area_pos lo hi alpha Hb). field. lra.
Qed.

Lemma PL_cdf_increasing (lo hi alpha x y : R) :
  0 < lo < hi -> lo <= x -> x < y -> y <= hi ->
  PL_cdf lo hi alpha x < PL_cdf lo hi alpha y.
Proof.
  intros Hb Hx Hxy Hy. unfold PL_cdf.
  destruct (Rlt_dec x lo); [lra|]. destruct (Rlt_dec hi x); [lra|].
  destruct (Rlt_dec y lo); [lra|]. destruct (Rlt_dec hi y); [lra|].
  assert (Hn := PL_area_pos lo hi alpha Hb).
  assert (Hi : 0 < / PL_area lo hi alpha) by (apply Rinv_0_lt_compat; lra).
  assert (A := PL_area_increasing lo x y alpha (proj1 Hb) Hx Hxy).
  unfold Rdiv. nra.
Qed.

Lemma PL_cdf_range (lo hi alpha x : R) :
  0 < lo < hi -> 0 <= PL_cdf lo hi alpha x <= 1.
Proof.
  intros Hb.
  destruct (Rle_dec x lo) as [L | L].
  { rewrite PL_cdf_below by assumption. lra. }
  destruct (Rle_dec hi x) as [G | G].
  { rewrite PL_cdf_above by assumption. lra. }
  assert (H0 := PL_cdf_increasing lo hi alpha lo x Hb).
  assert (H1 := PL_cdf_increasing lo hi alpha x hi Hb).
  rewrite (PL_cdf_below lo hi alpha lo) in H0 by lra.
  rewrite (PL_cdf_above lo hi alpha hi) in H1 by lra.
  split; left; [apply H0 | apply H1]; lra.
Qed.

Lemma PL_cdf_monotone (lo hi alpha x y : R) :
  0 < lo < hi -> x <= y -> PL_cdf lo hi alpha x <= PL_cdf lo hi alpha y.
Proof.
  intros Hb Hxy.
  destruct (Rle_dec y lo) as [L | L].
  { rewrite !PL_cdf_below by (assumption || lra). lra. }
  destruct (Rle_dec hi x) as [G | G].
  { rewrite !PL_cdf_above by (assumption || lra). lra. }
  destruct (Rle_dec x lo) as [Lx | Lx].
  { rewrite (PL_cdf_below lo hi alpha x) by assumption.
    apply PL_cdf_range; assumption. }
  destruct (Rle_dec hi y) as [Gy | Gy].
  { rewrite (PL_cdf_above lo hi alpha y) by assumption.
    apply PL_cdf_range; assumption. }
  destruct (Req_dec_T x y) as [-> | Hne]; [lra|].
  left. apply PL_cdf_increasing; lra.
Qed.

(** Outside its bounds a power law has log-density [-inf]. *)
Lemma PowerLaw_pdf_outside (lo hi alpha x : float) :
  ((x <? lo) || (x >? hi))%fl = true ->
  log_pdf (PowerLaw lo hi alpha) [x] = Some [NInf].
Proof.
  intros H.
  rewrite (log_pdf_entrywise _ _ (PowerLaw_log_pdf_entrywise _ _ _)).
  cbn [map minval maxval PowerLaw]. unfold bound_pdf_at. now rewrite H.
Qed.

(** A method evaluated at one point, after the bound mask. *)
Lemma pdf_point (p : basic_1dimpdf) (x y : float) :
  _log_pdf p [x] = Some [y] ->
  pdf p [x] = Some [fexp (bound_pdf_at (minval p) (maxval p) x y)].
Proof. intros H. unfold pdf, log_pdf. rewrite H. reflexivity. Qed.

Lemma cdf_point (p : basic_1dimpdf) (x y : float) :
  _log_cdf p [x] = Some [y] ->
  cdf p [x] = Some [fexp (bound_cdf_at (minval p) (maxval p) x y)].
Proof. intros H. unfold cdf, log_cdf. rewrite H. reflexivity. Qed.

Lemma fexp_flog_nonneg (v : R) : 0 <= v -> fexp (flog (Fin v)) = Fin v.
Proof.
  intros H. cbn [flog]. destruct (Req_dec_T v 0) as [-> | Hne].
  - rewrite R_ltb_false by lra. now rewrite R_eqb_true.
  - rewrite R_ltb_true by lra. cbn [fexp]. f_equal. apply exp_ln. lra.
Qed.

(** The object [BrokenPowerLaw(minpl,maxpl,alpha_1,alpha_2,b)]. *)
Lemma BrokenPowerLaw_init_value (minpl maxpl alpha_1 alpha_2 b : R) :
  0 < minpl < maxpl -> 0 < b < 1 ->
  let bp := minpl + b * (maxpl - minpl) in
  exists l1 l2,
    log_pdf (PowerLaw (Fin minpl) (Fin bp) (Fin alpha_1)) [Fin bp]
    = Some [Fin l1]
    /\ log_pdf (PowerLaw (Fin bp) (Fin maxpl) (Fin alpha_2)) [Fin bp]
       = Some [Fin l2]
    /\ BrokenPowerLaw.init (Fin minpl) (Fin maxpl) (Fin alpha_1)
                           (Fin alpha_2) (Fin b)
       = Some (BrokenPowerLaw.mk (Fin minpl) (Fin maxpl) (Fin alpha_1)
                 (Fin alpha_2) (Fin b) (Fin bp)
                 (PowerLaw (Fin minpl) (Fin bp) (Fin alpha_1))
                 (PowerLaw (Fin bp) (Fin maxpl) (Fin alpha_2))
                 (Fin (1 + exp l1 / exp l2))).
Proof.
  intros Hm Hb bp.
  assert (Hbp : minpl < bp < maxpl) by (unfold bp; nra).
  destruct (PowerLaw_log_pdf_at minpl bp alpha_1 bp) as [l1 [L1 P1]];
    [lra | lra |].
  destruct (PowerLaw_log_pdf_at bp maxpl alpha_2 bp) as [l2 [L2 P2]];
    [lra | lra |].
  exists l1, l2. split; [exact L1|]. split; [exact L2|].
  assert (E2 := exp_pos l2).
  unfold BrokenPowerLaw.init.
  change (Fin minpl + Fin b * (Fin maxpl - Fin minpl))%fl with (Fin bp).
  rewrite P1. cbn [bind nth_error]. rewrite P2. cbn [bind nth_error].
  cbn [fdiv fadd]. rewrite R_eqb_false by lra. reflexivity.
Qed.

(** [_log_pdf] of a broken power law at one point. *)
Lemma BrokenPowerLaw_log_pdf_point (self : BrokenPowerLaw.t) (x a c : float)
    (l1b l2b : R) :
  log_pdf (BrokenPowerLaw.PL1 self) [BrokenPowerLaw.break_point self]
  = Some [Fin l1b] ->
  log_pdf (BrokenPowerLaw.PL2 self) [BrokenPowerLaw.break_point self]
  = Some [Fin l2b] ->
  log_pdf (BrokenPowerLaw.PL1 self) [x] = Some [a] ->
  log_pdf (BrokenPowerLaw.PL2 self) [x] = Some [c] ->
  BrokenPowerLaw._log_pdf self [x]
  = Some [(logaddexp a (c + Fin l1b - Fin l2b)
           - flog (BrokenPowerLaw.norm_fact self))%fl].
Proof.
  intros H1 H2 Ha Hc.
  unfold BrokenPowerLaw._log_pdf, BrokenPowerLaw.log_parts.
  rewrite Ha. cbn [bind]. rewrite Hc. cbn [bind]. rewrite H1. cbn [bind].
  cbn [broadcast2 map]. rewrite H2. reflexivity.
Qed.

(** X15: for [0 < min < max] and [0 < b < 1], with [p1] and [p2] the
    densities of the two power laws at the break point: below the break
    the density of the broken power law is that of the first power law
    over [1 + p1/p2]; above the break it is that of the second power law
    times [p1/p2] over [1 + p1/p2]; at the break point itself, where both
    power laws are inside their bounds, the two parts add up and the
    density is [2 p1 / (1 + p1/p2)]; outside [[min, max]] it is [0]. *)
Theorem BrokenPowerLaw_pdf_branches (minpl maxpl alpha_1 alpha_2 b : R) :
  0 < minpl < maxpl -> 0 < b < 1 ->
  exists self p1 p2,
    BrokenPowerLaw.init (Fin minpl) (Fin maxpl) (Fin alpha_1) (Fin alpha_2)
                        (Fin b) = Some self
    /\ pdf (BrokenPowerLaw.PL1 self) [BrokenPowerLaw.break_point self]
       = Some [Fin p1]
    /\ pdf (BrokenPowerLaw.PL2 self) [BrokenPowerLaw.break_point self]
       = Some [Fin p2]
    /\ 0 < p1 /\ 0 < p2
    /\ pdf (BrokenPowerLaw.as_pdf self) [BrokenPowerLaw.break_point self]
       = Some [Fin (2 * p1 / (1 + p1 / p2))]
    /\ forall x,
         (minpl <= x < minpl + b * (maxpl - minpl) ->
          exists q, pdf (BrokenPowerLaw.PL1 self) [Fin x] = Some [Fin q]
                    /\ pdf (BrokenPowerLaw.as_pdf self) [Fin x]
                       = Some [Fin (q / (1 + p1 / p2))])
         /\ (minpl + b * (maxpl - minpl) < x <= maxpl ->
             exists q, pdf (BrokenPowerLaw.PL2 self) [Fin x] = Some [Fin q]
                       /\ pdf (BrokenPowerLaw.as_pdf self) [Fin x]
                          = Some [Fin (q * (p1 / p2) / (1 + p1 / p2))])
         /\ (x < minpl \/ maxpl < x ->
             pdf (BrokenPowerLaw.as_pdf self) [Fin x] = Some [Fin 0]).
Proof.
  intros Hm Hb.
  destruct (BrokenPowerLaw_init_value minpl maxpl alpha_1 alpha_2 b Hm Hb)
    as [l1 [l2 [L1 [L2 E]]]].
  cbv zeta in *. revert L1 L2 E.
  set (bp := minpl + b * (maxpl - minpl)). intros L1 L2 E.
  assert (Hbp : minpl < bp < maxpl) by (unfold bp; nra).
  assert (E1 := exp_pos l1). assert (E2 := exp_pos l2).
  assert (Hr : 0 < exp l1 / exp l2) by (apply Rdiv_lt_0_compat; lra).
  set (n := 1 + exp l1 / exp l2). assert (Hn : 0 < n) by (unfold n; lra).
  rewrite E. clear E.
  match goal with |- exists s _ _, Some ?o = Some s /\ _ => set (self := o) end.
  exists self, (exp l1), (exp l2).
  split; [reflexivity|].
  cbn [BrokenPowerLaw.PL1 BrokenPowerLaw.PL2 BrokenPowerLaw.break_point self].
  split; [unfold pdf; rewrite L1; reflexivity|].
  split; [unfold pdf; rewrite L2; reflexivity|].
  split; [exact E1|]. split; [exact E2|].
  assert (Hlog : forall x a c,
             log_pdf (PowerLaw (Fin minpl) (Fin bp) (Fin alpha_1)) [x]
             = Some [a] ->
             log_pdf (PowerLaw (Fin bp) (Fin maxpl) (Fin alpha_2)) [x]
             = Some [c] ->
             pdf (BrokenPowerLaw.as_pdf self) [x]
             = Some [fexp (bound_pdf_at (Fin minpl) (Fin maxpl) x
                             (logaddexp a (c + Fin l1 - Fin l2)
                              - Fin (ln n))%fl)]).
  { intros x a c Ha Hc.
    rewrite (pdf_point (BrokenPowerLaw.as_pdf self) x
               (logaddexp a (c + Fin l1 - Fin l2) - Fin (ln n))%fl).
    - reflexivity.
    - cbn [_log_pdf BrokenPowerLaw.as_pdf].
      rewrite (BrokenPowerLaw_log_pdf_point self x a c l1 l2 L1 L2 Ha Hc).
      cbn [BrokenPowerLaw.norm_fact self]. fold n.
      cbn [flog]. now rewrite R_ltb_true by lra. }
  split.
  { rewrite (Hlog (Fin bp) (Fin l1) (Fin l2) L1 L2).
    rewrite within_bounds by (fcompare; lra).
    cbn [fadd fsub fneg]. unfold logaddexp. cbn [fexp fadd].
    assert (0 < exp l1 + exp (l2 + l1 + - l2)).
    { assert (H := exp_pos (l2 + l1 + - l2)). lra. }
    cbn [flog]. rewrite R_ltb_true by lra. cbn [fsub fneg fadd fexp].
    do 3 f_equal.
    rewrite exp_plus, exp_Ropp, !exp_ln by lra.
    replace (l2 + l1 + - l2) with l1 by ring.
    unfold n. field. split; lra. }
  intros x. repeat split.
  - intros Hx.
    destruct (PowerLaw_log_pdf_at minpl bp alpha_1 x) as [l [Lx Px]];
      [lra | lra |].
    exists (exp l). split; [exact Px|].
    rewrite (Hlog (Fin x) (Fin l) NInf Lx).
    + rewrite within_bounds by (fcompare; lra).
      cbn [fadd fsub fneg]. unfold logaddexp. cbn [fexp fadd].
      assert (H := exp_pos l).
      cbn [flog]. rewrite R_ltb_true by lra. cbn [fsub fneg fadd fexp].
      do 3 f_equal.
      rewrite exp_plus, exp_Ropp, !exp_ln by lra.
      unfold n. field. split; lra.
    + apply PowerLaw_pdf_outside.
      replace (Fin x <? Fin bp)%fl with true by (symmetry; fcompare; lra).
      reflexivity.
  - intros Hx.
    destruct (PowerLaw_log_pdf_at bp maxpl alpha_2 x) as [l [Lx Px]];
      [lra | lra |].
    exists (exp l). split; [exact Px|].
    rewrite (Hlog (Fin x) NInf (Fin l)); [| |exact Lx].
    + rewrite within_bounds by (fcompare; lra).
      cbn [fadd fsub fneg]. unfold logaddexp. cbn [fexp fadd].
      assert (H := exp_pos (l + l1 + - l2)).
      cbn [flog]. rewrite R_ltb_true by lra. cbn [fsub fneg fadd fexp].
      do 3 f_equal.
      rewrite exp_plus, exp_Ropp, !exp_ln by lra.
      rewrite Rplus_0_l, !exp_plus, exp_Ropp.
      unfold n. field. split; lra.
    + apply PowerLaw_pdf_outside.
      replace (Fin x >? Fin bp)%fl with true by (symmetry; fcompare; lra).
      apply orb_true_r.
  - intros Hx.
    rewrite (Hlog (Fin x) _ _
               (log_pdf_entrywise _ _ (PowerLaw_log_pdf_entrywise _ _ _) _)
               (log_pdf_entrywise _ _ (PowerLaw_log_pdf_entrywise _ _ _) _)).
    unfold bound_pdf_at at 1.
    replace ((Fin x <? Fin minpl) || (Fin x >? Fin maxpl))%fl with true;
      [reflexivity|].
    symmetry. apply orb_true_iff.
    destruct Hx; [left | right]; fcompare; lra.
Qed.

Lemma BrokenPowerLaw_pdf_branches_witness :
  0 < 5 < 100 /\ 0 < 1 / 2 < 1
  /\ exists self p1 p2,
       BrokenPowerLaw.init (Fin 5) (Fin 100) (Fin (-2)) (Fin (-4))
                           (Fin (1 / 2)) = Some self
       /\ pdf (BrokenPowerLaw.PL1 self) [BrokenPowerLaw.break_point self]
          = Some [Fin p1]
       /\ pdf (BrokenPowerLaw.PL2 self) [BrokenPowerLaw.break_point self]
          = Some [Fin p2]
       /\ pdf (BrokenPowerLaw.as_pdf self) [BrokenPowerLaw.break_point self]
          = Some [Fin (2 * p1 / (1 + p1 / p2))]
       /\ pdf (BrokenPowerLaw.as_pdf self) [Fin 200] = Some [Fin 0].
Proof.
  assert (H1 : 0 < 5 < 100) by lra.
  assert (H2 : 0 < 1 / 2 < 1) by lra.
  split; [exact H1|]. split; [exact H2|].
  destruct (BrokenPowerLaw_pdf_branches 5 100 (-2) (-4) (1 / 2) H1 H2)
    as [self [p1 [p2 [E [P1 [P2 [_ [_ [B A]]]]]]]]].
  exists self, p1, p2.
  repeat (split; [assumption|]).
  apply (A 200). right. lra.
Defined.

(** [_log_cdf] of a broken power law at one point. *)
Lemma BrokenPowerLaw_log_cdf_point (self : BrokenPowerLaw.t) (x : float)
    (c1 c2 p1 p2 n : R) :
  pdf (BrokenPowerLaw.PL1 self) [BrokenPowerLaw.break_point self]
  = Some [Fin p1] ->
  pdf (BrokenPowerLaw.PL2 self) [BrokenPowerLaw.break_point self]
  = Some [Fin p2] ->
  p2 <> 0 -> BrokenPowerLaw.norm_fact self = Fin n -> n <> 0 ->
  cdf (BrokenPowerLaw.PL1 self) [x] = Some [Fin c1] ->
  cdf (BrokenPowerLaw.PL2 self) [x] = Some [Fin c2] ->
  BrokenPowerLaw._log_cdf self [x]
  = Some [flog (Fin ((c1 + c2 * (p1 / p2)) / n))].
Proof.
  intros P1 P2 Hp2 En Hn C1 C2. unfold BrokenPowerLaw._log_cdf.
  rewrite C1. cbn [bind]. rewrite C2. cbn [bind]. rewrite P1. cbn [bind].
  rewrite P2. cbn [bind broadcast2 map fdiv].
  rewrite R_eqb_false by assumption. cbn [fmul fadd]. rewrite En.
  cbn [fdiv]. now rewrite R_eqb_false by assumption.
Qed.

(** X16: for [0 < min < max] and [0 < b < 1], the distribution function of
    the broken power law is [0] at [min], [1 / (1 + p1/p2)] at the break
    point and [1] at [max], and it increases strictly on [[min, max]]. *)
Theorem BrokenPowerLaw_cdf_increasing
    (minpl maxpl alpha_1 alpha_2 b x y : R) :
  0 < minpl < maxpl -> 0 < b < 1 -> minpl <= x -> x < y -> y <= maxpl ->
  exists self p1 p2,
    BrokenPowerLaw.init (Fin minpl) (Fin maxpl) (Fin alpha_1) (Fin alpha_2)
                        (Fin b) = Some self
    /\ pdf (BrokenPowerLaw.PL1 self) [BrokenPowerLaw.break_point self]
       = Some [Fin p1]
    /\ pdf (BrokenPowerLaw.PL2 self) [BrokenPowerLaw.break_point self]
       = Some [Fin p2]
    /\ cdf (BrokenPowerLaw.as_pdf self) [Fin minpl] = Some [Fin 0]
    /\ cdf (BrokenPowerLaw.as_pdf self) [BrokenPowerLaw.break_point self]
       = Some [Fin (1 / (1 + p1 / p2))]
    /\ cdf (BrokenPowerLaw.as_pdf self) [Fin maxpl] = Some [Fin 1]
    /\ exists cx cy,
         cdf (BrokenPowerLaw.as_pdf self) [Fin x] = Some [Fin cx]
         /\ cdf (BrokenPowerLaw.as_pdf self) [Fin y] = Some [Fin cy]
         /\ 0 <= cx /\ cx < cy /\ cy <= 1.
Proof.
  intros Hm Hb Hx Hxy Hy.
  destruct (BrokenPowerLaw_init_value minpl maxpl alpha_1 alpha_2 b Hm Hb)
    as [l1 [l2 [L1 [L2 E]]]].
  cbv zeta in *. revert L1 L2 E.
  set (bp := minpl + b * (maxpl - minpl)). intros L1 L2 E.
  assert (Hbp : minpl < bp < maxpl) by (unfold bp; nra).
  assert (H1 : 0 < minpl < bp) by lra.
  assert (H2 : 0 < bp < maxpl) by lra.
  assert (E1 := exp_pos l1). assert (E2 := exp_pos l2).
  set (r := exp l1 / exp l2).
  assert (Hr : 0 < r) by (apply Rdiv_lt_0_compat; lra).
  assert (Hn : 0 < 1 + r) by lra.
  assert (Hi : 0 < / (1 + r)) by (apply Rinv_0_lt_compat; lra).
  rewrite E. clear E.
  match goal with |- exists s _ _, Some ?o = Some s /\ _ => set (self := o) end.
  exists self, (exp l1), (exp l2).
  split; [reflexivity|].
  cbn [BrokenPowerLaw.PL1 BrokenPowerLaw.PL2 BrokenPowerLaw.break_point self].
  assert (P1 : pdf (PowerLaw (Fin minpl) (Fin bp) (Fin alpha_1)) [Fin bp]
               = Some [Fin (exp l1)]) by (unfold pdf; rewrite L1; reflexivity).
  assert (P2 : pdf (PowerLaw (Fin bp) (Fin maxpl) (Fin alpha_2)) [Fin bp]
               = Some [Fin (exp l2)]) by (unfold pdf; rewrite L2; reflexivity).
  split; [exact P1|]. split; [exact P2|].
  fold r.
  set (F := fun t => (PL_cdf minpl bp alpha_1 t
                      + PL_cdf bp maxpl alpha_2 t * r) / (1 + r)).
  assert (Hcdf : forall t, minpl <= t <= maxpl ->
             cdf (BrokenPowerLaw.as_pdf self) [Fin t] = Some [Fin (F t)]).
  { intros t Ht.
    rewrite (cdf_point (BrokenPowerLaw.as_pdf self) (Fin t)
               (flog (Fin (F t)))).
    - cbn [minval maxval BrokenPowerLaw.as_pdf BrokenPowerLaw.minpl
           BrokenPowerLaw.maxpl self].
      unfold bound_cdf_at.
      replace (Fin t >? Fin maxpl)%fl with false by (symmetry; fcompare; lra).
      replace (Fin t <? Fin minpl)%fl with false by (symmetry; fcompare; lra).
      rewrite fexp_flog_nonneg; [reflexivity|].
      assert (A1 := PL_cdf_range minpl bp alpha_1 t H1).
      assert (A2 := PL_cdf_range bp maxpl alpha_2 t H2).
      unfold F, Rdiv. apply Rmult_le_pos; [nra | lra].
    - cbn [_log_cdf BrokenPowerLaw.as_pdf].
      apply (BrokenPowerLaw_log_cdf_point self (Fin t) _ _ (exp l1) (exp l2)
               (1 + r) P1 P2); try lra.
      + reflexivity.
      + apply PowerLaw_cdf_value; exact H1.
      + apply PowerLaw_cdf_value; exact H2. }
  split.
  { rewrite Hcdf by lra. unfold F.
    rewrite !PL_cdf_below by lra. do 3 f_equal. field. lra. }
  split.
  { rewrite Hcdf by lra. unfold F.
    rewrite PL_cdf_above, PL_cdf_below by lra. do 3 f_equal. field. lra. }
  split.
  { rewrite Hcdf by lra. unfold F.
    rewrite !PL_cdf_above by lra. do 3 f_equal. field. lra. }
  exists (F x), (F y).
  split; [apply Hcdf; lra|]. split; [apply Hcdf; lra|].
  assert (Ax1 := PL_cdf_range minpl bp alpha_1 x H1).
  assert (Ax2 := PL_cdf_range bp maxpl alpha_2 x H2).
  assert (Ay1 := PL_cdf_range minpl bp alpha_1 y H1).
  assert (Ay2 := PL_cdf_range bp maxpl alpha_2 y H2).
  assert (M1 : PL_cdf minpl bp alpha_1 x <= PL_cdf minpl bp alpha_1 y)
    by (apply PL_cdf_monotone; lra).
  assert (M2 : PL_cdf bp maxpl alpha_2 x <= PL_cdf bp maxpl alpha_2 y)
    by (apply PL_cdf_monotone; lra).
  assert (S : PL_cdf minpl bp alpha_1 x < PL_cdf minpl bp alpha_1 y
              \/ PL_cdf bp maxpl alpha_2 x < PL_cdf bp maxpl alpha_2 y).
  { destruct (Rlt_dec x bp) as [Lx | Gx].
    - left. destruct (Rle_dec y bp) as [Ly | Gy].
      + apply PL_cdf_increasing; lra.
      + rewrite (PL_cdf_above minpl bp alpha_1 y) by lra.
        rewrite <- (PL_cdf_above minpl bp alpha_1 bp) by lra.
        apply PL_cdf_increasing; lra.
    - right. apply PL_cdf_increasing; lra. }
  unfold F, Rdiv. repeat split.
  - apply Rmult_le_pos; [nra | lra].
  - apply Rmult_lt_compat_r; [exact Hi|]. destruct S; nra.
  - apply (Rle_trans _ ((1 + r) * / (1 + r))).
    + apply Rmult_le_compat_r; [lra | nra].
    + right. field. lra.
Qed.

Lemma BrokenPowerLaw_cdf_increasing_witness :
  0 < 5 < 100 /\ 0 < 1 / 2 < 1 /\ 5 <= 10 /\ 10 < 60 /\ 60 <= 100
  /\ exists self cx cy,
       BrokenPowerLaw.init (Fin 5) (Fin 100) (Fin (-2)) (Fin (-4))
                           (Fin (1 / 2)) = Some self
       /\ cdf (BrokenPowerLaw.as_pdf self) [Fin 5] = Some [Fin 0]
       /\ cdf (BrokenPowerLaw.as_pdf self) [Fin 100] = Some [Fin 1]
       /\ cdf (BrokenPowerLaw.as_pdf self) [Fin 10] = Some [Fin cx]
       /\ cdf (BrokenPowerLaw.as_pdf self) [Fin 60] = Some [Fin cy]
       /\ cx < cy.
Proof.
  assert (H1 : 0 < 5 < 100) by lra.
  assert (H2 : 0 < 1 / 2 < 1) by lra.
  assert (H3 : 5 <= 10) by lra.
  assert (H4 : 10 < 60) by lra.
  assert (H5 : 60 <= 100) by lra.
  repeat (split; [assumption|]).
  destruct (BrokenPowerLaw_cdf_increasing 5 100 (-2) (-4) (1 / 2) 10 60
              H1 H2 H3 H4 H5)
    as [self [p1 [p2 [E [_ [_ [C0 [_ [C1 [cx [cy [Ex [Ey [_ [L _]]]]]]]]]]]]]]].
  exists self, cx, cy. repeat split; assumption.
Defined.

End broken_power_law_more.

(** ** Paired two-dimensional distribution *)

Section paired_properties.
Import priors entrywise.

(** [-inf] and [nan] absorb any addition, up to each other. *)
Lemma fadd_lost_l (a v : float) :
  a = NInf \/ a = NaN -> (a + v)%fl = NInf \/ (a + v)%fl = NaN.
Proof. intros [-> | ->]; destruct v; cbn; auto. Qed.

Lemma fadd_lost_r (a v : float) :
  a = NInf \/ a = NaN -> (v + a)%fl = NInf \/ (v + a)%fl = NaN.
Proof. intros [-> | ->]; destruct v; cbn; auto. Qed.

(** [y[isnan(y)] = -inf]. *)
Lemma setitem_isnan (y : array) :
  setitem_mask y (map isnan y) (- PInf)%fl
  = Some (map (fun v => if isnan v then NInf else v) y).
Proof.
  pose proof (setitem_mask_map (fun v => v) isnan (- PInf)%fl y) as H.
  now rewrite map_id in H.
Qed.

(** X17: for a base distribution whose [_log_pdf] acts entry by entry and
    a pairing function that returns one value per pair, [log_pdf] of the
    paired distribution returns one value per pair, none of them [nan];
    and where either member of the pair is outside the bounds of the base
    distribution the value is [-inf], whatever the pairing function and
    the normalisation are there. *)
Theorem paired_log_pdf_outside (self : paired_2dimpdf.t)
    (k : float -> float) (x1 x2 : array) :
  acts_as (_log_pdf (paired_2dimpdf.pdf_base self)) k ->
  length x2 = length x1 ->
  length (paired_2dimpdf.pairing_function self x1 x2) = length x1 ->
  let lo := minval (paired_2dimpdf.pdf_base self) in
  let hi := maxval (paired_2dimpdf.pdf_base self) in
  exists y,
    paired_2dimpdf.log_pdf self x1 x2 = Some y
    /\ length y = length x1
    /\ forall i a b,
         nth_error x1 i = Some a -> nth_error x2 i = Some b ->
         exists v,
           nth_error y i = Some v /\ v <> NaN
           /\ (((a <? lo) || (a >? hi) || ((b <? lo) || (b >? hi)))%fl = true ->
               v = NInf).
Proof.
  intros H L2 Lp lo hi. unfold paired_2dimpdf.log_pdf.
  rewrite !(log_pdf_entrywise _ _ H). cbn [bind]. fold lo hi.
  rewrite setitem_isnan.
  set (K := fun x => bound_pdf_at lo hi x (k x)).
  set (pf := paired_2dimpdf.pairing_function self x1 x2) in *.
  set (n := paired_2dimpdf.new_norm self).
  eexists. split; [reflexivity|].
  assert (L12 : length (map2 fadd (map K x1) (map K x2)) = length x1).
  { rewrite map2_length; rewrite !length_map; congruence. }
  split.
  { rewrite !length_map, map2_length; rewrite ?length_map; congruence. }
  intros i a b Ha Hb.
  destruct (nth_error_same_length x1 pf i a (eq_sym Lp) Ha) as [p Hp].
  set (w := (K a + K b + flog p - flog n)%fl).
  exists (if isnan w then NInf else w).
  split.
  { apply (map_nth_error (fun v => if isnan v then NInf else v)).
    apply (map_nth_error (fun v => (v - flog n)%fl)).
    apply nth_error_map2.
    - apply nth_error_map2; now apply map_nth_error.
    - now apply map_nth_error. }
  split.
  { destruct w; cbn; discriminate. }
  intros Hout.
  assert (D : (K a + K b)%fl = NInf \/ (K a + K b)%fl = NaN).
  { apply orb_true_iff in Hout. destruct Hout as [O | O].
    - apply fadd_lost_l. left. unfold K, bound_pdf_at. now rewrite O.
    - apply fadd_lost_r. left. unfold K, bound_pdf_at. now rewrite O. }
  assert (D' : w = NInf \/ w = NaN).
  { unfold w, fsub. now apply fadd_lost_l, fadd_lost_l. }
  destruct D' as [-> | ->]; reflexivity.
Qed.

Lemma paired_log_pdf_outside_witness :
  let self :=
    paired_2dimpdf.mk (PowerLaw (Fin 5) (Fin 100) (Fin (-2)))
                      (fun x1 x2 => map2 fdiv x2 x1) (Fin 1) in
  (exists k, acts_as (_log_pdf (paired_2dimpdf.pdf_base self)) k)
  /\ length [Fin 10] = length [Fin 200]
  /\ length (paired_2dimpdf.pairing_function self [Fin 200] [Fin 10])
     = length [Fin 200]
  /\ exists y,
       paired_2dimpdf.log_pdf self [Fin 200] [Fin 10] = Some y
       /\ nth_error y 0 = Some NInf.
Proof.
  intros self.
  assert (H1 := PowerLaw_log_pdf_entrywise (Fin 5) (Fin 100) (Fin (-2))).
  assert (H2 : length [Fin 10] = length [Fin 200]) by reflexivity.
  assert (H3 : length (paired_2dimpdf.pairing_function self [Fin 200]
                         [Fin 10]) = length [Fin 200]) by reflexivity.
  split; [eexists; exact H1|]. split; [exact H2|]. split; [exact H3|].
  destruct (paired_log_pdf_outside self _ [Fin 200] [Fin 10] H1 H2 H3)
    as [y [E [_ A]]].
  exists y. split; [exact E|].
  destruct (A 0%nat (Fin 200) (Fin 10) eq_refl eq_refl) as [v [Ev [_ O]]].
  rewrite Ev. f_equal. apply O.
  cbn [minval maxval paired_2dimpdf.pdf_base self PowerLaw].
  replace (Fin 200 >? Fin 100)%fl with true by (symmetry; fcompare; lra).
  rewrite orb_true_r. reflexivity.
Defined.

End paired_properties.

(** ** Piecewise-constant two-dimensional distribution *)

Section piecewise_properties.
Import priors entrywise.
Import piecewise_constant_2d_distribution_normalized.

(** The product of two consecutive integers is even. *)
Lemma consecutive_half (j : Z) :
  exists t, (j * (j + 1) / 2 = t /\ j * (j + 1) = 2 * t)%Z.
Proof.
  destruct (Z.Even_or_Odd j) as [[m ->] | [m ->]].
  - exists (m * (2 * m + 1))%Z.
    replace (2 * m * (2 * m + 1))%Z with (m * (2 * m + 1) * 2)%Z by ring.
    rewrite Z.div_mul by discriminate. split; ring.
  - exists ((2 * m + 1) * (m + 1))%Z.
    replace ((2 * m + 1) * (2 * m + 1 + 1))%Z
      with ((2 * m + 1) * (m + 1) * 2)%Z by ring.
    rewrite Z.div_mul by discriminate. split; ring.
Qed.

(** The flat position of the grid cell [(i, j)]. *)
Lemma compute_flat_position_value (n i j : Z) :
  compute_flat_position n ([Fin (IZR i)], [Fin (IZR j)])
  = [Fin (IZR (i + n * j - j * (j + 1) / 2))].
Proof.
  destruct (consecutive_half j) as [t [Et E2]].
  unfold compute_flat_position.
  cbn [fst snd map map2 fmul fadd fdiv fsub fneg].
  rewrite R_eqb_false by lra. cbn [fadd fneg].
  do 2 f_equal. rewrite Et.
  apply (f_equal IZR) in E2. rewrite !mult_IZR, plus_IZR in E2.
  rewrite minus_IZR, plus_IZR, mult_IZR. lra.
Qed.

(** X18: on the triangle [0 <= j <= i < n] of grid cells,
    [compute_flat_position] returns whole numbers in
    [[0, n (n + 1) / 2)], the range of the indices of the weights, and two
    different cells never get the same number. *)
Theorem compute_flat_position_injective (n i j i' j' : Z) :
  (0 <= j <= i)%Z -> (i < n)%Z -> (0 <= j' <= i')%Z -> (i' < n)%Z ->
  exists k k',
    compute_flat_position n ([Fin (IZR i)], [Fin (IZR j)]) = [Fin (IZR k)]
    /\ compute_flat_position n ([Fin (IZR i')], [Fin (IZR j')])
       = [Fin (IZR k')]
    /\ (0 <= k)%Z /\ (2 * k < n * (n + 1))%Z
    /\ (k = k' -> i = i' /\ j = j').
Proof.
  intros Hj Hi Hj' Hi'.
  exists (i + n * j - j * (j + 1) / 2)%Z, (i' + n * j' - j' * (j' + 1) / 2)%Z.
  split; [apply compute_flat_position_value|].
  split; [apply compute_flat_position_value|].
  destruct (consecutive_half j) as [t [-> E]].
  destruct (consecutive_half j') as [t' [-> E']].
  split; [nia|]. split; [nia|].
  intros K.
  assert (J : j = j').
  { destruct (Z.lt_trichotomy j j') as [L | [Q | G]]; [|exact Q|].
    - exfalso.
      assert (0 <= (j' - j - 1) * (2 * n - j - j'))%Z
        by (apply Z.mul_nonneg_nonneg; lia).
      nia.
    - exfalso.
      assert (0 <= (j - j' - 1) * (2 * n - j - j'))%Z
        by (apply Z.mul_nonneg_nonneg; lia).
      nia. }
  subst j'. split; [lia | reflexivity].
Qed.

Lemma compute_flat_position_injective_witness :
  (0 <= 1 <= 2)%Z /\ (2 < 3)%Z /\ (0 <= 2 <= 2)%Z /\ (2 < 3)%Z
  /\ exists k k',
       compute_flat_position 3 ([Fin 2], [Fin 1]) = [Fin (IZR k)]
       /\ compute_flat_position 3 ([Fin 2], [Fin 2]) = [Fin (IZR k')]
       /\ k <> k'.
Proof.
  assert (H1 : (0 <= 1 <= 2)%Z) by lia.
  assert (H2 : (2 < 3)%Z) by lia.
  assert (H3 : (0 <= 2 <= 2)%Z) by lia.
  repeat (split; [assumption|]).
  destruct (compute_flat_position_injective 3 2 1 2 2 H1 H2 H3 H2)
    as [k [k' [E [E' [_ [_ I]]]]]].
  exists k, k'. split; [exact E|]. split; [exact E'|].
  intros Q. destruct (I Q) as [_ C]. discriminate C.
Defined.

(** The expression [int(-1/2 + sqrt(1/4 + 2 n_bins))] is the [n] with
    [n (n + 1) / 2 <= n_bins < (n + 1) (n + 2) / 2]. *)
Lemma n_bins_1d_value (n_bins n : nat) :
  (n * (n + 1) <= 2 * n_bins)%nat -> (2 * n_bins < (n + 1) * (n + 2))%nat ->
  n_bins_1d n_bins = Some (Z.of_nat n).
Proof.
  intros Hlo Hhi.
  apply le_INR in Hlo. apply lt_INR in Hhi.
  rewrite mult_INR, plus_INR, mult_INR in Hlo.
  rewrite !mult_INR, !plus_INR in Hhi. cbn [INR] in Hlo, Hhi.
  assert (Hn := pos_INR n). assert (Hm := pos_INR n_bins).
  set (S := INR n) in *. set (M := INR n_bins) in *.
  assert (Hs : S + 1 / 2 <= sqrt (1 / 4 + 2 * M) < S + 3 / 2).
  { split.
    - rewrite <- (sqrt_square (S + 1 / 2)) by lra.
      apply sqrt_le_1_alt. nra.
    - rewrite <- (sqrt_square (S + 3 / 2)) by lra.
      apply sqrt_lt_1_alt. nra. }
  unfold n_bins_1d, of_nat. fold M.
  cbn [fdiv fmul fadd]. rewrite !R_eqb_false by lra.
  cbn [fadd fsqrt]. rewrite R_ltb_false by nra. cbn [fadd int_of_float].
  rewrite R_ltb_false by lra. f_equal. symmetry.
  apply Int_part_spec. rewrite <- INR_IZR_INZ. fold S. lra.
Qed.

Lemma triangular_double (n : nat) :
  (2 * (n * (n + 1) / 2) = n * (n + 1))%nat.
Proof.
  destruct (Nat.Even_or_Odd n) as [[m ->] | [m ->]].
  - replace (2 * m * (2 * m + 1))%nat with (m * (2 * m + 1) * 2)%nat by lia.
    rewrite Nat.div_mul by discriminate. lia.
  - replace ((2 * m + 1) * (2 * m + 1 + 1))%nat
      with ((2 * m + 1) * (m + 1) * 2)%nat by lia.
    rewrite Nat.div_mul by discriminate. lia.
Qed.

(** X19: the expression that [__init__] stores in [n_bins_1d] inverts the
    triangular numbers: for [n (n + 1) / 2] weights, the number of weights
    of a triangle of [n] bins per axis, it is exactly [n]. *)
Theorem n_bins_1d_inverts_triangular (n : nat) :
  n_bins_1d (n * (n + 1) / 2) = Some (Z.of_nat n).
Proof.
  apply n_bins_1d_value; rewrite triangular_double; lia.
Qed.

End piecewise_properties.

(** ** The linear mixing function *)

Section mixed_linear.
Import priors.

(** X20: for [0 <= x <= 1], [_mixed_linear_function] returns a value
    between [mix_x0] and [mix_x1]: [mix_x0] at [x = 0] and [mix_x1] at
    [x = 1]. *)
Theorem mixed_linear_between (x mix_x0 mix_x1 : R) :
  0 <= x <= 1 ->
  exists v,
    _mixed_linear_function [Fin x] (Fin mix_x0) (Fin mix_x1) = [Fin v]
    /\ Rmin mix_x0 mix_x1 <= v <= Rmax mix_x0 mix_x1
    /\ (x = 0 -> v = mix_x0) /\ (x = 1 -> v = mix_x1).
Proof.
  intros Hx. eexists. split; [reflexivity|].
  split.
  - unfold Rmin, Rmax. destruct (Rle_dec mix_x0 mix_x1); split; nra.
  - split; intros ->; ring.
Qed.

Lemma mixed_linear_between_witness :
  0 <= 1 / 2 <= 1
  /\ exists v,
       _mixed_linear_function [Fin (1 / 2)] (Fin 2) (Fin 4) = [Fin v]
       /\ Rmin 2 4 <= v <= Rmax 2 4.
Proof.
  assert (H : 0 <= 1 / 2 <= 1) by lra.
  split; [exact H|].
  destruct (mixed_linear_between (1 / 2) 2 4 H) as [v [E [B _]]].
  exists v. split; assumption.
Defined.

End mixed_linear.

(** ** Smoothing over a window of width zero *)

Section lowpass_zero_width.
Import priors entrywise.
Import LowpassSmoothedProb.

Lemma map2_repeat {A B C} (f : A -> B -> C) (a : A) (b : B) (n : nat) :
  map2 f (repeat a n) (repeat b n) = repeat (f a b) n.
Proof. induction n as [|n IH]; simpl; [reflexivity | now rewrite IH]. Qed.

Lemma removelast_repeat {A} (a : A) (n : nat) :
  removelast (repeat a (S n)) = repeat a n.
Proof.
  induction n as [|n IH]; [reflexivity|].
  change (removelast (repeat a (S (S n))))
    with (a :: removelast (repeat a (S n))).
  now rewrite IH.
Qed.

Lemma fsum_zeros (n : nat) : fsum (repeat (Fin 0) n) = Fin 0.
Proof.
  unfold fsum. induction n as [|n IH]; [reflexivity|].
  cbn [repeat fold_left fadd].
  replace (0 + 0) with 0 by lra. exact IH.
Qed.

(** The trapezoid sum over a grid of equal points is zero. *)
Lemma trapz_flat (a c : R) (n : nat) :
  trapz (repeat (Fin c) n) (repeat (Fin a) n) = Fin 0.
Proof.
  destruct n as [|n]; [reflexivity|].
  unfold trapz, diff.
  change (tl (repeat (Fin c) (S n))) with (repeat (Fin c) n).
  change (tl (repeat (Fin a) (S n))) with (repeat (Fin a) n).
  rewrite !removelast_repeat, !map2_repeat, map_repeat.
  cbn [fsub fneg fadd fmul fdiv]. rewrite R_eqb_false by lra.
  replace ((a + - a) * (c + c) / 2) with 0 by (field; lra).
  apply fsum_zeros.
Qed.

(** [numpy.linspace] between two equal points. *)
Lemma linspace_flat (a : R) (num : nat) :
  linspace (Fin a) (Fin a + Fin 0) num = repeat (Fin a) num.
Proof.
  assert (E0 : (Fin a + Fin 0)%fl = Fin a)
    by (cbn [fadd]; f_equal; lra).
  rewrite E0.
  destruct num as [|[|d]]; [reflexivity | reflexivity |].
  unfold linspace.
  assert (Hd : 0 < INR (S d)) by (apply lt_0_INR; lia).
  rewrite (map_ext_in _ (fun _ => Fin a)).
  - rewrite map_const, length_seq. symmetry. apply (repeat_cons (S d) (Fin a)).
  - intros i _. unfold of_nat. cbn [fsub fneg fadd fdiv].
    rewrite R_eqb_false by lra. cbn [feqb].
    rewrite R_eqb_true by (field; lra).
    cbn [fmul fadd]. f_equal. field. lra.
Qed.

(** X21: smoothing over a window of width zero changes nothing: for a
    base distribution whose [_log_pdf] acts entry by entry, with a finite
    lower bound and a finite density there, the constructor returns an
    object whose two integrals are [0], whose normalisation is [1], and
    whose [log_pdf] and [pdf] are those of the base distribution on
    every array. *)
Theorem LowpassSmoothedProb_zero_width (p : basic_1dimpdf) (bot c : R) :
  (exists kp, acts_as (priors._log_pdf p) kp) ->
  minval p = Fin bot ->
  pdf p [Fin bot] = Some [Fin c] ->
  exists self,
    init p (Fin 0) = Some self
    /\ integral_before self = Fin 0 /\ integral_now self = Fin 0
    /\ norm self = Fin 1
    /\ forall x, log_pdf (as_pdf self) x = log_pdf p x
                 /\ pdf (as_pdf self) x = pdf p x.
Proof.
  intros [kp Hp] Hbot Hc.
  pose proof (init_value p (Fin 0) kp Hp) as E. cbv zeta in E.
  rewrite <- Hbot in Hc.
  rewrite (pdf_entrywise p kp Hp) in Hc. cbn [map] in Hc.
  injection Hc as Hc.
  assert (G : forall num, linspace (minval p) (minval p + Fin 0) num
                          = repeat (minval p) num)
    by (intros num; rewrite Hbot; apply linspace_flat).
  revert E. rewrite G. generalize 1000%nat. intros n E.
  eexists. split; [exact E|].
  cbn [integral_before integral_now norm].
  assert (W : forall v, highpass_at (minval p) (Fin 0) v = Fin 1).
  { intros v. unfold highpass_at. cbn [feqb].
    now rewrite R_eqb_true by reflexivity. }
  assert (Ib : trapz
                 (map (fun x => fexp (bound_pdf_at (minval p) (maxval p) x
                                        (kp x)))
                      (repeat (minval p) n)) (repeat (minval p) n) = Fin 0).
  { rewrite map_repeat, Hc, Hbot. apply trapz_flat. }
  assert (In : trapz
                 (map2 fmul
                    (map (fun x => fexp (bound_pdf_at (minval p) (maxval p) x
                                           (kp x)))
                         (repeat (minval p) n))
                    (map (highpass_at (minval p) (Fin 0))
                         (repeat (minval p) n)))
                 (repeat (minval p) n) = Fin 0).
  { rewrite !map_repeat, map2_repeat, Hc, W, Hbot. cbn [fmul].
    apply trapz_flat. }
  rewrite Ib, In.
  assert (N : (Fin 1 - Fin 0 + Fin 0)%fl = Fin 1)
    by (cbn [fsub fneg fadd]; f_equal; lra).
  split; [reflexivity|]. split; [reflexivity|]. split; [exact N|].
  intros x.
  match goal with
  | |- log_pdf (as_pdf ?o) _ = _ /\ _ => set (self := o)
  end.
  assert (L : log_pdf (as_pdf self) x = log_pdf p x).
  { rewrite (log_pdf_entrywise (as_pdf self) _
               (LowpassSmoothedProb_log_pdf_entrywise self kp Hp)).
    rewrite (log_pdf_entrywise p kp Hp).
    f_equal. apply map_ext. intros v.
    cbn [minval maxval as_pdf self_minval self_maxval origin_prob bottom
         bottom_smooth norm self].
    rewrite N, W.
    unfold bound_pdf_at.
    destruct ((v <? minval p) || (v >? maxval p))%fl; [reflexivity|].
    cbn [flog]. rewrite R_ltb_true by lra.
    destruct (kp v); cbn [fsub fneg fadd]; try reflexivity.
    f_equal. ring. }
  split; [exact L|].
  unfold pdf. now rewrite L.
Qed.

Lemma LowpassSmoothedProb_zero_width_witness :
  let p := PowerLaw (Fin 5) (Fin 100) (Fin (-2)) in
  (exists kp, acts_as (priors._log_pdf p) kp)
  /\ minval p = Fin 5
  /\ (exists c, pdf p [Fin 5] = Some [Fin c])
  /\ exists self,
       init p (Fin 0) = Some self /\ norm self = Fin 1
       /\ pdf (as_pdf self) [Fin 10] = pdf p [Fin 10].
Proof.
  intros p.
  assert (H1 : exists kp, acts_as (priors._log_pdf p) kp)
    by (eexists; apply PowerLaw_log_pdf_entrywise).
  assert (H2 : minval p = Fin 5) by reflexivity.
  assert (H3 : pdf p [Fin 5]
               = Some [Fin (Rpower 5 (-2) / PL_area 5 100 (-2))])
    by (apply PowerLaw_pdf_at; lra).
  split; [exact H1|]. split; [exact H2|]. split; [eexists; exact H3|].
  destruct (LowpassSmoothedProb_zero_width p 5 _ H1 H2 H3)
    as [self [E [_ [_ [N A]]]]].
  exists self. split; [exact E|]. split; [exact N|].
  apply (A [Fin 10]).
Defined.

End lowpass_zero_width.

(** ** The stationary power law *)

Section stationary_power_law.
Import priors entrywise.

(** X22: [PowerLawStationary(alpha, mmin, mmax)], for [0 < mmin < mmax], is
    the normalised power law of exponent [-alpha]: its density at [m] in
    [[mmin, mmax]] is [m ^ -alpha] over the integral of [t ^ -alpha] on
    [[mmin, mmax]], and it is [0] outside. *)
Theorem PowerLawStationary_pdf_value (alpha mmin mmax m : R) :
  0 < mmin < mmax ->
  let self := PowerLawStationary.init (Fin alpha) (Fin mmin) (Fin mmax) in
  (mmin <= m <= mmax ->
   PowerLawStationary.pdf self [Fin m]
   = Some [Fin (Rpower m (- alpha) / PL_area mmin mmax (- alpha))])
  /\ (m < mmin \/ mmax < m ->
      PowerLawStationary.pdf self [Fin m] = Some [Fin 0]).
Proof.
  intros Hb self.
  destruct (PowerLawStationary_is_PowerLaw (Fin alpha) (Fin mmin) (Fin mmax)
              [Fin m]) as [_ [_ E]].
  fold self in E. rewrite E. cbn [fneg].
  split.
  - intros Hm. now apply PowerLaw_pdf_at.
  - intros Hm. unfold pdf. rewrite PowerLaw_pdf_outside; [reflexivity|].
    apply orb_true_iff. destruct Hm; [left | right]; fcompare; lra.
Qed.

Lemma PowerLawStationary_pdf_value_witness :
  0 < 5 < 100
  /\ PowerLawStationary.pdf
       (PowerLawStationary.init (Fin 2) (Fin 5) (Fin 100)) [Fin 10]
     = Some [Fin (Rpower 10 (- 2) / PL_area 5 100 (- 2))]
  /\ PowerLawStationary.pdf
       (PowerLawStationary.init (Fin 2) (Fin 5) (Fin 100)) [Fin 200]
     = Some [Fin 0].
Proof.
  assert (H : 0 < 5 < 100) by lra.
  split; [exact H|].
  destruct (PowerLawStationary_pdf_value 2 5 100 10 H) as [A _].
  destruct (PowerLawStationary_pdf_value 2 5 100 200 H) as [_ B].
  split; [apply A | apply B]; lra.
Defined.

End stationary_power_law.

(** ** Further concrete evaluations *)

Section more_examples.
Import likelihood stages fixtures priors.

(** An evaluator whose test on [Neff] rejects: 5 effective injections
    where 1000 are required. *)
Lemma log_likelihood_is_v1_then_nan_to_num_witness :
  let hl := with_neffINJ (Fin 5) (Fin 1000) in
  no_gate_fires hl = false
  /\ fst (log_likelihood_v1 hl) = Returned NInf
  /\ fst (log_likelihood hl) = Returned (Fin (- DBL_MAX)).
Proof.
  intros hl.
  assert (G : no_gate_fires hl = false).
  { unfold no_gate_fires, gate_INJ. cbn. rdecide. reflexivity. }
  destruct (log_likelihood_is_v1_then_nan_to_num hl) as [_ [E V]].
  split; [exact G|]. split; [exact (V G)|].
  rewrite E, (V G). reflexivity.
Defined.

(** A hard step from 3 to 4 at the transition point 2, evaluated at 1. *)
Lemma mixed_double_sigmoid_zero_width_witness :
  1 < 2
  /\ exists r,
       _mixed_double_sigmoid_function [Fin 1] (Fin 2) (Fin 0) (Fin 3) (Fin 4)
       = [Fin r]
       /\ r = 3.
Proof.
  assert (H : 1 < 2) by lra.
  split; [exact H|].
  exact (proj1 (mixed_double_sigmoid_zero_width 1 2 3 4) H).
Defined.

End more_examples.

(** ** Power law plus Gaussian peak *)

Section mixture_properties.
Import priors entrywise.

(** A density returned by [pdf] or [cdf] is the exponential of a
    log-density that is a number or [-inf]. *)
Lemma fexp_finite (l : float) (p : R) :
  fexp l = Fin p -> 0 <= p /\ (l = NInf \/ exists r, l = Fin r).
Proof.
  destruct l as [r | | |]; cbn [fexp]; intros H; try discriminate.
  - injection H as <-. split; [left; apply exp_pos | right; eauto].
  - injection H as <-. split; [lra | now left].
Qed.

Lemma exp_of_logs (y : array) (p : R) :
  map fexp y = [Fin p] -> exists l, y = [l] /\ fexp l = Fin p.
Proof.
  destruct y as [|l [|? ?]]; cbn [map]; intros H; try discriminate.
  injection H as H. eauto.
Qed.

(** A weight applied in log space. *)
Lemma weighted_in_log_space (w p : R) (l : float) :
  0 <= w -> fexp l = Fin p -> fexp (flog (Fin w) + l) = Fin (w * p).
Proof.
  intros Hw Hl. cbn [flog].
  destruct (fexp_finite l p Hl) as [_ [-> | [r ->]]];
    cbn [fexp] in Hl; injection Hl as <-.
  - destruct (Req_dec_T w 0) as [-> | Hne].
    + rewrite R_ltb_false by lra. rewrite R_eqb_true by reflexivity.
      cbn [fadd fexp]. f_equal. ring.
    + rewrite R_ltb_true by lra. cbn [fadd fexp]. f_equal. ring.
  - destruct (Req_dec_T w 0) as [-> | Hne].
    + rewrite R_ltb_false by lra. rewrite R_eqb_true by reflexivity.
      cbn [fadd fexp]. f_equal. ring.
    + rewrite R_ltb_true by lra. cbn [fadd fexp]. f_equal.
      rewrite exp_plus, exp_ln by lra. reflexivity.
Qed.

(** X23: [PowerLawGaussian] is the mixture it is meant to be.  For a
    fraction [0 <= lambdag <= 1], at a point where the two components have
    finite densities [p] and [g] and distribution functions [cp] and [cg],
    the log-density computed with [log1p] and [logaddexp] is the logarithm
    of [(1 - lambdag) p + lambdag g], and [_log_cdf] is the logarithm of
    [(1 - lambdag) cp + lambdag cg]; this includes the points where one or
    both components vanish and the fractions [0] and [1]. *)
Theorem PowerLawGaussian_mixture (self : PowerLawGaussian.t) (x : float)
    (lam p g cp cg : R) :
  PowerLawGaussian.lambdag self = Fin lam -> 0 <= lam <= 1 ->
  pdf (PowerLawGaussian.PL self) [x] = Some [Fin p] ->
  pdf (PowerLawGaussian.TG self) [x] = Some [Fin g] ->
  cdf (PowerLawGaussian.PL self) [x] = Some [Fin cp] ->
  cdf (PowerLawGaussian.TG self) [x] = Some [Fin cg] ->
  exists lp lc,
    PowerLawGaussian._log_pdf self [x] = Some [lp]
    /\ fexp lp = Fin ((1 - lam) * p + lam * g)
    /\ PowerLawGaussian._log_cdf self [x] = Some [lc]
    /\ fexp lc = Fin ((1 - lam) * cp + lam * cg).
Proof.
  intros Hl Hlam Hp Hg Hcp Hcg.
  unfold pdf in Hp, Hg.
  destruct (log_pdf (PowerLawGaussian.PL self) [x]) as [yp|] eqn:Ep;
    [|discriminate].
  destruct (log_pdf (PowerLawGaussian.TG self) [x]) as [yg|] eqn:Eg;
    [|discriminate].
  cbn [bind] in Hp, Hg. injection Hp as Hp. injection Hg as Hg.
  destruct (exp_of_logs yp p Hp) as [l1 [-> H1]].
  destruct (exp_of_logs yg g Hg) as [l2 [-> H2]].
  assert (Cp : 0 <= cp /\ 0 <= cg).
  { unfold cdf in Hcp, Hcg.
    destruct (log_cdf (PowerLawGaussian.PL self) [x]) as [zp|]; [|discriminate].
    destruct (log_cdf (PowerLawGaussian.TG self) [x]) as [zg|]; [|discriminate].
    cbn [bind] in Hcp, Hcg. injection Hcp as Hcp. injection Hcg as Hcg.
    destruct (exp_of_logs zp cp Hcp) as [? [_ A]].
    destruct (exp_of_logs zg cg Hcg) as [? [_ B]].
    split; [apply (fexp_finite _ _ A) | apply (fexp_finite _ _ B)]. }
  assert (W1 := weighted_in_log_space (1 + - lam) p l1 ltac:(lra) H1).
  assert (W2 := weighted_in_log_space lam g l2 (proj1 Hlam) H2).
  assert (P0 := proj1 (fexp_finite l1 p H1)).
  assert (G0 := proj1 (fexp_finite l2 g H2)).
  eexists. eexists.
  split.
  { unfold PowerLawGaussian._log_pdf. rewrite Ep, Eg, Hl.
    cbn [bind map broadcast2]. reflexivity. }
  split.
  { unfold logaddexp, flog1p. cbn [fneg fadd] in *.
    cbn [fadd]. rewrite W1, W2. cbn [fadd].
    rewrite fexp_flog_nonneg by nra. f_equal; ring. }
  split.
  { unfold PowerLawGaussian._log_cdf. rewrite Hcp, Hcg, Hl.
    cbn [bind map broadcast2]. reflexivity. }
  cbn [fsub fneg fadd fmul].
  rewrite fexp_flog_nonneg by nra. f_equal; ring.
Qed.

Lemma PowerLawGaussian_mixture_witness :
  let self :=
    PowerLawGaussian.mk (Fin 5) (Fin 100) (Fin (1 / 4))
      (PowerLaw (Fin 5) (Fin 100) (Fin (-2)))
      (PowerLaw (Fin 20) (Fin 50) (Fin 0)) in
  PowerLawGaussian.lambdag self = Fin (1 / 4) /\ 0 <= 1 / 4 <= 1
  /\ exists p g lp,
       pdf (PowerLawGaussian.PL self) [Fin 30] = Some [Fin p]
       /\ pdf (PowerLawGaussian.TG self) [Fin 30] = Some [Fin g]
       /\ PowerLawGaussian._log_pdf self [Fin 30] = Some [lp]
       /\ fexp lp = Fin ((1 - 1 / 4) * p + 1 / 4 * g).
Proof.
  intros self.
  assert (H1 : PowerLawGaussian.lambdag self = Fin (1 / 4)) by reflexivity.
  assert (H2 : 0 <= 1 / 4 <= 1) by lra.
  assert (H3 : pdf (PowerLawGaussian.PL self) [Fin 30]
               = Some [Fin (Rpower 30 (-2) / PL_area 5 100 (-2))])
    by (apply PowerLaw_pdf_at; lra).
  assert (H4 : pdf (PowerLawGaussian.TG self) [Fin 30]
               = Some [Fin (Rpower 30 0 / PL_area 20 50 0)])
    by (apply PowerLaw_pdf_at; lra).
  assert (H5 : cdf (PowerLawGaussian.PL self) [Fin 30]
               = Some [Fin (PL_cdf 5 100 (-2) 30)])
    by (apply PowerLaw_cdf_value; lra).
  assert (H6 : cdf (PowerLawGaussian.TG self) [Fin 30]
               = Some [Fin (PL_cdf 20 50 0 30)])
    by (apply PowerLaw_cdf_value; lra).
  split; [exact H1|]. split; [exact H2|].
  destruct (PowerLawGaussian_mixture self (Fin 30) _ _ _ _ _
              H1 H2 H3 H4 H5 H6) as [lp [lc [E [V _]]]].
  eexists. eexists. exists lp.
  split; [exact H3|]. split; [exact H4|]. split; [exact E | exact V].
Defined.

End mixture_properties.

(** ** The density of the broken power law at the break point *)

Section broken_power_law_break.
Import priors entrywise.

(** Powers are continuous in their base. *)
Lemma Rpower_continuous (a x0 eps : R) :
  0 < x0 -> 0 < eps ->
  exists delta,
    0 < delta
    /\ forall x, Rabs (x - x0) < delta ->
                 Rabs (Rpower x a - Rpower x0 a) < eps.
Proof.
  intros Hx He.
  assert (D : derivable_pt (fun t => Rpower t a) x0).
  { exists (a * Rpower x0 (a - 1)). now apply derivable_pt_lim_power. }
  pose proof (derivable_continuous_pt _ _ D) as C.
  unfold continuity_pt, continue_in, limit1_in, limit_in in C.
  destruct (C eps He) as [delta [Hd H]]. cbn in H. unfold R_dist in H.
  exists delta. split; [exact Hd|]. intros x Hxd.
  destruct (Req_dec_T x x0) as [-> | Hne].
  - unfold Rminus. rewrite Rplus_opp_r, Rabs_R0. exact He.
  - apply H. split; [|exact Hxd].
    split; [exact I | intros E; apply Hne; now symmetry].
Qed.

Lemma scaled_close (d k eps : R) :
  0 < k -> Rabs d < eps * k -> Rabs (d / k) < eps.
Proof.
  intros Hk H. unfold Rdiv.
  rewrite Rabs_mult, (Rabs_pos_eq (/ k))
    by (left; now apply Rinv_0_lt_compat).
  apply (Rmult_lt_reg_r k); [exact Hk|].
  rewrite Rmult_assoc, Rinv_l by lra. lra.
Qed.

(** The log-density of a power law on its support, with its exponential. *)
Lemma PowerLaw_log_pdf_exp (lo hi alpha x : R) :
  0 < lo < hi -> lo <= x <= hi ->
  exists l,
    log_pdf (PowerLaw (Fin lo) (Fin hi) (Fin alpha)) [Fin x] = Some [Fin l]
    /\ exp l = Rpower x alpha / PL_area lo hi alpha.
Proof.
  intros Hb Hx.
  destruct (PowerLaw_log_pdf_at lo hi alpha x Hb Hx) as [l [L P]].
  exists l. split; [exact L|].
  rewrite (PowerLaw_pdf_at lo hi alpha x Hb Hx) in P. now injection P.
Qed.

(** The density of [BrokenPowerLaw(minpl,maxpl,alpha_1,alpha_2,b)] in
    closed form: below the break point, above it, and at it. *)
Lemma BrokenPowerLaw_pdf_formula (minpl maxpl alpha_1 alpha_2 b : R) :
  0 < minpl < maxpl -> 0 < b < 1 ->
  let bp := minpl + b * (maxpl - minpl) in
  let A1 := PL_area minpl bp alpha_1 in
  let A2 := PL_area bp maxpl alpha_2 in
  let p1 := Rpower bp alpha_1 / A1 in
  let p2 := Rpower bp alpha_2 / A2 in
  let n := 1 + p1 / p2 in
  exists self,
    BrokenPowerLaw.init (Fin minpl) (Fin maxpl) (Fin alpha_1) (Fin alpha_2)
                        (Fin b) = Some self
    /\ BrokenPowerLaw.break_point self = Fin bp
    /\ BrokenPowerLaw.norm_fact self = Fin n
    /\ pdf (BrokenPowerLaw.PL1 self) [Fin bp] = Some [Fin p1]
    /\ pdf (BrokenPowerLaw.PL2 self) [Fin bp] = Some [Fin p2]
    /\ pdf (BrokenPowerLaw.as_pdf self) [Fin bp] = Some [Fin (2 * (p1 / n))]
    /\ (forall x, minpl <= x < bp ->
         pdf (BrokenPowerLaw.as_pdf self) [Fin x]
         = Some [Fin (Rpower x alpha_1 / A1 / n)])
    /\ (forall x, bp < x <= maxpl ->
         pdf (BrokenPowerLaw.as_pdf self) [Fin x]
         = Some [Fin (Rpower x alpha_2 / A2 * (p1 / p2) / n)]).
Proof.
  intros Hm Hb bp A1 A2 p1 p2 n.
  assert (Hbp : minpl < bp < maxpl) by (unfold bp; nra).
  assert (H1 : 0 < minpl < bp) by lra.
  assert (H2 : 0 < bp < maxpl) by lra.
  assert (HA1 : 0 < A1) by (apply PL_area_pos; exact H1).
  assert (HA2 : 0 < A2) by (apply PL_area_pos; exact H2).
  assert (R1 : 0 < Rpower bp alpha_1) by apply exp_pos.
  assert (R2 : 0 < Rpower bp alpha_2) by apply exp_pos.
  assert (Hp1 : 0 < p1) by (apply Rdiv_lt_0_compat; assumption).
  assert (Hp2 : 0 < p2) by (apply Rdiv_lt_0_compat; assumption).
  assert (Hr : 0 < p1 / p2) by (apply Rdiv_lt_0_compat; assumption).
  assert (Hn : 0 < n) by (unfold n; lra).
  assert (P1 : pdf (PowerLaw (Fin minpl) (Fin bp) (Fin alpha_1)) [Fin bp]
               = Some [Fin p1]) by (apply PowerLaw_pdf_at; lra).
  assert (P2 : pdf (PowerLaw (Fin bp) (Fin maxpl) (Fin alpha_2)) [Fin bp]
               = Some [Fin p2]) by (apply PowerLaw_pdf_at; lra).
  destruct (PowerLaw_log_pdf_exp minpl bp alpha_1 bp H1) as [l1 [L1 X1]];
    [lra|].
  destruct (PowerLaw_log_pdf_exp bp maxpl alpha_2 bp H2) as [l2 [L2 X2]];
    [lra|].
  fold A1 p1 in X1. fold A2 p2 in X2.
  set (self := BrokenPowerLaw.mk (Fin minpl) (Fin maxpl) (Fin alpha_1)
                 (Fin alpha_2) (Fin b) (Fin bp)
                 (PowerLaw (Fin minpl) (Fin bp) (Fin alpha_1))
                 (PowerLaw (Fin bp) (Fin maxpl) (Fin alpha_2)) (Fin n)).
  exists self.
  split.
  { unfold BrokenPowerLaw.init.
    change (Fin minpl + Fin b * (Fin maxpl - Fin minpl))%fl with (Fin bp).
    rewrite P1. cbn [bind nth_error]. rewrite P2. cbn [bind nth_error].
    cbn [fdiv fadd]. rewrite R_eqb_false by lra. reflexivity. }
  split; [reflexivity|]. split; [reflexivity|].
  split; [exact P1|]. split; [exact P2|].
  assert (Hlog : forall x a c,
             log_pdf (PowerLaw (Fin minpl) (Fin bp) (Fin alpha_1)) [x]
             = Some [a] ->
             log_pdf (PowerLaw (Fin bp) (Fin maxpl) (Fin alpha_2)) [x]
             = Some [c] ->
             pdf (BrokenPowerLaw.as_pdf self) [x]
             = Some [fexp (bound_pdf_at (Fin minpl) (Fin maxpl) x
                             (logaddexp a (c + Fin l1 - Fin l2)
                              - Fin (ln n))%fl)]).
  { intros x a c Ha Hc.
    rewrite (pdf_point (BrokenPowerLaw.as_pdf self) x
               (logaddexp a (c + Fin l1 - Fin l2) - Fin (ln n))%fl).
    - reflexivity.
    - cbn [_log_pdf BrokenPowerLaw.as_pdf].
      rewrite (BrokenPowerLaw_log_pdf_point self x a c l1 l2 L1 L2 Ha Hc).
      cbn [BrokenPowerLaw.norm_fact self].
      cbn [flog]. now rewrite R_ltb_true by lra. }
  split.
  { rewrite (Hlog (Fin bp) (Fin l1) (Fin l2) L1 L2).
    rewrite within_bounds by (fcompare; lra).
    cbn [fadd fsub fneg]. unfold logaddexp. cbn [fexp fadd].
    assert (0 < exp l1 + exp (l2 + l1 + - l2)).
    { assert (H := exp_pos (l2 + l1 + - l2)). lra. }
    cbn [flog]. rewrite R_ltb_true by lra. cbn [fsub fneg fadd fexp].
    do 3 f_equal.
    rewrite exp_plus, exp_Ropp, !exp_ln by lra.
    replace (l2 + l1 + - l2) with l1 by ring.
    rewrite X1. field. lra. }
  split.
  - intros x Hx.
    destruct (PowerLaw_log_pdf_exp minpl bp alpha_1 x H1) as [l [Lx Xx]];
      [lra|].
    fold A1 in Xx.
    rewrite (Hlog (Fin x) (Fin l) NInf Lx).
    + rewrite within_bounds by (fcompare; lra).
      cbn [fadd fsub fneg]. unfold logaddexp. cbn [fexp fadd].
      assert (H := exp_pos l).
      cbn [flog]. rewrite R_ltb_true by lra. cbn [fsub fneg fadd fexp].
      do 3 f_equal.
      rewrite exp_plus, exp_Ropp, !exp_ln by lra.
      rewrite Rplus_0_r, Xx. field. lra.
    + apply PowerLaw_pdf_outside.
      replace (Fin x <? Fin bp)%fl with true by (symmetry; fcompare; lra).
      reflexivity.
  - intros x Hx.
    destruct (PowerLaw_log_pdf_exp bp maxpl alpha_2 x H2) as [l [Lx Xx]];
      [lra|].
    fold A2 in Xx.
    rewrite (Hlog (Fin x) NInf (Fin l)); [| |exact Lx].
    + rewrite within_bounds by (fcompare; lra).
      cbn [fadd fsub fneg]. unfold logaddexp. cbn [fexp fadd].
      assert (H := exp_pos (l + l1 + - l2)).
      cbn [flog]. rewrite R_ltb_true by lra. cbn [fsub fneg fadd fexp].
      do 3 f_equal.
      rewrite exp_plus, exp_Ropp, !exp_ln by lra.
      rewrite Rplus_0_l, !exp_plus, exp_Ropp, Xx, X1, X2. field.
      repeat split; lra.
    + apply PowerLaw_pdf_outside.
      replace (Fin x >? Fin bp)%fl with true by (symmetry; fcompare; lra).
      apply orb_true_r.
Qed.

(** C8: for [0 < min < max] and [0 < b < 1] the constructor succeeds and
    the normalisation is [1 + p1/p2], with [p1] and [p2] the densities of
    the two power laws at the break point [min + b (max - min)].  On both
    sides of the break the density that [pdf] returns tends to one value,
    [p1 / (1 + p1/p2)]: the two branches are stitched continuously.  At the
    break point itself, which lies inside the closed bounds of both power
    laws, [pdf] returns twice that value, so the density the code returns
    is not continuous there. *)
Theorem BrokenPowerLaw_pdf_at_break (minpl maxpl alpha_1 alpha_2 b : R) :
  0 < minpl < maxpl -> 0 < b < 1 ->
  exists self p1 p2,
    BrokenPowerLaw.init (Fin minpl) (Fin maxpl) (Fin alpha_1) (Fin alpha_2)
                        (Fin b) = Some self
    /\ BrokenPowerLaw.break_point self = Fin (minpl + b * (maxpl - minpl))
    /\ pdf (BrokenPowerLaw.PL1 self) [BrokenPowerLaw.break_point self]
       = Some [Fin p1]
    /\ pdf (BrokenPowerLaw.PL2 self) [BrokenPowerLaw.break_point self]
       = Some [Fin p2]
    /\ 0 < p1 /\ 0 < p2
    /\ BrokenPowerLaw.norm_fact self = Fin (1 + p1 / p2)
    /\ (forall eps, 0 < eps ->
        exists delta,
          0 < delta
          /\ forall x,
               x <> minpl + b * (maxpl - minpl) ->
               Rabs (x - (minpl + b * (maxpl - minpl))) < delta ->
               exists v,
                 pdf (BrokenPowerLaw.as_pdf self) [Fin x] = Some [Fin v]
                 /\ Rabs (v - p1 / (1 + p1 / p2)) < eps)
    /\ pdf (BrokenPowerLaw.as_pdf self) [BrokenPowerLaw.break_point self]
       = Some [Fin (2 * (p1 / (1 + p1 / p2)))]
    /\ 0 < p1 / (1 + p1 / p2).
Proof.
  intros Hm Hb.
  destruct (BrokenPowerLaw_pdf_formula minpl maxpl alpha_1 alpha_2 b Hm Hb)
    as [self [E [Ebp [En [P1 [P2 [Pb [Lo Hi]]]]]]]].
  cbv zeta in *. revert En P1 P2 Pb Lo Hi Ebp.
  set (bp := minpl + b * (maxpl - minpl)).
  set (A1 := PL_area minpl bp alpha_1). set (A2 := PL_area bp maxpl alpha_2).
  set (p1 := Rpower bp alpha_1 / A1). set (p2 := Rpower bp alpha_2 / A2).
  set (n := 1 + p1 / p2).
  intros En P1 P2 Pb Lo Hi Ebp.
  assert (Hbp : minpl < bp < maxpl) by (unfold bp; nra).
  assert (HA1 : 0 < A1) by (apply PL_area_pos; lra).
  assert (HA2 : 0 < A2) by (apply PL_area_pos; lra).
  assert (R1 : 0 < Rpower bp alpha_1) by apply exp_pos.
  assert (R2 : 0 < Rpower bp alpha_2) by apply exp_pos.
  assert (Hp1 : 0 < p1) by (apply Rdiv_lt_0_compat; assumption).
  assert (Hp2 : 0 < p2) by (apply Rdiv_lt_0_compat; assumption).
  assert (Hr : 0 < p1 / p2) by (apply Rdiv_lt_0_compat; assumption).
  assert (Hn : 0 < n) by (unfold n; lra).
  assert (HL : 0 < p1 / n) by (apply Rdiv_lt_0_compat; assumption).
  exists self, p1, p2. fold n.
  split; [exact E|]. split; [exact Ebp|].
  rewrite Ebp.
  split; [exact P1|]. split; [exact P2|].
  split; [exact Hp1|]. split; [exact Hp2|]. split; [exact En|].
  split; [|split; [exact Pb | exact HL]].
  intros eps He.
  set (K1 := A1 * n). set (K2 := Rpower bp alpha_2 * n / p1).
  assert (HK1 : 0 < K1) by (unfold K1; nra).
  assert (HK2 : 0 < K2).
  { unfold K2. apply Rdiv_lt_0_compat; [nra | exact Hp1]. }
  destruct (Rpower_continuous alpha_1 bp (eps * K1)) as [d1 [Hd1 C1]];
    [lra | nra |].
  destruct (Rpower_continuous alpha_2 bp (eps * K2)) as [d2 [Hd2 C2]];
    [lra | nra |].
  exists (Rmin (Rmin d1 d2) (Rmin (bp - minpl) (maxpl - bp))).
  split.
  { repeat apply Rmin_glb_lt; lra. }
  intros x Hne Hx.
  assert (Hx1 : Rabs (x - bp) < d1).
  { eapply Rlt_le_trans; [exact Hx|].
    eapply Rle_trans; [apply Rmin_l | apply Rmin_l]. }
  assert (Hx2 : Rabs (x - bp) < d2).
  { eapply Rlt_le_trans; [exact Hx|].
    eapply Rle_trans; [apply Rmin_l | apply Rmin_r]. }
  assert (Hx3 : Rabs (x - bp) < bp - minpl).
  { eapply Rlt_le_trans; [exact Hx|].
    eapply Rle_trans; [apply Rmin_r | apply Rmin_l]. }
  assert (Hx4 : Rabs (x - bp) < maxpl - bp).
  { eapply Rlt_le_trans; [exact Hx|].
    eapply Rle_trans; [apply Rmin_r | apply Rmin_r]. }
  apply Rabs_def2 in Hx3. apply Rabs_def2 in Hx4.
  destruct (Rlt_dec x bp) as [Lx | Gx].
  - eexists. split; [apply Lo; lra|].
    replace (Rpower x alpha_1 / A1 / n - p1 / n)
      with ((Rpower x alpha_1 - Rpower bp alpha_1) / K1)
      by (unfold p1, K1; field; lra).
    apply scaled_close; [exact HK1 | apply C1; exact Hx1].
  - eexists. split; [apply Hi; lra|].
    replace (Rpower x alpha_2 / A2 * (p1 / p2) / n - p1 / n)
      with ((Rpower x alpha_2 - Rpower bp alpha_2) / K2)
      by (unfold p2, K2; field; repeat split; lra).
    apply scaled_close; [exact HK2 | apply C2; exact Hx2].
Qed.

(** The broken power law on [[5, 100]] with exponents [-2] and [-4] that
    breaks at [52.5]. *)
Lemma BrokenPowerLaw_pdf_at_break_witness :
  0 < 5 < 100 /\ 0 < 1 / 2 < 1
  /\ exists self p1 p2,
       BrokenPowerLaw.init (Fin 5) (Fin 100) (Fin (-2)) (Fin (-4))
                           (Fin (1 / 2)) = Some self
       /\ BrokenPowerLaw.norm_fact self = Fin (1 + p1 / p2)
       /\ pdf (BrokenPowerLaw.as_pdf self) [BrokenPowerLaw.break_point self]
          = Some [Fin (2 * (p1 / (1 + p1 / p2)))]
       /\ 0 < p1 / (1 + p1 / p2).
Proof.
  assert (H1 : 0 < 5 < 100) by lra.
  assert (H2 : 0 < 1 / 2 < 1) by lra.
  split; [exact H1|]. split; [exact H2|].
  destruct (BrokenPowerLaw_pdf_at_break 5 100 (-2) (-4) (1 / 2) H1 H2)
    as [self [p1 [p2 [E [_ [_ [_ [_ [_ [N [_ [B L]]]]]]]]]]]].
  exists self, p1, p2. repeat split; assumption.
Defined.

End broken_power_law_break.
